(** * HTML preview tool: archive normalisation and metadata inference

    A shallow embedding of [detectDimensions] and [processZipFile] from
    [src/components/HtmlPreviewTool.tsx], together with the parts of the
    JavaScript platform they call (regular expressions, [String.prototype]
    methods, [Map], [FileReader.readAsDataURL]), and the properties of the
    specification that concern them.

    Conventions.
    - A JavaScript string is a sequence of UTF-16 code units.  It is modelled
      as [list ascii]; an [ascii] stands for a code unit in the range 0..255
      (so the multiplication sign U+00D7 is the single unit 215).  Documents
      with code units above 255 are outside the model.
    - Numbers produced by [parseInt] on a run of digits are modelled as [N].
      The source holds them in doubles: the two agree on the safe integers
      (below 2^53), and on whether a number is zero for every run of
      digits.  A statement that depends on the value or on the printed form
      of a number carries the bound [safe_integer].
    - Asynchronous steps ([await]) are sequential in the source and are
      modelled as ordinary calls; a rejected promise is an exception, and an
      exception is the result [None] of the step that throws.
    - [processZipFile] is a function from the component state to the
      component state; [Date.now()] is an argument.

    Layout: the platform (strings, regular expressions, replacement), then
    the two functions of the source with the vocabulary of the statements,
    the other handlers of the component, then the properties: the dimension
    cascade, extraction and ingestion, reference rewriting, names, the asset
    map, the handlers. *)

From Stdlib Require Import Ascii String.
From Stdlib Require Import List NArith Bool Arith Lia.
From Stdlib Require Import DecimalString DecimalN.
Import ListNotations.

(** ** JavaScript strings *)

Definition jsstring := list ascii.

Definition str (s : string) : jsstring := list_ascii_of_string s.

Definition ascii_is (a b : ascii) : bool := Ascii.eqb a b.

Definition code (c : ascii) : N := N_of_ascii c.

(** The multiplication sign, U+00D7. *)
Definition times_sign : ascii := ascii_of_N 215.

(** [String.prototype.toUpperCase] on one code unit of the range 0..255,
    when the result is a single code unit (sharp s, 223, maps to two units
    and is left alone by [Canonicalize]). *)
Definition toUpperCaseUnit (n : N) : N :=
  (if (97 <=? n) && (n <=? 122) then n - 32
   else if n =? 181 then 924
   else if (224 <=? n) && (n <=? 254) && negb (n =? 247) then n - 32
   else if n =? 255 then 376
   else n)%N.

(** ECMAScript [Canonicalize] for a regular expression with the [i] flag and
    without the [u] flag. *)
Definition Canonicalize (c : ascii) : N :=
  let n := code c in
  let u := toUpperCaseUnit n in
  if ((128 <=? n) && (u <? 128))%N then n else u.

(** Two code units match each other under the [i] flag. *)
Definition ci_eqb (a b : ascii) : bool := (Canonicalize a =? Canonicalize b)%N.

(** [String.prototype.toLowerCase] on the range 0..255. *)
Definition toLowerCaseUnit (c : ascii) : ascii :=
  let n := code c in
  if ((65 <=? n) && (n <=? 90))%N then ascii_of_N (n + 32)
  else if ((192 <=? n) && (n <=? 222) && negb (n =? 215))%N then ascii_of_N (n + 32)
  else c.

Definition toLowerCase (s : jsstring) : jsstring := map toLowerCaseUnit s.

(** White space and line terminators of the range 0..255: the class [\s] and
    the units removed by [trim]. *)
Definition is_space (c : ascii) : bool :=
  let n := code c in
  (((9 <=? n) && (n <=? 13)) || (n =? 32) || (n =? 160))%N.

Definition is_digit (c : ascii) : bool :=
  let n := code c in ((48 <=? n) && (n <=? 57))%N.

Definition digit_value (c : ascii) : N := (code c - 48)%N.

Fixpoint trimStart (s : jsstring) : jsstring :=
  match s with
  | c :: s' => if is_space c then trimStart s' else s
  | [] => []
  end.

Definition trim (s : jsstring) : jsstring :=
  rev (trimStart (rev (trimStart s))).

Fixpoint startsWith (s p : jsstring) : bool :=
  match p, s with
  | [], _ => true
  | a :: p', b :: s' => ascii_is a b && startsWith s' p'
  | _ :: _, [] => false
  end.

Definition endsWith (s p : jsstring) : bool := startsWith (rev s) (rev p).

Fixpoint includes (s p : jsstring) : bool :=
  startsWith s p ||
  match s with
  | [] => false
  | _ :: s' => includes s' p
  end.

(** [s.split('/').pop()]: the part of [s] after its last slash. *)
Fixpoint lastSegment (acc s : jsstring) : jsstring :=
  match s with
  | [] => acc
  | c :: s' => if ascii_is c "/" then lastSegment [] s' else lastSegment (acc ++ [c]) s'
  end.

(** [parseInt] on a capture of [\d+]: the decimal value of the leading
    digits.  The source applies it to such captures only, so the sign, the
    radix prefix and NaN do not arise.  The value is that of the source up
    to 2^53; above, the source rounds it to a double (to [Infinity] from
    about 310 digits), which is not zero either. *)
Fixpoint parseInt_from (acc : N) (s : jsstring) : N :=
  match s with
  | c :: s' => if is_digit c then parseInt_from (10 * acc + digit_value c)%N s' else acc
  | [] => acc
  end.

Definition parseInt (s : jsstring) : N := parseInt_from 0%N s.

(** Number-to-string conversion of a template literal, for a safe integer:
    its decimal digits.  (From 10^21 the source prints an exponent, and
    [Infinity] for an infinite value.) *)
Definition numberToString (n : N) : jsstring :=
  str (NilZero.string_of_uint (N.to_uint n)).

(** ** Regular expressions

    The fragment of ECMAScript patterns the source uses: classes, sequence,
    alternation, a greedy optional group, greedy and lazy repetition of a
    class, capturing groups and the end anchor.  Matching is the
    backtracking search of the language definition, in continuation-passing
    style: the priority order of alternatives is the order in which the
    matcher tries them. *)

Inductive regex : Type :=
| Eps
| Chr (p : ascii -> bool)
| Seq (a b : regex)
| Alt (a b : regex)
| Opt (a : regex)
| Star (p : ascii -> bool)
| LazyStar (p : ascii -> bool)
| Group (n : nat) (a : regex)
| EndAnchor.

Definition captures := list (nat * jsstring).

Definition mstate : Type := (jsstring * captures)%type.

Definition cont := jsstring -> captures -> option mstate.

Definition orElse (x : option mstate) (y : option mstate) : option mstate :=
  match x with
  | Some r => Some r
  | None => y
  end.

Fixpoint star (p : ascii -> bool) (s : jsstring) (caps : captures) (k : cont)
  : option mstate :=
  match s with
  | c :: s' => if p c then orElse (star p s' caps k) (k s caps) else k s caps
  | [] => k s caps
  end.

Fixpoint lazystar (p : ascii -> bool) (s : jsstring) (caps : captures) (k : cont)
  : option mstate :=
  match s with
  | c :: s' => orElse (k s caps) (if p c then lazystar p s' caps k else None)
  | [] => k s caps
  end.

Fixpoint rmatch (r : regex) (s : jsstring) (caps : captures) (k : cont)
  : option mstate :=
  match r with
  | Eps => k s caps
  | Chr p =>
      match s with
      | c :: s' => if p c then k s' caps else None
      | [] => None
      end
  | Seq a b => rmatch a s caps (fun s1 c1 => rmatch b s1 c1 k)
  | Alt a b => orElse (rmatch a s caps k) (rmatch b s caps k)
  | Opt a => orElse (rmatch a s caps k) (k s caps)
  | Star p => star p s caps k
  | LazyStar p => lazystar p s caps k
  | Group n a =>
      rmatch a s caps
        (fun s1 c1 => k s1 ((n, firstn (length s - length s1) s) :: c1))
  | EndAnchor =>
      match s with
      | [] => k s caps
      | _ :: _ => None
      end
  end.

(** The continuation of a whole pattern: the match is complete. *)
Definition k0 : cont := fun s caps => Some (s, caps).

(** One match attempt at the start of [s]: the text left after the match and
    the captures. *)
Definition exec_at (r : regex) (s : jsstring) : option mstate :=
  rmatch r s [] k0.

Fixpoint capture (n : nat) (caps : captures) : option jsstring :=
  match caps with
  | [] => None
  | (m, v) :: caps' => if Nat.eqb m n then Some v else capture n caps'
  end.

(** The result of a successful search: the text before the match, the match
    and the text after it, with the captures. *)
Record match_result : Type := MatchResult {
  m_before : jsstring;
  m_matched : jsstring;
  m_after : jsstring;
  m_caps : captures
}.

(** [result[n]] for a capturing group; an unset group reads as empty. *)
Definition grp (n : nat) (m : match_result) : jsstring :=
  match capture n (m_caps m) with
  | Some v => v
  | None => []
  end.

(** [RegExp.prototype.exec] without the [g] flag: the leftmost position
    where an attempt succeeds. *)
Fixpoint search_from (r : regex) (before s : jsstring) : option match_result :=
  match exec_at r s with
  | Some (rest, caps) =>
      Some (MatchResult before (firstn (length s - length rest) s) rest caps)
  | None =>
      match s with
      | [] => None
      | c :: s' => search_from r (before ++ [c]) s'
      end
  end.

(** [s.match(r)] for a pattern without the [g] flag. *)
Definition js_match (r : regex) (s : jsstring) : option match_result :=
  search_from r [] s.

(** *** Pattern builders *)

(** A class given by its members, under the [i] flag. *)
Definition cset_i (l : list ascii) : ascii -> bool :=
  fun c => existsb (ci_eqb c) l.

(** A class given by its members, without the [i] flag. *)
Definition cset (l : list ascii) : ascii -> bool :=
  fun c => existsb (ascii_is c) l.

Definition cnot (p : ascii -> bool) : ascii -> bool := fun c => negb (p c).

Definition any_unit : ascii -> bool := fun _ => true.

(** A literal run of pattern characters. *)
Fixpoint lit (eqc : ascii -> ascii -> bool) (s : jsstring) : regex :=
  match s with
  | [] => Eps
  | c :: s' => Seq (Chr (eqc c)) (lit eqc s')
  end.

Definition lit_i (s : string) : regex := lit ci_eqb (str s).
Definition lit_s (s : string) : regex := lit ascii_is (str s).

Definition Plus (p : ascii -> bool) : regex := Seq (Chr p) (Star p).

Fixpoint seqs (l : list regex) : regex :=
  match l with
  | [] => Eps
  | [r] => r
  | r :: l' => Seq r (seqs l')
  end.

(** The double quote (unit 34) and the single quote (unit 39). *)
Definition dq : ascii := "034"%char.
Definition sq : ascii := "039"%char.

(** Number of capturing groups of a pattern. *)
Fixpoint ngroups (r : regex) : nat :=
  match r with
  | Seq a b | Alt a b => ngroups a + ngroups b
  | Opt a => ngroups a
  | Group _ a => S (ngroups a)
  | _ => 0
  end.

(** *** Replacement *)

Definition decimal_digit (c : ascii) : option nat :=
  if is_digit c then Some (N.to_nat (digit_value c)) else None.

Definition cap_text (n : nat) (caps : captures) : jsstring :=
  match capture n caps with
  | Some v => v
  | None => []
  end.

(** ECMAScript [GetSubstitution] for a pattern with [m] capturing groups and
    no named groups. *)
Fixpoint GetSubstitution (matched before after : jsstring) (m : nat)
    (caps : captures) (tpl : jsstring) : jsstring :=
  match tpl with
  | [] => []
  | c :: t =>
      let plain := c :: GetSubstitution matched before after m caps t in
      if ascii_is c "$" then
        match t with
        | [] => [c]
        | d :: t1 =>
            let one n1 :=
              if (1 <=? n1) && (n1 <=? m)
              then cap_text n1 caps ++ GetSubstitution matched before after m caps t1
              else plain in
            if ascii_is d "$" then c :: GetSubstitution matched before after m caps t1
            else if ascii_is d "&" then matched ++ GetSubstitution matched before after m caps t1
            else if ascii_is d "`" then before ++ GetSubstitution matched before after m caps t1
            else if ascii_is d "'" then after ++ GetSubstitution matched before after m caps t1
            else
              match decimal_digit d with
              | Some n1 =>
                  match t1 with
                  | d2 :: t2 =>
                      match decimal_digit d2 with
                      | Some n2 =>
                          let nn := 10 * n1 + n2 in
                          if (1 <=? nn) && (nn <=? m)
                          then cap_text nn caps ++ GetSubstitution matched before after m caps t2
                          else one n1
                      | None => one n1
                      end
                  | [] => one n1
                  end
              | None => plain
              end
        end
      else plain
  end.

(** [s.replace(r, tpl)] for a pattern with the [g] flag: matches are found
    from left to right, each search starting where the previous match ended
    (one unit further after an empty match).  [skip] counts the units of the
    current match still to be passed over. *)
Fixpoint replace_scan (r : regex) (tpl : jsstring) (before s : jsstring)
    (skip : nat) : jsstring :=
  match skip with
  | S n =>
      match s with
      | [] => []
      | c :: s' => replace_scan r tpl (before ++ [c]) s' n
      end
  | O =>
      match exec_at r s with
      | Some (rest, caps) =>
          let len := length s - length rest in
          GetSubstitution (firstn len s) before rest (ngroups r) caps tpl ++
          match s with
          | [] => []
          | c :: s' =>
              match len with
              | O => c :: replace_scan r tpl (before ++ [c]) s' 0
              | S n => replace_scan r tpl (before ++ [c]) s' n
              end
          end
      | None =>
          match s with
          | [] => []
          | c :: s' => c :: replace_scan r tpl (before ++ [c]) s' 0
          end
      end
  end.

Definition replace_all (r : regex) (tpl s : jsstring) : jsstring :=
  replace_scan r tpl [] s 0.

(** [s.replace(r, tpl)] for a pattern without the [g] flag. *)
Definition replace_first (r : regex) (tpl s : jsstring) : jsstring :=
  match js_match r s with
  | Some m =>
      m_before m ++
      GetSubstitution (m_matched m) (m_before m) (m_after m) (ngroups r) (m_caps m) tpl ++
      m_after m
  | None => s
  end.

(** ** Metadata inference: [detectDimensions]

    Each pattern is given with the source's regular expression, in which
    [\x22] and [\x27] are written for the double and the single quote, and
    a blank separates a star from a closing parenthesis that follows it. *)

Module Detect.

(** The classes of the patterns below, under the [i] flag. *)
Definition quote_i : ascii -> bool := cset_i [dq; sq].
Definition not_quote_i : ascii -> bool := cnot quote_i.
Definition not_gt : ascii -> bool := cnot (cset_i [">"%char]).
Definition not_lt : ascii -> bool := cnot (cset_i ["<"%char]).
Definition not_rbrace : ascii -> bool := cnot (cset_i ["}"%char]).
Definition by_sign_i : ascii -> bool := cset_i ["x"%char; times_sign].
Definition by_sign : ascii -> bool := cset ["x"%char; times_sign].
Definition file_sep_i : ascii -> bool :=
  cset_i ["x"%char; times_sign; "_"%char; "-"%char].

Definition digits : regex := Plus is_digit.
Definition spaces : regex := Star is_space.

(** [/<meta\s+name=[\x22\x27]NAME[\x22\x27]\s+content=[\x22\x27]([^\x22\x27]+)[\x22\x27]/i] *)
Definition re_meta (name : regex) : regex :=
  seqs [lit_i "<meta"; Plus is_space; lit_i "name="; Chr quote_i; name;
        Chr quote_i; Plus is_space; lit_i "content="; Chr quote_i;
        Group 1 (Plus not_quote_i); Chr quote_i].

Definition re_adSize : regex := re_meta (lit_i "ad.size").
Definition re_viewport : regex := re_meta (lit_i "viewport").

(** [/width=(\d+)/i] and [/height=(\d+)/i] *)
Definition re_width : regex := seqs [lit_i "width="; Group 1 digits].
Definition re_height : regex := seqs [lit_i "height="; Group 1 digits].

(** [/<TAG[^>]*style=[\x22\x27]([^\x22\x27]*FIRST:\s*(\d+)px[^\x22\x27]*SECOND:\s*(\d+)px[^\x22\x27]* )[\x22\x27]/i] *)
Definition re_inlineStyle (tag first second : string) : regex :=
  seqs [lit_i tag; Star not_gt; lit_i "style="; Chr quote_i;
        Group 1 (seqs [Star not_quote_i; lit_i first; spaces; Group 2 digits;
                       lit_i "px"; Star not_quote_i; lit_i second; spaces;
                       Group 3 digits; lit_i "px"; Star not_quote_i]);
        Chr quote_i].

Definition re_bodyStyle : regex := re_inlineStyle "<body" "width:" "height:".
Definition re_bodyStyle2 : regex := re_inlineStyle "<body" "height:" "width:".
Definition re_htmlStyle : regex := re_inlineStyle "<html" "width:" "height:".
Definition re_divStyle : regex := re_inlineStyle "<div" "width:" "height:".

(** [/<style[^>]*>([\s\S]*?)<\/style>/i] *)
Definition re_styleTag : regex :=
  seqs [lit_i "<style"; Star not_gt; lit_i ">"; Group 1 (LazyStar any_unit);
        lit_i "</style>"].

(** [/SELECTOR\s*\{[^}]*PROPERTY:\s*(\d+)px/i] *)
Definition re_rule (selector property : string) : regex :=
  seqs [lit_i selector; spaces; lit_i "{"; Star not_rbrace; lit_i property;
        spaces; Group 1 digits; lit_i "px"].

(** [/<!--\s*(?:size|dimensions|format):\s*(\d+)\s*[x×]\s*(\d+)\s*-->/i] *)
Definition re_comment : regex :=
  seqs [lit_i "<!--"; spaces;
        Alt (lit_i "size") (Alt (lit_i "dimensions") (lit_i "format"));
        lit_i ":"; spaces; Group 1 digits; spaces; Chr by_sign_i; spaces;
        Group 2 digits; spaces; lit_i "-->"].

(** [/data-format=[\x22\x27]([^\x22\x27]+)[\x22\x27]/i] *)
Definition re_dataFormat : regex :=
  seqs [lit_i "data-format="; Chr quote_i; Group 1 (Plus not_quote_i);
        Chr quote_i].

(** [/(\d+)\s*[x×]\s*(\d+)/i] *)
Definition re_format : regex :=
  seqs [Group 1 digits; spaces; Chr by_sign_i; spaces; Group 2 digits].

(** [/(\d+)[x×_-](\d+)/i] *)
Definition re_fileDims : regex :=
  seqs [Group 1 digits; Chr file_sep_i; Group 2 digits].

(** [/<title>([^<]+)<\/title>/i] *)
Definition re_title : regex :=
  seqs [lit_i "<title>"; Group 1 (Plus not_lt); lit_i "</title>"].

(** [/<meta\s+name=[\x22\x27](?:format-name|display-name)[\x22\x27]\s+content=[\x22\x27]([^\x22\x27]+)[\x22\x27]/i] *)
Definition re_metaName : regex :=
  re_meta (Alt (lit_i "format-name") (lit_i "display-name")).

(** [/\d+\s*[x×]\s*\d+/] *)
Definition re_hasDims : regex :=
  seqs [digits; spaces; Chr by_sign; spaces; digits].

(** [/\.html$/] and [/[_-]/g] *)
Definition re_htmlExt : regex := seqs [lit_s ".html"; EndAnchor].
Definition re_sep : regex := Chr (cset ["_"%char; "-"%char]).

(** The pair [width], [height] threaded through the cascade. *)
Definition size : Type := (N * N)%type.

(** [!width || !height] *)
Definition incomplete (d : size) : bool := N.eqb (fst d) 0 || N.eqb (snd d) 0.

(** [if (!width || !height) { ... }] *)
Definition guarded (f : size -> size) (d : size) : size :=
  if incomplete d then f d else d.

(** A metadata tag whose content carries [width=] and [height=]. *)
Definition tier_meta (re : regex) (html : jsstring) (d : size) : size :=
  match js_match re html with
  | Some m =>
      let content := grp 1 m in
      match js_match re_width content, js_match re_height content with
      | Some wm, Some hm => (parseInt (grp 1 wm), parseInt (grp 1 hm))
      | _, _ => d
      end
  | None => d
  end.

Definition tier_adSize := tier_meta re_adSize.
Definition tier_viewport := tier_meta re_viewport.

(** An inline style giving width then height. *)
Definition style_pair (re : regex) (html : jsstring) : option size :=
  match js_match re html with
  | Some m => Some (parseInt (grp 2 m), parseInt (grp 3 m))
  | None => None
  end.

Definition tier_body (html : jsstring) (d : size) : size :=
  match style_pair re_bodyStyle html with
  | Some wh => wh
  | None =>
      match js_match re_bodyStyle2 html with
      | Some m => (parseInt (grp 3 m), parseInt (grp 2 m))
      | None => d
      end
  end.

Definition tier_inline (re : regex) (html : jsstring) (d : size) : size :=
  match style_pair re html with
  | Some wh => wh
  | None => d
  end.

Definition tier_html := tier_inline re_htmlStyle.
Definition tier_div := tier_inline re_divStyle.

(** [if (m) v = parseInt(m[1])] *)
Definition assign_if (m : option match_result) (v : N) : N :=
  match m with
  | Some r => parseInt (grp 1 r)
  | None => v
  end.

(** The rules of one selector of the style block. *)
Definition rule_dims (selector : string) (css : jsstring) (d : size) : size :=
  (assign_if (js_match (re_rule selector "width:") css) (fst d),
   assign_if (js_match (re_rule selector "height:") css) (snd d)).

Definition tier_styleTag (html : jsstring) (d : size) : size :=
  match js_match re_styleTag html with
  | Some m =>
      let css := grp 1 m in
      guarded (rule_dims "html" css) (rule_dims "body" css d)
  | None => d
  end.

Definition tier_comment (html : jsstring) (d : size) : size :=
  match js_match re_comment html with
  | Some m => (parseInt (grp 1 m), parseInt (grp 2 m))
  | None => d
  end.

Definition tier_dataFormat (html : jsstring) (d : size) : size :=
  match js_match re_dataFormat html with
  | Some m =>
      match js_match re_format (grp 1 m) with
      | Some f => (parseInt (grp 1 f), parseInt (grp 2 f))
      | None => d
      end
  | None => d
  end.

Definition tier_filename (filename : jsstring) (d : size) : size :=
  match js_match re_fileDims filename with
  | Some m => (parseInt (grp 1 m), parseInt (grp 2 m))
  | None => d
  end.

Definition tier_default (d : size) : size := (800%N, 600%N).

(** The detectors below the ad-size one, in source order. *)
Definition detectors (html filename : jsstring) : list (size -> size) :=
  [ tier_viewport html;
    tier_body html;
    tier_html html;
    tier_styleTag html;
    tier_div html;
    tier_comment html;
    tier_dataFormat html;
    tier_filename filename;
    tier_default ].

(** Each of them stands behind the guard [if (!width || !height)]. *)
Definition lower_tiers (html filename : jsstring) : list (size -> size) :=
  map guarded (detectors html filename).

Definition run_tiers (l : list (size -> size)) (d : size) : size :=
  fold_left (fun acc f => f acc) l d.

(** The width and height part of [detectDimensions]. *)
Definition detectSize (html filename : jsstring) : size :=
  run_tiers (lower_tiers html filename) (tier_adSize html (0%N, 0%N)).

(** [name] after the title step. *)
Definition titleName (html : jsstring) : jsstring :=
  match js_match re_title html with
  | Some m => trim (grp 1 m)
  | None => []
  end.

(** [name] after the meta step. *)
Definition metaName (html : jsstring) (name : jsstring) : jsstring :=
  match name with
  | [] =>
      match js_match re_metaName html with
      | Some m => trim (grp 1 m)
      | None => name
      end
  | _ :: _ => name
  end.

Definition cleanFilename (filename : jsstring) : jsstring :=
  replace_all re_sep (str " ") (replace_first re_htmlExt [] filename).

(** [name] after the filename step. *)
Definition fileName (filename : jsstring) (name : jsstring) : jsstring :=
  match name with
  | [] =>
      let clean := cleanFilename filename in
      let lower := toLowerCase clean in
      if includes lower (str "mobile") && includes lower (str "portrait")
      then str "Mobile Portrait"
      else if includes lower (str "mobile") && includes lower (str "landscape")
      then str "Mobile Landscape"
      else if includes lower (str "tablet") && includes lower (str "portrait")
      then str "Tablet Portrait"
      else if includes lower (str "tablet") && includes lower (str "landscape")
      then str "Tablet Landscape"
      else if includes lower (str "desktop")
      then str "Desktop"
      else clean
  | _ :: _ => name
  end.

(** [`${width}×${height}`] *)
Definition sizeLabel (d : size) : jsstring :=
  numberToString (fst d) ++ [times_sign] ++ numberToString (snd d).

(** The last step: the dimensions are appended to a name that lacks them. *)
Definition withDims (name : jsstring) (d : size) : jsstring :=
  match name with
  | [] => sizeLabel d
  | _ :: _ =>
      match js_match re_hasDims name with
      | None => name ++ str " (" ++ sizeLabel d ++ str ")"
      | Some _ => name
      end
  end.

Definition detectName (html filename : jsstring) (d : size) : jsstring :=
  withDims (fileName filename (metaName html (titleName html))) d.

Record detected : Type := Detected {
  width : N;
  height : N;
  name : jsstring
}.

Definition detectDimensions (html filename : jsstring) : detected :=
  let d := detectSize html filename in
  Detected (fst d) (snd d) (detectName html filename d).

(** *** Vocabulary of the statements *)

(** A metadata tag matched by [re] declares the dimensions [w] by [h]: its
    content attribute carries [width=w] and [height=h]. *)
Definition declares (re : regex) (html : jsstring) (w h : N) : Prop :=
  exists m wm hm,
    js_match re html = Some m /\
    js_match re_width (grp 1 m) = Some wm /\
    js_match re_height (grp 1 m) = Some hm /\
    parseInt (grp 1 wm) = w /\ parseInt (grp 1 hm) = h.


(** A detector that either leaves the pair as it is or sets both numbers
    without reading the pair. *)
Definition oblivious (f : size -> size) : Prop :=
  (forall d, f d = d) \/ (exists c, forall d, f d = c).

(** The detectors that follow the style block. *)
Definition after_style (html filename : jsstring) : list (size -> size) :=
  skipn 4 (detectors html filename).

(** *** Sample inputs *)

Definition viewport_only_doc : jsstring :=
  str "<html><head><meta name='viewport' content='width=320,height=480'></head><body></body></html>".

Definition adSize_and_viewport_doc : jsstring :=
  str "<html><head><meta name='ad.size' content='width=300,height=250'><meta name='viewport' content='width=320,height=480'></head><body></body></html>".

(** A document whose ad-size tag carries the shorthand [300x250] instead of
    [width=] and [height=]. *)
Definition adSize_shorthand_doc : jsstring :=
  str "<html><head><meta name='ad.size' content='300x250'><meta name='viewport' content='width=320,height=480'></head><body></body></html>".

(** A document whose style block gives the body a width only, followed by a
    container with both dimensions. *)
Definition partial_then_div_doc : jsstring :=
  str "<style>body{width:300px}</style><div style='width:728px;height:90px'></div>".

(** A document whose style block splits the dimensions between the body
    rule and the html rule. *)
Definition split_rules_doc : jsstring :=
  str "<style>body{width:300px} html{height:250px}</style>".

(** A document with a title and no dimension signal. *)
Definition titled_doc : jsstring :=
  str "<html><head><title>Foo</title></head><body></body></html>".

Definition plain_doc : jsstring := str "<html><body>hi</body></html>".

(** The state of the cascade after the style-block tier. *)
Definition after_styleTag (html filename : jsstring) : size :=
  run_tiers (map guarded (firstn 4 (detectors html filename)))
            (tier_adSize html (0, 0)%N).

End Detect.

(** ** A [Map] with string keys

    A JavaScript [Map] iterates in insertion order, and setting a key that is
    present keeps its place: an association list without repeated keys. *)

Section JsMap.

Variable V : Type.

Definition jsmap := list (jsstring * V).

Definition str_eqb (a b : jsstring) : bool :=
  if list_eq_dec ascii_dec a b then true else false.

Fixpoint map_set (k : jsstring) (v : V) (m : jsmap) : jsmap :=
  match m with
  | [] => [(k, v)]
  | (k', v') :: m' =>
      if str_eqb k' k then (k, v) :: m' else (k', v') :: map_set k v m'
  end.

Fixpoint map_get (k : jsstring) (m : jsmap) : option V :=
  match m with
  | [] => None
  | (k', v') :: m' => if str_eqb k' k then Some v' else map_get k m'
  end.

Definition map_keys (m : jsmap) : list jsstring := map fst m.

End JsMap.

Arguments map_set {V} k v m.
Arguments map_get {V} k m.
Arguments map_keys {V} m.

(** ** Archive normalisation: [processZipFile] *)

Module Zip.

(** *** Blobs and data URLs *)

Record Blob : Type := mkBlob {
  blob_type : jsstring;
  blob_bytes : list Byte.byte
}.

Definition b64_alphabet : jsstring :=
  str "ABCDEFGHIJKLMNOPQRSTUVWXYZabcdefghijklmnopqrstuvwxyz0123456789+/".

Definition b64 (n : N) : ascii := nth (N.to_nat n) b64_alphabet "="%char.

(** Base64 of a byte sequence, with padding. *)
Fixpoint base64 (bs : list Byte.byte) : jsstring :=
  match bs with
  | [] => []
  | [a] =>
      let x := Byte.to_N a in
      [b64 (x / 4); b64 ((x mod 4) * 16); "="%char; "="%char]
  | [a; b] =>
      let x := Byte.to_N a in
      let y := Byte.to_N b in
      [b64 (x / 4); b64 ((x mod 4) * 16 + y / 16); b64 ((y mod 16) * 4); "="%char]
  | a :: b :: c :: rest =>
      let x := Byte.to_N a in
      let y := Byte.to_N b in
      let z := Byte.to_N c in
      [b64 (x / 4); b64 ((x mod 4) * 16 + y / 16);
       b64 ((y mod 16) * 4 + z / 64); b64 (z mod 64)] ++ base64 rest
  end%N.

(** [FileReader.readAsDataURL]: the media type of the blob (the generic
    binary type when the blob declares none, as browsers do) and its bytes
    in base64. *)
Definition readAsDataURL (b : Blob) : jsstring :=
  str "data:" ++
  match blob_type b with
  | [] => str "application/octet-stream"
  | t => t
  end ++ str ";base64," ++ base64 (blob_bytes b).

(** *** The archive *)

(** One entry of the opened archive.  [text] and [blob] are the outcomes of
    [zipEntry.async("text")] and [zipEntry.async("blob")]; [None] is a
    rejected promise, that is an exception at the [await]. *)
Record ZipObject : Type := mkZipObject {
  dir : bool;
  text : option jsstring;
  blob : option Blob
}.

(** An uploaded file.  [contents] is the outcome of [zip.loadAsync(file)]:
    the entries in the order of [Object.entries(contents.files)], or [None]
    when the promise is rejected. *)
Record File : Type := mkFile {
  file_name : jsstring;
  contents : option (list (jsstring * ZipObject))
}.

(** *** Reference rewriting *)

Definition quote : ascii -> bool := cset_i [dq; sq].
Definition not_quote : ascii -> bool := cnot quote.
Definition slash : ascii -> bool := cset_i ["/"%char; "\"%char].

(** The syntax characters of a pattern; they are also the members of the
    class in [filename.replace(/[.*+?^${}()|[\]\\]/g, '\\$&')]. *)
Definition syntax_chars : list ascii :=
  ["."; "*"; "+"; "?"; "^"; "$"; "{"; "}"; "("; ")"; "|"; "["; "]"; "\"]%char.

Definition is_syntax : ascii -> bool := cset syntax_chars.

Definition escapedFilename (filename : jsstring) : jsstring :=
  replace_all (Chr is_syntax) (str "\$&") filename.

(** What the [RegExp] constructor makes of the interpolated file name: a
    sequence of pattern characters and of escaped syntax characters denotes
    these characters; a bare syntax character is reported as [None] (there
    the constructor would build another pattern or throw). *)
Fixpoint pattern_chars (s : jsstring) : option jsstring :=
  match s with
  | [] => Some []
  | c :: s' =>
      if ascii_is c "\" then
        match s' with
        | d :: s'' =>
            if is_syntax d
            then option_map (cons d) (pattern_chars s'')
            else None
        | [] => None
        end
      else if is_syntax c then None
      else option_map (cons c) (pattern_chars s')
  end.

(** [(src|href)] *)
Definition re_attr : regex := Group 1 (Alt (lit_i "src") (lit_i "href")).

(** The common head of both patterns, before a tail [T]. *)
Definition ref_pattern (T : regex) : regex :=
  Seq re_attr (Seq (lit_i "=") (Seq (Chr quote) T)).

(** [new RegExp(`(src|href)=[\x22\x27]([^\x22\x27]*[/\\\\])?${escapedFilename}[\x22\x27]`, "gi")] *)
Definition re_pathRef (chars : jsstring) : regex :=
  seqs [re_attr; lit_i "="; Chr quote;
        Opt (Group 2 (Seq (Star not_quote) (Chr slash)));
        lit ci_eqb chars; Chr quote].

(** [new RegExp(`(src|href)=[\x22\x27]${escapedFilename}[\x22\x27]`, "gi")] *)
Definition re_bareRef (chars : jsstring) : regex :=
  seqs [re_attr; lit_i "="; Chr quote; lit ci_eqb chars; Chr quote].

Definition patterns (filename : jsstring) : option (list regex) :=
  match pattern_chars (escapedFilename filename) with
  | Some chars => Some [re_pathRef chars; re_bareRef chars]
  | None => None
  end.

(** The replacement template [`$1="${dataUrl}"`]. *)
Definition template (dataUrl : jsstring) : jsstring :=
  str "$1=" ++ [dq] ++ dataUrl ++ [dq].

Definition assets_map := jsmap jsstring.

(** The body of [assets.forEach]: both patterns of one asset, in turn. *)
Definition inlineAsset (processedHtml : jsstring) (asset : jsstring * jsstring)
  : option jsstring :=
  let (filename, dataUrl) := asset in
  match patterns filename with
  | Some ps =>
      Some (fold_left (fun html p => replace_all p (template dataUrl) html)
                      ps processedHtml)
  | None => None
  end.

(** [assets.forEach(...)] over the document text; [None] when a pattern
    cannot be built. *)
Fixpoint inlineReferences (assets : assets_map) (processedHtml : jsstring)
  : option jsstring :=
  match assets with
  | [] => Some processedHtml
  | a :: rest =>
      match inlineAsset processedHtml a with
      | Some html => inlineReferences rest html
      | None => None
      end
  end.

(** *** Extraction *)

(** [!htmlFile] *)
Definition unset (htmlFile : option jsstring) : bool :=
  match htmlFile with
  | None => true
  | Some [] => true
  | Some (_ :: _) => false
  end.

(** [filename.split('/').pop() || filename] *)
Definition basename (filename : jsstring) : jsstring :=
  match lastSegment [] filename with
  | [] => filename
  | b => b
  end.

Definition skipped (base : jsstring) : bool :=
  startsWith base (str ".") || startsWith base (str "__MACOSX").

Definition finalBlob (base : jsstring) (b : Blob) : Blob :=
  if endsWith (toLowerCase base) (str ".svg")
  then mkBlob (str "image/svg+xml") (blob_bytes b)
  else b.

(** The variables of the extraction loop. *)
Record extraction : Type := mkExtraction {
  htmlFile : option jsstring;
  htmlContent : jsstring;
  assets : assets_map
}.

(** The asset branch of the loop body. *)
Definition asset_step (x : extraction) (filename : jsstring) (zipEntry : ZipObject)
  : option extraction :=
  let base := basename filename in
  if skipped base then Some x
  else
    match blob zipEntry with
    | Some b =>
        let dataUrl := readAsDataURL (finalBlob base b) in
        Some (mkExtraction (htmlFile x) (htmlContent x)
                           (map_set base dataUrl (assets x)))
    | None => None
    end.

(** One turn of the extraction loop; [None] is an exception. *)
Definition entry_step (x : extraction) (e : jsstring * ZipObject)
  : option extraction :=
  let (filename, zipEntry) := e in
  if dir zipEntry then Some x
  else if endsWith filename (str ".html") && unset (htmlFile x) then
    match text zipEntry with
    | Some t => Some (mkExtraction (Some filename) t (assets x))
    | None => None
    end
  else asset_step x filename zipEntry.

Fixpoint extract_from (x : extraction) (entries : list (jsstring * ZipObject))
  : option extraction :=
  match entries with
  | [] => Some x
  | e :: rest =>
      match entry_step x e with
      | Some x' => extract_from x' rest
      | None => None
      end
  end.

Definition extract (entries : list (jsstring * ZipObject)) : option extraction :=
  extract_from (mkExtraction None [] []) entries.

(** *** The component state and [processZipFile] *)

Record FormatContent : Type := mkFormatContent {
  fc_html : jsstring;
  fc_assets : assets_map;
  fc_width : N;
  fc_height : N;
  fc_name : jsstring
}.

Inductive toast : Type :=
| toast_error (msg : jsstring)
| toast_success (msg : jsstring).

(** The state the function reads and writes: the two state variables of the
    component and the notices shown so far. *)
Record state : Type := mkState {
  formatContents : jsmap FormatContent;
  selectedFormat : option jsstring;
  toasts : list toast
}.

Definition notify (t : toast) (st : state) : state :=
  mkState (formatContents st) (selectedFormat st) (toasts st ++ [t]).

(** The outcome of the [try] block. *)
Inductive outcome : Type :=
| Thrown
| NoHtml
| Loaded (formatKey : jsstring) (content : FormatContent).

(** The [try] block up to the state updates; [now] is [Date.now()]. *)
Definition ingest (now : N) (entries : option (list (jsstring * ZipObject)))
  : outcome :=
  match entries with
  | None => Thrown
  | Some es =>
      match extract es with
      | None => Thrown
      | Some x =>
          match htmlFile x with
          | Some (c :: f) =>
              let d := Detect.detectDimensions (htmlContent x) (c :: f) in
              match inlineReferences (assets x) (htmlContent x) with
              | Some processedHtml =>
                  Loaded (Detect.name d ++ str "_" ++ numberToString now)
                         (mkFormatContent processedHtml (assets x)
                            (Detect.width d) (Detect.height d) (Detect.name d))
              | None => Thrown
              end
          | _ => NoHtml
          end
      end
  end.

Definition processZipFile (now : N) (file : File) (st : state) : state :=
  if negb (endsWith (file_name file) (str ".zip"))
  then notify (toast_error (str "Please upload a ZIP file")) st
  else
    match ingest now (contents file) with
    | Thrown => notify (toast_error (str "Failed to process ZIP file")) st
    | NoHtml => notify (toast_error (str "No HTML file found in the ZIP")) st
    | Loaded formatKey content =>
        mkState
          (map_set formatKey content (formatContents st))
          (if unset (selectedFormat st) then Some formatKey else selectedFormat st)
          (toasts st ++
           [toast_success (fc_name content ++ str " loaded with " ++
                           numberToString (N.of_nat (length (fc_assets content))) ++
                           str " assets!")])
    end.

(** *** Vocabulary of the statements *)

(** An entry that cannot become the document: a directory, or a name that
    does not end in the document extension. *)
Definition not_document (e : jsstring * ZipObject) : Prop :=
  dir (snd e) = true \/ endsWith (fst e) (str ".html") = false.

(** The loop with every file entry taken as an asset. *)
Fixpoint collect_assets (x : extraction) (entries : list (jsstring * ZipObject))
  : option extraction :=
  match entries with
  | [] => Some x
  | (filename, zipEntry) :: rest =>
      if dir zipEntry then collect_assets x rest
      else
        match asset_step x filename zipEntry with
        | Some x' => collect_assets x' rest
        | None => None
        end
  end.

(** *** References, in the words of the specification

    A reference is an attribute named [src] or [href], an equals sign and a
    quoted value; it names the asset [B] when the value is [B], or a path
    that ends in a slash or a backslash followed by [B].  Letters are
    compared up to case, as the patterns do. *)

(** [v] is [B] up to the case of letters. *)
Fixpoint ci_str (v B : jsstring) : bool :=
  match B, v with
  | [], [] => true
  | b :: B', x :: v' => ci_eqb b x && ci_str v' B'
  | _, _ => false
  end.

(** [s] starts with [p] up to case; the rest of [s]. *)
Fixpoint ci_prefix (p s : jsstring) : option jsstring :=
  match p with
  | [] => Some s
  | a :: p' =>
      match s with
      | b :: s' => if ci_eqb a b then ci_prefix p' s' else None
      | [] => None
      end
  end.

Definition bare_value (B v : jsstring) : bool := ci_str v B.

(** [v] is some path, a slash or backslash, and [B]. *)
Fixpoint slash_value (B v : jsstring) : bool :=
  match v with
  | [] => false
  | x :: v' => (slash x && ci_str v' B) || slash_value B v'
  end.

Definition path_value (B v : jsstring) : bool :=
  ci_str v B || slash_value B v.

(** [u] is an attribute name and the equals sign. *)
Definition attr_eq (u : jsstring) : bool :=
  ci_str u (str "src=") || ci_str u (str "href=").

(** [u] ends with an attribute name and the equals sign. *)
Fixpoint ends_attr (u : jsstring) : bool :=
  attr_eq u ||
  match u with
  | [] => false
  | _ :: u' => ends_attr u'
  end.

(** The attribute name at the start of a text, and what follows it. *)
Definition attr_at (t : jsstring) : option (jsstring * jsstring) :=
  match ci_prefix (str "src") t with
  | Some r => Some (firstn 3 t, r)
  | None =>
      match ci_prefix (str "href") t with
      | Some r => Some (firstn 4 t, r)
      | None => None
      end
  end.

(** The units up to the next quote, and the text from that quote on. *)
Fixpoint value_span (s : jsstring) : jsstring * jsstring :=
  match s with
  | [] => ([], [])
  | c :: s' =>
      if quote c then ([], s)
      else let (v, r) := value_span s' in (c :: v, r)
  end.

(** A reference whose value passes [ok], at the start of a text: the
    attribute name as written and the text after the closing quote. *)
Definition ref_at (ok : jsstring -> bool) (t : jsstring)
  : option (jsstring * jsstring) :=
  match attr_at t with
  | Some (a, e :: q :: s) =>
      if ascii_is e "=" && quote q then
        let (v, r) := value_span s in
        match r with
        | _ :: rest => if ok v then Some (a, rest) else None
        | [] => None
        end
      else None
  | _ => None
  end.

(** A text cut at its quotes: the units before the first quote, then each
    quote with the units that follow it up to the next quote. *)
Definition tokens : Type := list (ascii * jsstring).

Fixpoint split_quotes (s : jsstring) : jsstring * tokens :=
  match s with
  | [] => ([], [])
  | c :: s' =>
      let (w, l) := split_quotes s' in
      if quote c then ([], (c, w) :: l) else (c :: w, l)
  end.

Fixpoint flat (l : tokens) : jsstring :=
  match l with
  | [] => []
  | (q, w) :: l' => q :: w ++ flat l'
  end.

Definition quote_free (w : jsstring) : bool := forallb not_quote w.

Definition well_cut (l : tokens) : bool :=
  forallb (fun qw => quote (fst qw) && quote_free (snd qw)) l.

(** One replacement pass over the tokens, for the references whose value
    passes [ok]: [prev] is the text since the last quote (or since the last
    replaced reference).  A reference is a text ending in an attribute name
    and the equals sign, a quote, a value and a closing quote; it becomes
    the same attribute with the data URL in double quotes, and the search
    goes on after its closing quote. *)
Fixpoint rewrite_tokens (ok : jsstring -> bool) (dataUrl : jsstring)
    (prev : jsstring) (l : tokens) : tokens :=
  match l with
  | [] => []
  | (q, w) :: tl =>
      match tl with
      | [] => [(q, w)]
      | (q', w') :: l' =>
          if ends_attr prev && ok w
          then (dq, dataUrl) :: (dq, w') :: rewrite_tokens ok dataUrl w' l'
          else (q, w) :: rewrite_tokens ok dataUrl w tl
      end
  end.

(** Both passes of every asset, in the order of the map. *)
Definition rewrite_all (assets : assets_map) (w0 : jsstring) (l : tokens)
  : tokens :=
  fold_left
    (fun l a =>
       rewrite_tokens (bare_value (fst a)) (snd a) w0
         (rewrite_tokens (path_value (fst a)) (snd a) w0 l))
    assets l.

Definition dollar_free (s : jsstring) : bool :=
  forallb (fun c => negb (ascii_is c "$")) s.

(** What the statements below ask of an asset map: no base name holds a
    quote, and no data URL holds a quote or a dollar sign. *)
Definition plain_asset (a : jsstring * jsstring) : bool :=
  quote_free (fst a) && quote_free (snd a) && dollar_free (snd a).

Definition plain_assets (assets : assets_map) : bool :=
  forallb plain_asset assets.

(** The tokens are settled for the references that pass [ok]: each of them
    already holds the data URL in double quotes. *)
Fixpoint settled (ok : jsstring -> bool) (dataUrl : jsstring)
    (prev : jsstring) (l : tokens) : Prop :=
  match l with
  | [] => True
  | (q, w) :: tl =>
      match tl with
      | [] => True
      | (q', _) :: _ =>
          (ends_attr prev && ok w = true -> q = dq /\ w = dataUrl /\ q' = dq) /\
          settled ok dataUrl w tl
      end
  end.

(** An inserted data URL cannot be taken for the start or the value of
    another reference: no data URL ends in an attribute name and the equals
    sign, and a data URL that names an asset of the map is the data URL of
    that asset. *)
Definition closed_assets (assets : assets_map) : Prop :=
  (forall a, In a assets -> ends_attr (snd a) = false) /\
  (forall a b, In a assets -> In b assets ->
     path_value (fst b) (snd a) = true -> snd a = snd b).

(** The word before the end of a cut text. *)
Fixpoint last_word (u : jsstring) (l : tokens) : jsstring :=
  match l with
  | [] => u
  | (_, w) :: l' => last_word w l'
  end.

(** The last unit is an equals sign. *)
Fixpoint last_is_equals (w : jsstring) : bool :=
  match w with
  | [] => false
  | c :: w' =>
      match w' with
      | [] => ascii_is c "="
      | _ :: _ => last_is_equals w'
      end
  end.

(** What a pass does to one quoted value [v] between the quotes [q] and
    [q']: it is replaced when the text before it ends in an attribute name
    and the equals sign ([hot]) and the value passes the test. *)
Definition quoted : Type := (ascii * jsstring * ascii)%type.

Definition value_pass (ok : jsstring -> bool) (dataUrl : jsstring) (hot : bool)
    (m : quoted) : quoted :=
  if hot && ok (snd (fst m)) then (dq, dataUrl, dq) else m.

Definition value_all (assets : assets_map) (hot : bool) (m : quoted) : quoted :=
  fold_left
    (fun m a =>
       value_pass (bare_value (fst a)) (snd a) hot
         (value_pass (path_value (fst a)) (snd a) hot m))
    assets m.

Definition no_trailing_equals (assets : assets_map) : bool :=
  forallb (fun a => negb (last_is_equals (fst a))) assets.

(** A text without quotes and dollar signs. *)
Definition plain_text (s : jsstring) : bool := quote_free s && dollar_free s.

(** The entries of an archive whose names hold no quote and whose blobs
    declare a type without quotes and dollar signs. *)
Definition plain_entry (e : jsstring * ZipObject) : bool :=
  quote_free (fst e) &&
  match blob (snd e) with
  | Some b => plain_text (blob_type b)
  | None => true
  end.

(** Escaping puts a backslash before each syntax character. *)
Fixpoint escape (s : jsstring) : jsstring :=
  match s with
  | [] => []
  | c :: s' => if is_syntax c then "\"%char :: c :: escape s' else c :: escape s'
  end.

(** *** Sample inputs *)

(** Sample archive: a document that refers to two images, the first of
    which cannot be read. *)
Definition unreadable_asset_zip : File :=
  mkFile (str "banner.zip")
    (Some [ (str "index.html",
             mkZipObject false (Some (str "<img src='a.png'><img src='b.png'>"))
                         (Some (mkBlob [] [])));
            (str "a.png", mkZipObject false None None);
            (str "b.png",
             mkZipObject false (Some (str "Man"))
                         (Some (mkBlob [] [Byte.x4d; Byte.x61; Byte.x6e]))) ]).

(** Sample archive: the bytes of [y] end, in base64, with a slash and the
    name of the other asset. *)
Definition chained_zip : list (jsstring * ZipObject) :=
  [ (str "index.html",
     mkZipObject false (Some (str "<img src='y'>")) (Some (mkBlob [] [])));
    (str "x",
     mkZipObject false None (Some (mkBlob [] [Byte.x00; Byte.x00; Byte.x00])));
    (str "y",
     mkZipObject false None (Some (mkBlob [] [Byte.x00; Byte.x0f; Byte.xf1]))) ].

Definition chained_assets : assets_map :=
  [ (str "x", str "data:application/octet-stream;base64,AAAA");
    (str "y", str "data:application/octet-stream;base64,AA/x") ].

Definition logo_data : jsstring := str "data:image/png;base64,iVBORw0KGgo=".

Definition logo_assets : assets_map := [ (str "logo(1).png", logo_data) ].

(** Sample asset map: two files whose names differ in case only. *)
Definition twin_assets : assets_map :=
  [ (str "Logo.png", str "data:image/png;base64,AAAA");
    (str "logo.png", str "data:image/png;base64,BBBB") ].

Definition empty_state : state := mkState [] None [].

Definition two_documents : list (jsstring * ZipObject) :=
  [ (str "assets/", mkZipObject true None None);
    (str "index.html",
     mkZipObject false (Some (str "<a href='other.html'>"))
                 (Some (mkBlob [] [])));
    (str "sub/other.html",
     mkZipObject false (Some (str "Man"))
                 (Some (mkBlob (str "text/html") [Byte.x4d; Byte.x61; Byte.x6e]))) ].

End Zip.

(** ** Further vocabulary *)

Module Terms.
Import Detect Zip.

(** *** Of numbers *)

(** [Number.isSafeInteger]: an integer that a double holds exactly, and
    which a template literal prints in decimal digits. *)
Definition safe_integer (n : N) : Prop := (n <= 9007199254740991)%N.

(** *** Of the detection *)


(** [s] is empty or starts with a unit outside [p]. *)
Definition stops (p : ascii -> bool) (s : jsstring) : bool :=
  match s with
  | [] => true
  | c :: _ => negb (p c)
  end.

(** What [replace(/[_-]/g, ' ')] does to one unit. *)
Definition sep_to_space (c : ascii) : ascii :=
  if cset ["_"%char; "-"%char] c then " "%char else c.

(** *** Of the extraction *)

(** An entry the loop passes over: a directory, or a hidden file that
    cannot be the document. *)
Definition ignorable (e : jsstring * ZipObject) : bool :=
  dir (snd e) ||
  (negb (endsWith (fst e) (str ".html")) && skipped (basename (fst e))).

(** The base names under which the loop stores data URLs, in the order in
    which the loop visits the entries, that of
    [Object.entries(contents.files)]; [found] tells whether the document
    has been chosen. *)
Fixpoint stored_names (found : bool) (entries : list (jsstring * ZipObject))
  : list jsstring :=
  match entries with
  | [] => []
  | (filename, zipEntry) :: rest =>
      if dir zipEntry then stored_names found rest
      else if endsWith filename (str ".html") && negb found
      then stored_names true rest
      else if skipped (basename filename) then stored_names found rest
      else basename filename :: stored_names found rest
  end.

(** Both reads of the entry succeed. *)
Definition readable (e : jsstring * ZipObject) : Prop :=
  dir (snd e) = true \/ (text (snd e) <> None /\ blob (snd e) <> None).

(** A file entry whose name ends in the document extension. *)
Definition document (e : jsstring * ZipObject) : Prop :=
  dir (snd e) = false /\ endsWith (fst e) (str ".html") = true.

(** *** Of the rewriting *)

(** Token [b] is token [a], or [a] with its word replaced by one of [urls],
    or with its quote replaced by a double quote, or both. *)
Definition replaced_by (urls : list jsstring) (a b : ascii * jsstring) : Prop :=
  (fst b = fst a \/ fst b = dq) /\ (snd b = snd a \/ In (snd b) urls).

(** *** Samples *)

(** An image and a style sheet. *)
Definition sheet_assets : assets_map :=
  [ (str "logo.png", logo_data);
    (str "style.css", str "data:text/css;base64,Ym9keXt9") ].

(** An archive whose first file entry ending in the document extension is
    a hidden file of the archiver. *)
Definition hidden_document_zip : list (jsstring * ZipObject) :=
  [ (str "img/", mkZipObject true None None);
    (str "__MACOSX/._index.html",
     mkZipObject false (Some (str "Mac OS X")) (Some (mkBlob [] [])));
    (str "index.html",
     mkZipObject false (Some (str "<html><body>hi</body></html>"))
                 (Some (mkBlob (str "text/html") [Byte.x4d]))) ].

End Terms.

(** ** The other handlers of the component *)

Module App.
Import Zip.

(** [Map.prototype.delete] *)
Definition map_delete {V : Type} (k : jsstring) (m : jsmap V) : jsmap V :=
  filter (fun kv => negb (str_eqb (fst kv) k)) m.

(** A string or [null] used as a condition. *)
Definition truthy (s : option jsstring) : bool := negb (unset s).

(** [processZipFile] as a closure: [seen] is the value of [selectedFormat]
    in the render that created the function.  The updater of
    [setFormatContents] reads the current collection; the test
    [if (!selectedFormat)] reads [seen]. *)
Definition processZipFileWith (seen : option jsstring) (now : N) (file : File)
    (st : state) : state :=
  if negb (endsWith (file_name file) (str ".zip"))
  then notify (toast_error (str "Please upload a ZIP file")) st
  else
    match ingest now (contents file) with
    | Thrown => notify (toast_error (str "Failed to process ZIP file")) st
    | NoHtml => notify (toast_error (str "No HTML file found in the ZIP")) st
    | Loaded formatKey content =>
        mkState
          (map_set formatKey content (formatContents st))
          (if unset seen then Some formatKey else selectedFormat st)
          (toasts st ++
           [toast_success (fc_name content ++ str " loaded with " ++
                           numberToString (N.of_nat (length (fc_assets content))) ++
                           str " assets!")])
    end.

(** The loop of [handleZipUpload] and of [handleDrop]: every file goes
    through the same closure; each file comes with the time of its
    [Date.now()]. *)
Definition processFiles (seen : option jsstring) (files : list (N * File))
    (st : state) : state :=
  fold_left (fun st nf => processZipFileWith seen (fst nf) (snd nf) st) files st.

(** [handleZipUpload]; [None] is [event.target.files] being [null]. *)
Definition handleZipUpload (files : option (list (N * File))) (st : state) : state :=
  match files with
  | None => st
  | Some fs => processFiles (selectedFormat st) fs st
  end.

(** [handleDrop] *)
Definition handleDrop (files : list (N * File)) (st : state) : state :=
  processFiles (selectedFormat st) files st.

(** [selectedFormat === formatKey] *)
Definition selected_is (sel : option jsstring) (formatKey : jsstring) : bool :=
  match sel with
  | Some k => str_eqb k formatKey
  | None => false
  end.

(** [removeFormat].  A click runs the handler of the latest render, so the
    [formatContents] and [selectedFormat] it reads are those of the current
    state. *)
Definition removeFormat (formatKey : jsstring) (st : state) : state :=
  mkState
    (map_delete formatKey (formatContents st))
    (if selected_is (selectedFormat st) formatKey then
       match filter (fun k => negb (str_eqb k formatKey))
                    (map_keys (formatContents st)) with
       | k :: _ => Some k
       | [] => None
       end
     else selectedFormat st)
    (toasts st ++ [toast_success (str "Format removed")]).

(** [clearAll] *)
Definition clearAll (st : state) : state :=
  mkState [] None (toasts st ++ [toast_success (str "All formats cleared")]).

(** The click on a row of the list: [setSelectedFormat(formatKey)]. *)
Definition selectFormat (formatKey : jsstring) (st : state) : state :=
  mkState (formatContents st) (Some formatKey) (toasts st).

(** The bundle that [handleShare] and [handleDownload] take: the selected
    one, or the first of the collection when nothing is selected. *)
Definition current (st : state) : option FormatContent :=
  if truthy (selectedFormat st) then
    match selectedFormat st with
    | Some k => map_get k (formatContents st)
    | None => None
    end
  else
    match formatContents st with
    | (_, c) :: _ => Some c
    | [] => None
    end.

(** [handleShare]: the text put behind the copied URL, if any, and the new
    state.  [copied] tells whether [navigator.clipboard.writeText]
    succeeds. *)
Definition handleShare (copied : bool) (st : state) : option jsstring * state :=
  match formatContents st with
  | [] => (None, notify (toast_error (str "No content to share")) st)
  | _ :: _ =>
      match option_map fc_html (current st) with
      | Some (c :: content) =>
          (Some (c :: content),
           if copied
           then notify (toast_success (str "Preview URL copied to clipboard!")) st
           else notify (toast_error (str "Failed to copy URL")) st)
      | _ => (None, st)
      end
  end.

(** [handleDownload]: the name and the text of the downloaded file, if any,
    and the new state. *)
Definition handleDownload (st : state) : option (jsstring * jsstring) * state :=
  match formatContents st with
  | [] => (None, notify (toast_error (str "No content to download")) st)
  | _ :: _ =>
      match current st with
      | Some format =>
          (Some (fc_name format ++ str ".html", fc_html format),
           notify (toast_success (str "HTML file downloaded!")) st)
      | None => (None, st)
      end
  end.

(** *** The header of the preview *)

(** [/\s*\(\d+×\d+\)/] *)
Definition re_nameDims : regex :=
  seqs [Detect.spaces; lit_s "("; Detect.digits; Chr (cset [times_sign]);
        Detect.digits; lit_s ")"].

(** [name.replace(/\s*\(\d+×\d+\)/, '')]: the name in the line above the
    preview. *)
Definition headerName (name : jsstring) : jsstring :=
  replace_first re_nameDims [] name.

(** *** Vocabulary of the statements *)

(** The part of [re_nameDims] after the white space. *)
Definition re_parens : regex :=
  seqs [lit_s "("; Detect.digits; Chr (cset [times_sign]); Detect.digits;
        lit_s ")"].

(** The bundle a file brings, with its key, when the file loads. *)
Definition loaded (nf : N * File) : option (jsstring * FormatContent) :=
  if negb (endsWith (file_name (snd nf)) (str ".zip")) then None
  else
    match ingest (fst nf) (contents (snd nf)) with
    | Loaded formatKey content => Some (formatKey, content)
    | _ => None
    end.

(** The bundles of the files of a batch that load, in order. *)
Definition loaded_bundles (files : list (N * File))
  : list (jsstring * FormatContent) :=
  flat_map (fun nf => match loaded nf with Some kc => [kc] | None => [] end) files.

(** [Map.prototype.set], one entry after the other. *)
Definition set_all (l : list (jsstring * FormatContent))
    (m : jsmap FormatContent) : jsmap FormatContent :=
  fold_left (fun m kc => map_set (fst kc) (snd kc) m) l m.

(** The selection, when set, is a key of the collection. *)
Definition selection_valid (st : state) : Prop :=
  match selectedFormat st with
  | Some k => In k (map_keys (formatContents st))
  | None => True
  end.

(** A bundle as [detectDimensions] makes them: positive dimensions and a
    name that is not empty. *)
Definition bundle_ok (c : FormatContent) : Prop :=
  (0 < fc_width c)%N /\ (0 < fc_height c)%N /\ fc_name c <> [].

(** What holds of every state of the component. *)
Definition state_ok (st : state) : Prop :=
  selection_valid st /\
  Forall (fun kv => bundle_ok (snd kv)) (formatContents st) /\
  NoDup (map_keys (formatContents st)).

(** The states the component can be in: the handlers that write the state,
    from the initial state.  [seen] is the selection of whichever render
    made the closure; it is left free. *)
Inductive reachable : state -> Prop :=
| reach_init : reachable (mkState [] None [])
| reach_files seen files st :
    reachable st -> reachable (processFiles seen files st)
| reach_remove formatKey st :
    reachable st -> reachable (removeFormat formatKey st)
| reach_clear st :
    reachable st -> reachable (clearAll st)
| reach_select formatKey st :
    reachable st -> In formatKey (map_keys (formatContents st)) ->
    reachable (selectFormat formatKey st)
| reach_share copied st :
    reachable st -> reachable (snd (handleShare copied st))
| reach_download st :
    reachable st -> reachable (snd (handleDownload st)).

(** *** Samples *)

Definition links_zip : N * File :=
  (1%N, mkFile (str "links.zip") (Some two_documents)).

Definition chain_zip : N * File :=
  (2%N, mkFile (str "chain.zip") (Some chained_zip)).

End App.

(** * Properties *)

(** ** The dimension cascade *)

Module DetectFacts.
Import Detect.

Lemma tier_meta_declares re html w h d :
  declares re html w h -> tier_meta re html d = (w, h).
Proof.
  intros (m & wm & hm & Hm & Hw & Hh & <- & <-).
  unfold tier_meta. now rewrite Hm, Hw, Hh.
Qed.

Lemma tier_meta_absent re html d :
  js_match re html = None -> tier_meta re html d = d.
Proof. intros H. unfold tier_meta. now rewrite H. Qed.

Lemma guarded_incomplete f d : incomplete d = true -> guarded f d = f d.
Proof. intros H. unfold guarded. now rewrite H. Qed.

Lemma guarded_complete f d : incomplete d = false -> guarded f d = d.
Proof. intros H. unfold guarded. now rewrite H. Qed.

Lemma incomplete_false w h :
  w <> 0%N -> h <> 0%N -> incomplete (w, h) = false.
Proof.
  intros Hw Hh. unfold incomplete. simpl.
  apply N.eqb_neq in Hw. apply N.eqb_neq in Hh. now rewrite Hw, Hh.
Qed.

(** Guarded detectors leave a complete pair alone. *)
Lemma run_guarded_complete fs d :
  incomplete d = false -> run_tiers (map guarded fs) d = d.
Proof.
  intros Hd. unfold run_tiers. induction fs as [|f fs IH]; simpl.
  - reflexivity.
  - now rewrite (guarded_complete f d Hd).
Qed.

Lemma run_tiers_app l1 l2 d :
  run_tiers (l1 ++ l2) d = run_tiers l2 (run_tiers l1 d).
Proof. unfold run_tiers. apply fold_left_app. Qed.

Lemma run_tiers_cons f l d : run_tiers (f :: l) d = run_tiers l (f d).
Proof. reflexivity. Qed.

(** The ad-size tag decides when it declares both dimensions. *)
Lemma adSize_wins html filename w h :
  w <> 0%N -> h <> 0%N -> declares re_adSize html w h ->
  detectSize html filename = (w, h).
Proof.
  intros Hw Hh Hdecl. unfold detectSize, tier_adSize.
  rewrite (tier_meta_declares _ _ _ _ (0, 0)%N Hdecl).
  apply run_guarded_complete, incomplete_false; assumption.
Qed.

(** Without an ad-size tag, the viewport tag decides. *)
Lemma viewport_wins html filename w h :
  w <> 0%N -> h <> 0%N ->
  js_match re_adSize html = None -> declares re_viewport html w h ->
  detectSize html filename = (w, h).
Proof.
  intros Hw Hh Hno Hdecl. unfold detectSize, tier_adSize.
  rewrite (tier_meta_absent _ _ _ Hno).
  unfold lower_tiers, detectors. rewrite map_cons, run_tiers_cons.
  rewrite guarded_incomplete by reflexivity.
  unfold tier_viewport. rewrite (tier_meta_declares _ _ _ _ (0, 0)%N Hdecl).
  apply run_guarded_complete, incomplete_false; assumption.
Qed.

(** The fallback makes the result complete. *)
Lemma default_completes d : incomplete (guarded tier_default d) = false.
Proof.
  unfold guarded. destruct (incomplete d) eqn:E.
  - reflexivity.
  - exact E.
Qed.

Lemma detectSize_complete html filename :
  incomplete (detectSize html filename) = false.
Proof.
  unfold detectSize, lower_tiers, detectors.
  change (map guarded
            [tier_viewport html; tier_body html; tier_html html;
             tier_styleTag html; tier_div html; tier_comment html;
             tier_dataFormat html; tier_filename filename; tier_default])
    with (map guarded
            [tier_viewport html; tier_body html; tier_html html;
             tier_styleTag html; tier_div html; tier_comment html;
             tier_dataFormat html; tier_filename filename]
          ++ [guarded tier_default]).
  rewrite run_tiers_app. apply default_completes.
Qed.


Lemma tier_inline_oblivious re html : oblivious (tier_inline re html).
Proof.
  unfold oblivious, tier_inline. destruct (style_pair re html) as [wh|].
  - right. now exists wh.
  - now left.
Qed.

Lemma tier_comment_oblivious html : oblivious (tier_comment html).
Proof.
  unfold oblivious, tier_comment. destruct (js_match re_comment html) as [m|].
  - right. now eexists.
  - now left.
Qed.

Lemma tier_dataFormat_oblivious html : oblivious (tier_dataFormat html).
Proof.
  unfold oblivious, tier_dataFormat.
  destruct (js_match re_dataFormat html) as [m|]; [|now left].
  destruct (js_match re_format (grp 1 m)) as [f|]; [|now left].
  right. now eexists.
Qed.

Lemma tier_filename_oblivious filename : oblivious (tier_filename filename).
Proof.
  unfold oblivious, tier_filename.
  destruct (js_match re_fileDims filename) as [m|].
  - right. now eexists.
  - now left.
Qed.

Lemma tier_meta_oblivious re html : oblivious (tier_meta re html).
Proof.
  unfold oblivious, tier_meta. destruct (js_match re html) as [m|]; [|now left].
  destruct (js_match re_width (grp 1 m)) as [wm|]; [|now left].
  destruct (js_match re_height (grp 1 m)) as [hm|]; [|now left].
  right. now eexists.
Qed.

Lemma tier_body_oblivious html : oblivious (tier_body html).
Proof.
  unfold oblivious, tier_body. destruct (style_pair re_bodyStyle html) as [wh|].
  - right. now exists wh.
  - destruct (js_match re_bodyStyle2 html) as [m|].
    + right. now eexists.
    + now left.
Qed.

Lemma tier_default_oblivious : oblivious tier_default.
Proof. right. now exists (800, 600)%N. Qed.

(** Through oblivious detectors that end with the fallback, the result does
    not depend on which incomplete pair comes in. *)
Lemma run_oblivious fs d d' :
  Forall oblivious fs ->
  incomplete d = true -> incomplete d' = true ->
  run_tiers (map guarded (fs ++ [tier_default])) d =
  run_tiers (map guarded (fs ++ [tier_default])) d'.
Proof.
  intros Hfs. revert d d'.
  induction Hfs as [|f fs Hf _ IH]; intros d d' Hd Hd'.
  - cbn [map app]. rewrite !run_tiers_cons.
    now rewrite !guarded_incomplete by assumption.
  - cbn [map app]. rewrite !run_tiers_cons.
    rewrite !guarded_incomplete by assumption.
    destruct Hf as [Hid | [c Hc]].
    + rewrite !Hid. now apply IH.
    + now rewrite (Hc d), (Hc d').
Qed.

Lemma after_style_discards html filename d d' :
  incomplete d = true -> incomplete d' = true ->
  run_tiers (map guarded (after_style html filename)) d =
  run_tiers (map guarded (after_style html filename)) d'.
Proof.
  intros Hd Hd'.
  change (after_style html filename)
    with ([tier_div html; tier_comment html; tier_dataFormat html;
           tier_filename filename] ++ [tier_default]).
  apply run_oblivious; try assumption.
  repeat apply Forall_cons; try apply Forall_nil.
  - exact (tier_inline_oblivious re_divStyle html).
  - apply tier_comment_oblivious.
  - apply tier_dataFormat_oblivious.
  - apply tier_filename_oblivious.
Qed.

(** A test that computes whether a tag declares given dimensions. *)
Lemma declares_by_computation re html w h :
  match js_match re html with
  | Some m =>
      match js_match re_width (grp 1 m), js_match re_height (grp 1 m) with
      | Some wm, Some hm =>
          N.eqb (parseInt (grp 1 wm)) w && N.eqb (parseInt (grp 1 hm)) h
      | _, _ => false
      end
  | None => false
  end = true ->
  declares re html w h.
Proof.
  unfold declares. destruct (js_match re html) as [m|]; [|discriminate].
  destruct (js_match re_width (grp 1 m)) as [wm|] eqn:Ew; [|discriminate].
  destruct (js_match re_height (grp 1 m)) as [hm|] eqn:Eh; [|discriminate].
  intros H. apply andb_prop in H. destruct H as [Hw Hh].
  apply N.eqb_eq in Hw. apply N.eqb_eq in Hh.
  exists m, wm, hm. repeat split; assumption || reflexivity.
Qed.

(** C3. A document whose viewport tag declares 320 by 480 and that has no
    ad-size tag is given width 320 and height 480; a document whose ad-size
    tag declares 300 by 250 is given width 300 and height 250, also when its
    viewport tag declares 320 by 480. *)
Theorem C3_cascade_priority (html filename : jsstring) :
  (js_match re_adSize html = None ->
   declares re_viewport html 320 480 ->
   width (detectDimensions html filename) = 320%N /\
   height (detectDimensions html filename) = 480%N) /\
  (declares re_adSize html 300 250 ->
   declares re_viewport html 320 480 ->
   width (detectDimensions html filename) = 300%N /\
   height (detectDimensions html filename) = 250%N).
Proof.
  split.
  - intros Hno Hv. unfold detectDimensions. cbn [width height].
    rewrite (viewport_wins html filename 320 480); auto; discriminate.
  - intros Ha _. unfold detectDimensions. cbn [width height].
    rewrite (adSize_wins html filename 300 250); auto; discriminate.
Qed.

Lemma C3_cascade_priority_witness :
  (width (detectDimensions viewport_only_doc (str "index.html")) = 320%N /\
   height (detectDimensions viewport_only_doc (str "index.html")) = 480%N) /\
  (width (detectDimensions adSize_and_viewport_doc (str "index.html")) = 300%N /\
   height (detectDimensions adSize_and_viewport_doc (str "index.html")) = 250%N).
Proof.
  split.
  - apply (proj1 (C3_cascade_priority viewport_only_doc (str "index.html"))).
    + vm_compute. reflexivity.
    + apply declares_by_computation. vm_compute. reflexivity.
  - apply (proj2 (C3_cascade_priority adSize_and_viewport_doc (str "index.html"))).
    + apply declares_by_computation. vm_compute. reflexivity.
    + apply declares_by_computation. vm_compute. reflexivity.
Defined.


(** C4, counterexample.  In [partial_then_div_doc] the style-block tier
    leaves the partial pair width 300, height unset; the container tier
    then assigns both numbers, and the result is 728 by 90: the width 300
    is overwritten, not completed. *)
Lemma C4_partial_overwritten :
  after_styleTag partial_then_div_doc (str "index.html") = (300, 0)%N /\
  width (detectDimensions partial_then_div_doc (str "index.html")) = 728%N /\
  height (detectDimensions partial_then_div_doc (str "index.html")) = 90%N.
Proof. vm_compute. repeat split; reflexivity. Qed.

(** C4, as amended.  (1) An incomplete pair does not stop the cascade: the
    guard lets the next detector run.  (2) A complete pair is left alone by
    every lower detector.  (3) Inside the style block, a width given by the
    body rule alone is completed by a height given by the html rule.
    (4) After the style block an incomplete pair is discarded: the result
    of the remaining detectors and of the fallback does not depend on it.
    (5) Every detector other than the style block either leaves the pair as
    it is or assigns both numbers without reading it. *)
Theorem C4_cascade_partial (html filename : jsstring) :
  (forall f d, incomplete d = true -> guarded f d = f d) /\
  (forall d l1 l2, incomplete d = false ->
     lower_tiers html filename = l1 ++ l2 -> run_tiers l2 d = d) /\
  (forall m bw hh,
     js_match re_styleTag html = Some m ->
     js_match (re_rule "body" "width:") (grp 1 m) = Some bw ->
     js_match (re_rule "body" "height:") (grp 1 m) = None ->
     js_match (re_rule "html" "width:") (grp 1 m) = None ->
     js_match (re_rule "html" "height:") (grp 1 m) = Some hh ->
     tier_styleTag html (0, 0)%N = (parseInt (grp 1 bw), parseInt (grp 1 hh))) /\
  (forall d d', incomplete d = true -> incomplete d' = true ->
     run_tiers (map guarded (after_style html filename)) d =
     run_tiers (map guarded (after_style html filename)) d') /\
  Forall oblivious
    [tier_adSize html; tier_viewport html; tier_body html; tier_html html;
     tier_div html; tier_comment html; tier_dataFormat html;
     tier_filename filename; tier_default].
Proof.
  repeat split.
  - intros f d Hd. now apply guarded_incomplete.
  - intros d l1 l2 Hd Hl. unfold lower_tiers in Hl.
    apply map_eq_app in Hl.
    destruct Hl as (fs1 & fs2 & _ & _ & <-).
    now apply run_guarded_complete.
  - intros m bw hh Hm Hbw Hbh Hhw Hhh.
    unfold tier_styleTag. rewrite Hm.
    unfold rule_dims at 2. rewrite Hbw, Hbh. cbn [assign_if fst snd].
    rewrite guarded_incomplete.
    + unfold rule_dims. rewrite Hhw, Hhh. reflexivity.
    + unfold incomplete. cbn [fst snd]. rewrite N.eqb_refl. apply orb_true_r.
  - intros d d'. apply after_style_discards.
  - repeat apply Forall_cons; try apply Forall_nil.
    + apply tier_meta_oblivious.
    + apply tier_meta_oblivious.
    + apply tier_body_oblivious.
    + exact (tier_inline_oblivious re_htmlStyle html).
    + exact (tier_inline_oblivious re_divStyle html).
    + apply tier_comment_oblivious.
    + apply tier_dataFormat_oblivious.
    + apply tier_filename_oblivious.
    + apply tier_default_oblivious.
Qed.

Lemma C4_cascade_partial_witness :
  guarded (tier_div partial_then_div_doc) (300, 0)%N =
    tier_div partial_then_div_doc (300, 0)%N /\
  run_tiers (map guarded (after_style plain_doc (str "index.html"))) (300, 250)%N
    = (300, 250)%N /\
  tier_styleTag split_rules_doc (0, 0)%N = (300, 250)%N /\
  run_tiers (map guarded (after_style partial_then_div_doc (str "index.html"))) (300, 0)%N =
  run_tiers (map guarded (after_style partial_then_div_doc (str "index.html"))) (0, 0)%N.
Proof.
  destruct (C4_cascade_partial partial_then_div_doc (str "index.html"))
    as (H1 & _ & _ & H4 & _).
  destruct (C4_cascade_partial plain_doc (str "index.html"))
    as (_ & H2 & _ & _ & _).
  split; [|split; [|split]].
  - apply H1. reflexivity.
  - apply (H2 (300, 250)%N
              (map guarded (firstn 4 (detectors plain_doc (str "index.html"))))).
    + reflexivity.
    + reflexivity.
  - destruct (js_match re_styleTag split_rules_doc) as [m|] eqn:Em;
      [|vm_compute in Em; discriminate].
    destruct (js_match (re_rule "body" "width:") (grp 1 m)) as [bw|] eqn:Ebw;
      [|vm_compute in Em; injection Em as <-; vm_compute in Ebw; discriminate].
    destruct (js_match (re_rule "html" "height:") (grp 1 m)) as [hh|] eqn:Ehh;
      [|vm_compute in Em; injection Em as <-; vm_compute in Ehh; discriminate].
    destruct (C4_cascade_partial split_rules_doc (str "index.html"))
      as (_ & _ & H3 & _ & _).
    rewrite (H3 m bw hh Em Ebw).
    + vm_compute in Em. injection Em as <-.
      vm_compute in Ebw. injection Ebw as <-.
      vm_compute in Ehh. injection Ehh as <-.
      vm_compute. reflexivity.
    + vm_compute in Em. injection Em as <-. vm_compute. reflexivity.
    + vm_compute in Em. injection Em as <-. vm_compute. reflexivity.
    + exact Ehh.
  - apply H4; reflexivity.
Defined.





(** The ad-size detector reads [width=] and [height=] only: with the
    shorthand [300x250] as content it yields nothing, and the viewport tag
    decides. *)
Lemma adSize_shorthand_not_read :
  tier_adSize adSize_shorthand_doc (0, 0)%N = (0, 0)%N /\
  detectSize adSize_shorthand_doc (str "index.html") = (320, 480)%N.
Proof. vm_compute. split; reflexivity. Qed.

End DetectFacts.

(** ** Archive extraction and ingestion *)

Module ZipFacts.
Import Zip.

(** *** The escaping step *)

Lemma exec_at_Chr p s :
  exec_at (Chr p) s =
  match s with
  | c :: s' => if p c then Some (s', []) else None
  | [] => None
  end.
Proof. destruct s; reflexivity. Qed.

Lemma escape_scan before s :
  replace_scan (Chr is_syntax) (str "\$&") before s 0 = escape s.
Proof.
  revert before. induction s as [|c s IH]; intros before.
  - reflexivity.
  - cbn [replace_scan]. rewrite exec_at_Chr.
    destruct (is_syntax c) eqn:E; cbn [escape]; rewrite E.
    + replace (length (c :: s) - length s) with 1 by (cbn [length]; lia).
      cbn [firstn]. rewrite IH. reflexivity.
    + rewrite IH. reflexivity.
Qed.

Lemma escapedFilename_escape filename : escapedFilename filename = escape filename.
Proof. apply escape_scan. Qed.

Lemma backslash_is_syntax : is_syntax "\"%char = true.
Proof. reflexivity. Qed.

(** The pattern built from an escaped name denotes the name itself,
    whatever characters it holds. *)
Lemma pattern_chars_escape s : pattern_chars (escape s) = Some s.
Proof.
  induction s as [|c s IH].
  - reflexivity.
  - cbn [escape]. destruct (is_syntax c) eqn:E.
    + cbn [pattern_chars]. change (ascii_is "\" "\") with true. cbv iota.
      rewrite E, IH. reflexivity.
    + cbn [pattern_chars]. rewrite E.
      destruct (ascii_is c "\") eqn:Eb.
      * apply Ascii.eqb_eq in Eb. subst c. discriminate.
      * rewrite IH. reflexivity.
Qed.

Lemma patterns_escaped filename :
  patterns filename = Some [re_pathRef filename; re_bareRef filename].
Proof.
  unfold patterns. now rewrite escapedFilename_escape, pattern_chars_escape.
Qed.

(** The text after both replacements of one asset. *)
Lemma inlineAsset_eq html filename dataUrl :
  inlineAsset html (filename, dataUrl) =
  Some (replace_all (re_bareRef filename) (template dataUrl)
          (replace_all (re_pathRef filename) (template dataUrl) html)).
Proof. unfold inlineAsset. now rewrite patterns_escaped. Qed.

Lemma inlineReferences_total assets html :
  exists out, inlineReferences assets html = Some out.
Proof.
  revert html. induction assets as [|[f d] rest IH]; intros html.
  - now exists html.
  - cbn [inlineReferences]. rewrite inlineAsset_eq. apply IH.
Qed.


(** *** The extraction loop *)

Lemma extract_from_app x l1 l2 :
  extract_from x (l1 ++ l2) =
  match extract_from x l1 with
  | Some x' => extract_from x' l2
  | None => None
  end.
Proof.
  revert x. induction l1 as [|e l1 IH]; intros x.
  - reflexivity.
  - cbn [app extract_from]. destruct (entry_step x e) as [x'|].
    + apply IH.
    + reflexivity.
Qed.

Lemma asset_step_keeps_document x filename z x' :
  asset_step x filename z = Some x' ->
  htmlFile x' = htmlFile x /\ htmlContent x' = htmlContent x.
Proof.
  unfold asset_step. destruct (skipped (basename filename)).
  - intros [= <-]. auto.
  - destruct (blob z); [|discriminate]. intros [= <-]. auto.
Qed.

(** Once a document is chosen, a turn of the loop is the asset branch. *)
Lemma entry_step_after_document x filename z :
  unset (htmlFile x) = false -> dir z = false ->
  entry_step x (filename, z) = asset_step x filename z.
Proof.
  intros Hset Hdir. unfold entry_step. rewrite Hdir, Hset.
  now rewrite andb_false_r.
Qed.

Lemma extract_from_after_document x l :
  unset (htmlFile x) = false -> extract_from x l = collect_assets x l.
Proof.
  revert x. induction l as [|[filename z] l IH]; intros x Hset.
  - reflexivity.
  - cbn [extract_from collect_assets].
    destruct (dir z) eqn:Hdir.
    + unfold entry_step. rewrite Hdir. now apply IH.
    + rewrite (entry_step_after_document _ _ _ Hset Hdir).
      destruct (asset_step x filename z) as [x'|] eqn:Hstep; [|reflexivity].
      apply IH. apply asset_step_keeps_document in Hstep.
      destruct Hstep as [-> _]. exact Hset.
Qed.

Lemma extract_from_no_document x l :
  Forall not_document l -> extract_from x l = collect_assets x l.
Proof.
  intros Hl. revert x. induction Hl as [|[filename z] l He _ IH]; intros x.
  - reflexivity.
  - cbn [extract_from collect_assets]. unfold entry_step.
    destruct (dir z) eqn:Hdir.
    + apply IH.
    + destruct He as [He | He]; cbn [fst snd] in He; [congruence|].
      rewrite He. cbn [andb].
      destruct (asset_step x filename z); [apply IH | reflexivity].
Qed.

Lemma collect_assets_keeps_document l : forall x r,
  collect_assets x l = Some r ->
  htmlFile r = htmlFile x /\ htmlContent r = htmlContent x.
Proof.
  induction l as [|[filename z] l IH]; intros x r H.
  - injection H as <-. auto.
  - cbn [collect_assets] in H. destruct (dir z).
    + now apply IH.
    + destruct (asset_step x filename z) as [x'|] eqn:Hstep; [|discriminate].
      apply IH in H. apply asset_step_keeps_document in Hstep.
      destruct H as [-> ->]. exact Hstep.
Qed.

(** C8. When the first file entry that ends in the document extension
    follows entries that cannot be the document, it becomes the document,
    and every entry after it is taken as an asset whatever its extension:
    extraction is the asset loop over the entries before and after it, and
    the asset loop never changes the document.  A later entry ending in the
    document extension, when its base name is not skipped and its bytes can
    be read, is stored in the asset map under its base name. *)
Theorem C8_first_document_wins pre filename z t rest :
  Forall not_document pre ->
  dir z = false ->
  endsWith filename (str ".html") = true ->
  text z = Some t ->
  extract (pre ++ (filename, z) :: rest) =
    match collect_assets (mkExtraction None [] []) pre with
    | Some x0 => collect_assets (mkExtraction (Some filename) t (assets x0)) rest
    | None => None
    end /\
  (forall x l r, collect_assets x l = Some r ->
     htmlFile r = htmlFile x /\ htmlContent r = htmlContent x) /\
  (forall x filename2 z2 b,
     unset (htmlFile x) = false ->
     dir z2 = false ->
     endsWith filename2 (str ".html") = true ->
     skipped (basename filename2) = false ->
     blob z2 = Some b ->
     entry_step x (filename2, z2) =
       Some (mkExtraction (htmlFile x) (htmlContent x)
               (map_set (basename filename2)
                        (readAsDataURL (finalBlob (basename filename2) b))
                        (assets x)))).
Proof.
  intros Hpre Hdir Hext Htext. split; [|split].
  - unfold extract. rewrite extract_from_app.
    rewrite (extract_from_no_document _ _ Hpre).
    destruct (collect_assets (mkExtraction None [] []) pre) as [x0|] eqn:H0;
      [|reflexivity].
    cbn [extract_from]. unfold entry_step. rewrite Hdir, Hext.
    apply collect_assets_keeps_document in H0. destruct H0 as [H0 _].
    rewrite H0. cbn [htmlFile unset andb]. rewrite Htext.
    apply extract_from_after_document.
    cbn [htmlFile unset]. destruct filename; [discriminate | reflexivity].
  - intros x l r. apply collect_assets_keeps_document.
  - intros x filename2 z2 b Hset Hdir2 _ Hskip Hblob.
    rewrite (entry_step_after_document _ _ _ Hset Hdir2).
    unfold asset_step. now rewrite Hskip, Hblob.
Qed.

Lemma C8_first_document_wins_witness :
  extract two_documents =
    Some (mkExtraction (Some (str "index.html")) (str "<a href='other.html'>")
            [(str "other.html", str "data:text/html;base64,TWFu")]).
Proof.
  destruct (C8_first_document_wins
              [(str "assets/", mkZipObject true None None)]
              (str "index.html")
              (mkZipObject false (Some (str "<a href='other.html'>"))
                           (Some (mkBlob [] [])))
              (str "<a href='other.html'>")
              [(str "sub/other.html",
                mkZipObject false (Some (str "Man"))
                  (Some (mkBlob (str "text/html") [Byte.x4d; Byte.x61; Byte.x6e])))])
    as (H & _ & _).
  - apply Forall_cons; [left; reflexivity | apply Forall_nil].
  - reflexivity.
  - reflexivity.
  - reflexivity.
  - unfold two_documents. cbn [app] in H. rewrite H. vm_compute. reflexivity.
Defined.


(** *** Ingestion *)

Lemma no_document_extract es x :
  Forall not_document es -> extract es = Some x -> htmlFile x = None.
Proof.
  intros Hes Hx. unfold extract in Hx.
  rewrite (extract_from_no_document _ _ Hes) in Hx.
  apply collect_assets_keeps_document in Hx. now destruct Hx as [-> _].
Qed.

(** An asset entry whose bytes cannot be read ends the extraction with an
    exception. *)
Lemma unreadable_asset_throws pre filename z rest x :
  extract pre = Some x ->
  dir z = false ->
  endsWith filename (str ".html") && unset (htmlFile x) = false ->
  skipped (basename filename) = false ->
  blob z = None ->
  extract (pre ++ (filename, z) :: rest) = None.
Proof.
  intros Hpre Hdir Hdoc Hskip Hblob. unfold extract in *.
  rewrite extract_from_app, Hpre. cbn [extract_from].
  unfold entry_step. rewrite Hdir, Hdoc.
  unfold asset_step. now rewrite Hskip, Hblob.
Qed.

(** C5, counterexample.  In [unreadable_asset_zip] the bytes of [a.png]
    cannot be read.  No bundle is produced: the collection stays empty and
    the only effect is the notice of failure. *)
Lemma C5_unreadable_asset_aborts :
  processZipFile 0 unreadable_asset_zip empty_state =
    mkState [] None [toast_error (str "Failed to process ZIP file")].
Proof. vm_compute. reflexivity. Qed.

(** C5, as amended.  When the bytes of an asset entry that the loop reaches
    cannot be read, the exception leaves the loop: ingestion of the whole
    archive ends with the notice of failure, and the state is otherwise
    unchanged, whatever entries follow. *)
Theorem C5_asset_failure_aborts now name pre filename z rest x st :
  endsWith name (str ".zip") = true ->
  extract pre = Some x ->
  dir z = false ->
  endsWith filename (str ".html") && unset (htmlFile x) = false ->
  skipped (basename filename) = false ->
  blob z = None ->
  processZipFile now (mkFile name (Some (pre ++ (filename, z) :: rest))) st =
    notify (toast_error (str "Failed to process ZIP file")) st.
Proof.
  intros Hzip Hpre Hdir Hdoc Hskip Hblob.
  unfold processZipFile. cbn [file_name contents]. rewrite Hzip. cbn [negb].
  unfold ingest.
  now rewrite (unreadable_asset_throws pre filename z rest x Hpre Hdir Hdoc Hskip Hblob).
Qed.

Lemma C5_asset_failure_aborts_witness :
  processZipFile 0 unreadable_asset_zip empty_state =
    notify (toast_error (str "Failed to process ZIP file")) empty_state.
Proof.
  apply (C5_asset_failure_aborts 0 (str "banner.zip")
           [(str "index.html",
             mkZipObject false (Some (str "<img src='a.png'><img src='b.png'>"))
                         (Some (mkBlob [] [])))]
           (str "a.png") (mkZipObject false None None)
           [(str "b.png",
             mkZipObject false (Some (str "Man"))
                         (Some (mkBlob [] [Byte.x4d; Byte.x61; Byte.x6e])))]
           (mkExtraction (Some (str "index.html"))
                         (str "<img src='a.png'><img src='b.png'>") [])
           empty_state); reflexivity.
Defined.

(** C9.  When the file name does not end in the archive extension, or the
    archive cannot be opened, or reading an entry throws, or no entry can be
    the document, the state keeps its collection and its selection and one
    error notice is added.  Conversely, when the collection or the selection
    changes, the archive was opened, extraction found a document, the
    references were rewritten, and the bundle that is inserted holds the
    rewritten text with the inferred dimensions and name. *)
Theorem C9_ingestion_atomic now file st :
  ((endsWith (file_name file) (str ".zip") = false \/
    contents file = None \/
    (exists es, contents file = Some es /\
                (extract es = None \/ Forall not_document es))) ->
   formatContents (processZipFile now file st) = formatContents st /\
   selectedFormat (processZipFile now file st) = selectedFormat st /\
   exists msg, toasts (processZipFile now file st) = toasts st ++ [toast_error msg]) /\
  ((formatContents (processZipFile now file st) <> formatContents st \/
    selectedFormat (processZipFile now file st) <> selectedFormat st) ->
   exists es x docname processedHtml,
     endsWith (file_name file) (str ".zip") = true /\
     contents file = Some es /\
     extract es = Some x /\
     htmlFile x = Some docname /\
     inlineReferences (assets x) (htmlContent x) = Some processedHtml /\
     let d := Detect.detectDimensions (htmlContent x) docname in
     formatContents (processZipFile now file st) =
       map_set (Detect.name d ++ str "_" ++ numberToString now)
               (mkFormatContent processedHtml (assets x)
                  (Detect.width d) (Detect.height d) (Detect.name d))
               (formatContents st)).
Proof.
  split.
  - intros H. unfold processZipFile.
    destruct (endsWith (file_name file) (str ".zip")) eqn:Hzip; cbn [negb].
    2:{ cbn [notify formatContents selectedFormat toasts]. eauto. }
    assert (Hing : ingest now (contents file) = Thrown \/
                   ingest now (contents file) = NoHtml).
    { destruct H as [H | [H | (es & Hes & H)]].
      - discriminate.
      - rewrite H. now left.
      - rewrite Hes. unfold ingest. destruct H as [H | H].
        + rewrite H. now left.
        + destruct (extract es) as [x|] eqn:Hx; [|now left].
          rewrite (no_document_extract es x H Hx). now right. }
    destruct Hing as [-> | ->];
      cbn [notify formatContents selectedFormat toasts]; eauto.
  - intros H. unfold processZipFile in *.
    destruct (endsWith (file_name file) (str ".zip")) eqn:Hzip; cbn [negb] in *.
    2:{ cbn [notify formatContents selectedFormat] in H. destruct H; congruence. }
    unfold ingest in *.
    destruct (contents file) as [es|] eqn:Hes.
    2:{ cbn [notify formatContents selectedFormat] in H. destruct H; congruence. }
    destruct (extract es) as [x|] eqn:Hx.
    2:{ cbn [notify formatContents selectedFormat] in H. destruct H; congruence. }
    destruct (htmlFile x) as [[|c f]|] eqn:Hdoc.
    1,3: cbn [notify formatContents selectedFormat] in H; destruct H; congruence.
    destruct (inlineReferences (assets x) (htmlContent x)) as [out|] eqn:Hout.
    2:{ cbn [notify formatContents selectedFormat] in H. destruct H; congruence. }
    exists es, x, (c :: f), out. cbn [formatContents]. auto 10.
Qed.

Lemma C9_ingestion_atomic_witness :
  formatContents (processZipFile 0 (mkFile (str "banner.rar") None) empty_state) = [] /\
  selectedFormat (processZipFile 0 (mkFile (str "banner.rar") None) empty_state) = None /\
  exists msg,
    toasts (processZipFile 0 (mkFile (str "banner.rar") None) empty_state) =
    [] ++ [toast_error msg].
Proof.
  apply (proj1 (C9_ingestion_atomic 0 (mkFile (str "banner.rar") None) empty_state)).
  left. reflexivity.
Defined.


(** *** Data URLs are plain *)

Lemma b64_plain n : plain_text [b64 n] = true.
Proof.
  unfold b64.
  destruct (nth_in_or_default (N.to_nat n) b64_alphabet "="%char) as [Hin | ->];
    [|reflexivity].
  set (c := nth (N.to_nat n) b64_alphabet "="%char) in *. clearbody c.
  unfold b64_alphabet in Hin.
  change (str "ABCDEFGHIJKLMNOPQRSTUVWXYZabcdefghijklmnopqrstuvwxyz0123456789+/")
    with ["A"; "B"; "C"; "D"; "E"; "F"; "G"; "H"; "I"; "J"; "K"; "L"; "M";
          "N"; "O"; "P"; "Q"; "R"; "S"; "T"; "U"; "V"; "W"; "X"; "Y"; "Z";
          "a"; "b"; "c"; "d"; "e"; "f"; "g"; "h"; "i"; "j"; "k"; "l"; "m";
          "n"; "o"; "p"; "q"; "r"; "s"; "t"; "u"; "v"; "w"; "x"; "y"; "z";
          "0"; "1"; "2"; "3"; "4"; "5"; "6"; "7"; "8"; "9"; "+"; "/"]%char in Hin.
  repeat (destruct Hin as [<- | Hin]; [reflexivity|]).
  destruct Hin.
Qed.

Lemma plain_text_app a b : plain_text (a ++ b) = plain_text a && plain_text b.
Proof.
  unfold plain_text, quote_free, dollar_free. rewrite !forallb_app.
  destruct (forallb not_quote a), (forallb not_quote b),
    (forallb (fun c => negb (ascii_is c "$")) a); reflexivity.
Qed.

Lemma plain_text_cons c s : plain_text (c :: s) = plain_text [c] && plain_text s.
Proof. apply (plain_text_app [c] s). Qed.

Lemma base64_plain bs : plain_text (base64 bs) = true.
Proof.
  remember (length bs) as n eqn:Hn. revert bs Hn.
  induction n as [n IH] using lt_wf_ind. intros bs Hn.
  destruct bs as [|a [|b [|c rest]]].
  - reflexivity.
  - cbn [base64]. rewrite plain_text_cons, b64_plain.
    rewrite plain_text_cons, b64_plain. reflexivity.
  - cbn [base64]. rewrite plain_text_cons, b64_plain.
    rewrite plain_text_cons, b64_plain.
    rewrite plain_text_cons, b64_plain. reflexivity.
  - cbn [base64 app]. rewrite plain_text_cons, b64_plain.
    rewrite plain_text_cons, b64_plain.
    rewrite plain_text_cons, b64_plain.
    rewrite plain_text_cons, b64_plain.
    apply (IH (length rest)); [cbn [length] in Hn; lia | reflexivity].
Qed.

Lemma readAsDataURL_plain b :
  plain_text (blob_type b) = true -> plain_text (readAsDataURL b) = true.
Proof.
  intros Ht. unfold readAsDataURL.
  rewrite !plain_text_app, base64_plain.
  destruct (blob_type b); [reflexivity|]. now rewrite Ht.
Qed.

Lemma lastSegment_quote_free s : forall acc,
  quote_free acc = true -> quote_free s = true ->
  quote_free (lastSegment acc s) = true.
Proof.
  induction s as [|c s IH]; intros acc Hacc Hs.
  - exact Hacc.
  - cbn [quote_free forallb] in Hs. apply andb_prop in Hs. destruct Hs as [Hc Hs].
    cbn [lastSegment]. destruct (ascii_is c "/").
    + now apply IH.
    + apply IH; [|exact Hs].
      unfold quote_free in *. rewrite forallb_app, Hacc. cbn [forallb].
      now rewrite Hc.
Qed.

Lemma basename_quote_free filename :
  quote_free filename = true -> quote_free (basename filename) = true.
Proof.
  intros H. unfold basename.
  pose proof (lastSegment_quote_free filename [] eq_refl H) as Hl.
  destruct (lastSegment [] filename); assumption.
Qed.

Lemma plain_assets_set k v (am : assets_map) :
  plain_asset (k, v) = true -> plain_assets am = true ->
  plain_assets (map_set k v am) = true.
Proof.
  intros Hkv. induction am as [|[k' v'] am IH]; intros Ham.
  - cbn [map_set plain_assets forallb]. now rewrite Hkv.
  - cbn [plain_assets forallb] in Ham. apply andb_prop in Ham.
    destruct Ham as [Hk' Ham].
    cbn [map_set]. destruct (str_eqb k' k); cbn [plain_assets forallb].
    + now rewrite Hkv, Ham.
    + rewrite Hk'. now apply IH.
Qed.

(** The asset map of an archive of plain entries meets what the statements
    on rewriting ask of base names and data URLs. *)
Lemma extract_from_plain entries : forall x r,
  forallb plain_entry entries = true ->
  plain_assets (assets x) = true ->
  extract_from x entries = Some r ->
  plain_assets (assets r) = true.
Proof.
  induction entries as [|[filename z] rest IH]; intros x r Hes Hx H.
  - injection H as <-. exact Hx.
  - cbn [forallb] in Hes. apply andb_prop in Hes. destruct Hes as [He Hes].
    cbn [extract_from] in H.
    destruct (entry_step x (filename, z)) as [x'|] eqn:Hstep; [|discriminate].
    apply (IH x' r Hes); [|exact H].
    unfold entry_step in Hstep. destruct (dir z).
    + injection Hstep as <-. exact Hx.
    + destruct (endsWith filename (str ".html") && unset (htmlFile x)).
      * destruct (text z); [|discriminate]. injection Hstep as <-. exact Hx.
      * unfold asset_step in Hstep. destruct (skipped (basename filename)).
        -- injection Hstep as <-. exact Hx.
        -- unfold plain_entry in He. cbn [fst snd] in He.
           apply andb_prop in He. destruct He as [Hname Hblob].
           destruct (blob z) as [b|]; [|discriminate].
           injection Hstep as <-. cbn [assets].
           apply plain_assets_set; [|exact Hx].
           unfold plain_asset. cbn [fst snd].
           rewrite (basename_quote_free _ Hname).
           assert (Hurl : plain_text (readAsDataURL (finalBlob (basename filename) b)) = true).
           { apply readAsDataURL_plain. unfold finalBlob.
             destruct (endsWith (toLowerCase (basename filename)) (str ".svg"));
               [reflexivity | exact Hblob]. }
           unfold plain_text in Hurl. apply andb_prop in Hurl.
           destruct Hurl as [-> ->]. reflexivity.
Qed.

(** A successful ingestion, for comparison: the archive [two_documents]
    under a name that ends in the archive extension. *)
Lemma ingestion_of_two_documents :
  formatContents
    (processZipFile 1700000000000 (mkFile (str "ad.zip") (Some two_documents))
       empty_state) =
  [ (str "index (800" ++ [times_sign] ++ str "600)_1700000000000",
     mkFormatContent
       (str "<a href=" ++ [dq] ++ str "data:text/html;base64,TWFu" ++ [dq] ++ str ">")
       [(str "other.html", str "data:text/html;base64,TWFu")]
       800 600 (str "index (800" ++ [times_sign] ++ str "600)")) ].
Proof. vm_compute. reflexivity. Qed.

End ZipFacts.

(** ** Reference rewriting *)

Module RewriteFacts.
Import Zip.

(** *** Classes and letters *)

Lemma quote_spec c : quote c = ascii_is c dq || ascii_is c sq.
Proof. destruct c as [[] [] [] [] [] [] [] []]; reflexivity. Qed.

Lemma quote_cases c : quote c = true -> c = dq \/ c = sq.
Proof.
  rewrite quote_spec. intros H. apply orb_prop in H.
  destruct H as [H | H]; apply Ascii.eqb_eq in H; auto.
Qed.

Lemma equals_sign_spec e : ci_eqb "=" e = ascii_is e "=".
Proof. destruct e as [[] [] [] [] [] [] [] []]; reflexivity. Qed.

Lemma ci_eqb_canon a b : ci_eqb a b = true -> Canonicalize a = Canonicalize b.
Proof. unfold ci_eqb. apply N.eqb_eq. Qed.

Lemma ci_eqb_refl a : ci_eqb a a = true.
Proof. unfold ci_eqb. apply N.eqb_refl. Qed.

(** Units that match up to case are both quotes or both not. *)
Lemma ci_eqb_quote a b : ci_eqb a b = true -> quote a = quote b.
Proof.
  intros H. apply ci_eqb_canon in H.
  unfold quote, cset_i, existsb, ci_eqb. now rewrite H.
Qed.

Lemma quote_not_slash q : quote q = true -> slash q = false.
Proof. intros H. destruct (quote_cases q H) as [-> | ->]; reflexivity. Qed.

Lemma not_quote_spec c : not_quote c = negb (quote c).
Proof. reflexivity. Qed.

(** *** The matcher on the parts of the patterns *)

Lemma rmatch_lit p : forall s caps k,
  rmatch (lit ci_eqb p) s caps k =
  match ci_prefix p s with
  | Some s' => k s' caps
  | None => None
  end.
Proof.
  induction p as [|a p IH]; intros s caps k.
  - reflexivity.
  - cbn [lit rmatch ci_prefix]. destruct s as [|b s]; [reflexivity|].
    destruct (ci_eqb a b); [apply IH | reflexivity].
Qed.

Lemma ngroups_lit p : ngroups (lit ci_eqb p) = 0.
Proof. induction p as [|a p IH]; [reflexivity|]. cbn [lit ngroups]. now rewrite IH. Qed.

Lemma ci_prefix_app p : forall s r,
  ci_prefix p s = Some r -> s = firstn (length p) s ++ r.
Proof.
  induction p as [|a p IH]; intros s r H.
  - injection H as <-. reflexivity.
  - cbn [ci_prefix] in H. destruct s as [|b s]; [discriminate|].
    destruct (ci_eqb a b); [|discriminate].
    cbn [length firstn app]. f_equal. now apply IH.
Qed.

Lemma ci_prefix_length p : forall s r,
  ci_prefix p s = Some r -> length s = length p + length r.
Proof.
  induction p as [|a p IH]; intros s r H.
  - injection H as <-. reflexivity.
  - cbn [ci_prefix] in H. destruct s as [|b s]; [discriminate|].
    destruct (ci_eqb a b); [|discriminate].
    cbn [length]. rewrite (IH s r H). reflexivity.
Qed.

Lemma rmatch_Chr_cons p c s caps k :
  rmatch (Chr p) (c :: s) caps k = if p c then k s caps else None.
Proof. reflexivity. Qed.

Lemma orElse_None_r x : orElse x None = x.
Proof. destruct x; reflexivity. Qed.

Lemma rmatch_Alt a b s caps k :
  rmatch (Alt a b) s caps k = orElse (rmatch a s caps k) (rmatch b s caps k).
Proof. reflexivity. Qed.

Lemma rmatch_Group n a s caps k :
  rmatch (Group n a) s caps k =
  rmatch a s caps (fun s1 c1 => k s1 ((n, firstn (length s - length s1) s) :: c1)).
Proof. reflexivity. Qed.

Lemma rmatch_Seq a b s caps k :
  rmatch (Seq a b) s caps k = rmatch a s caps (fun s1 c1 => rmatch b s1 c1 k).
Proof. reflexivity. Qed.

(** A quote-free name cannot match across the closing quote of a value. *)
Lemma ci_prefix_value B : forall w tl,
  quote_free B = true -> quote_free w = true ->
  (tl = [] \/ exists q rest, tl = q :: rest /\ quote q = true) ->
  match ci_prefix B (w ++ tl) with
  | Some s' => exists w2, s' = w2 ++ tl /\ quote_free w2 = true /\
                          ci_str w B = match w2 with [] => true | _ => false end
  | None => ci_str w B = false
  end.
Proof.
  induction B as [|b B IH]; intros w tl HB Hw Htl.
  - cbn [ci_prefix]. exists w. repeat split; [assumption|].
    destruct w; reflexivity.
  - cbn [quote_free forallb] in HB. apply andb_prop in HB. destruct HB as [Hb HB].
    destruct w as [|x w].
    + cbn [app ci_prefix]. destruct tl as [|q rest]; [reflexivity|].
      destruct Htl as [Htl | (q1 & r1 & [= <- <-] & Hq)]; [discriminate|].
      destruct (ci_eqb b q) eqn:E; [|reflexivity].
      apply ci_eqb_quote in E. rewrite not_quote_spec in Hb.
      rewrite E, Hq in Hb. discriminate.
    + cbn [quote_free forallb] in Hw. apply andb_prop in Hw. destruct Hw as [_ Hw].
      cbn [app ci_prefix ci_str]. destruct (ci_eqb b x); cbn [andb].
      * apply IH; assumption.
      * reflexivity.
Qed.

(** The name and the closing quote, after a value that runs up to [tl]. *)
Lemma name_then_quote B w tl caps :
  quote_free B = true -> quote_free w = true ->
  (tl = [] \/ exists q rest, tl = q :: rest /\ quote q = true) ->
  rmatch (Seq (lit ci_eqb B) (Chr quote)) (w ++ tl) caps k0 =
  match tl with
  | _ :: rest => if ci_str w B then Some (rest, caps) else None
  | [] => None
  end.
Proof.
  intros HB Hw Htl. cbn [rmatch]. rewrite rmatch_lit.
  pose proof (ci_prefix_value B w tl HB Hw Htl) as H.
  destruct (ci_prefix B (w ++ tl)) as [s'|].
  - destruct H as (w2 & -> & Hw2 & Hstr). rewrite Hstr.
    destruct w2 as [|c w2].
    + cbn [app]. destruct Htl as [-> | (q & rest & -> & Hq)]; [reflexivity|].
      now rewrite Hq.
    + cbn [app]. cbn [quote_free forallb] in Hw2.
      apply andb_prop in Hw2. destruct Hw2 as [Hc _].
      rewrite not_quote_spec in Hc. apply negb_true_iff in Hc. rewrite Hc.
      now destruct tl.
  - rewrite H. now destruct tl.
Qed.

(** The optional path: the greedy run of the value backs off to a slash
    that is followed by the name. *)
Lemma path_run B G : forall v tl caps,
  quote_free B = true -> quote_free v = true ->
  (tl = [] \/ exists q rest, tl = q :: rest /\ quote q = true) ->
  match
    star not_quote (v ++ tl) caps
      (fun s4 c4 =>
         rmatch (Chr slash) s4 c4
           (fun s1 c1 =>
              rmatch (Seq (lit ci_eqb B) (Chr quote)) s1 ((2, G s1) :: c1) k0))
  with
  | Some (r, c') =>
      slash_value B v = true /\
      exists q g, tl = q :: r /\ c' = (2, g) :: caps
  | None => slash_value B v = false \/ tl = []
  end.
Proof.
  induction v as [|x v IH]; intros tl caps HB Hv Htl.
  - cbn [app]. destruct tl as [|q rest].
    + cbn [star rmatch]. now right.
    + destruct Htl as [Htl | (q1 & r1 & [= <- <-] & Hq)]; [discriminate|].
      cbn [star]. rewrite not_quote_spec, Hq. cbn [negb rmatch].
      rewrite (quote_not_slash _ Hq). now left.
  - cbn [quote_free forallb] in Hv. apply andb_prop in Hv. destruct Hv as [Hx Hv].
    cbn [app star]. rewrite Hx.
    specialize (IH tl caps HB Hv Htl).
    cbn [slash_value].
    match goal with
    | |- context [orElse ?a ?b] => destruct a as [[r c']|] eqn:Estar
    end.
    + cbn [orElse]. destruct IH as (Hsv & q & g & -> & ->).
      split; [rewrite Hsv; apply orb_true_r | eauto].
    + cbn [orElse]. rewrite rmatch_Chr_cons. destruct (slash x) eqn:Hsl.
      * rewrite (name_then_quote B v tl ((2, G (v ++ tl)) :: caps) HB Hv Htl).
        destruct tl as [|q rest]; [now right|].
        destruct (ci_str v B) eqn:Hstr.
        -- split; [reflexivity | eauto].
        -- cbn [andb orb]. destruct IH as [IH | IH]; [now left | discriminate].
      * cbn [andb orb]. exact IH.
Qed.

Lemma value_span_spec s : forall v r,
  value_span s = (v, r) ->
  s = v ++ r /\ quote_free v = true /\
  (r = [] \/ exists q rest, r = q :: rest /\ quote q = true).
Proof.
  induction s as [|c s IH]; intros v r H.
  - injection H as <- <-. auto.
  - cbn [value_span] in H. destruct (quote c) eqn:Hc.
    + injection H as <- <-. repeat split. right. eauto.
    + destruct (value_span s) as [v' r']. injection H as <- <-.
      destruct (IH v' r' eq_refl) as (-> & Hv & Hr).
      repeat split; [|assumption].
      cbn [quote_free forallb]. rewrite not_quote_spec, Hc. exact Hv.
Qed.

(** The tail of the path pattern decides [path_value]. *)
Lemma path_tail B v tl caps :
  quote_free B = true -> quote_free v = true ->
  (tl = [] \/ exists q rest, tl = q :: rest /\ quote q = true) ->
  match
    rmatch (Seq (Opt (Group 2 (Seq (Star not_quote) (Chr slash))))
                (Seq (lit ci_eqb B) (Chr quote))) (v ++ tl) caps k0
  with
  | Some (r, c') =>
      path_value B v = true /\
      exists q, tl = q :: r /\ capture 1 c' = capture 1 caps
  | None => path_value B v = false \/ tl = []
  end.
Proof.
  intros HB Hv Htl.
  rewrite rmatch_Seq. cbn [rmatch].
  pose proof (path_run B (fun s1 => firstn (length (v ++ tl) - length s1) (v ++ tl))
                v tl caps HB Hv Htl) as Hrun0.
  match goal with
  | |- context [orElse ?a ?b] =>
      assert (Hrun :
        match a with
        | Some (r, c') =>
            slash_value B v = true /\
            exists q g, tl = q :: r /\ c' = (2, g) :: caps
        | None => slash_value B v = false \/ tl = []
        end) by exact Hrun0;
      clear Hrun0;
      destruct a as [[r c']|]
  end.
  - destruct Hrun as (Hsv & q & g & -> & ->). cbn [orElse].
    split.
    + unfold path_value. rewrite Hsv. apply orb_true_r.
    + exists q. split; reflexivity.
  - cbn [orElse].
    pose proof (name_then_quote B v tl caps HB Hv Htl) as Hname.
    cbn [rmatch] in Hname. rewrite Hname.
    destruct tl as [|q rest]; [now right|].
    unfold path_value. destruct (ci_str v B).
    + split; [reflexivity | eauto].
    + left. destruct Hrun as [Hrun | Hrun]; [exact Hrun | discriminate].
Qed.

(** The tail of the bare pattern decides [bare_value]. *)
Lemma bare_tail B v tl caps :
  quote_free B = true -> quote_free v = true ->
  (tl = [] \/ exists q rest, tl = q :: rest /\ quote q = true) ->
  match rmatch (Seq (lit ci_eqb B) (Chr quote)) (v ++ tl) caps k0 with
  | Some (r, c') =>
      bare_value B v = true /\
      exists q, tl = q :: r /\ capture 1 c' = capture 1 caps
  | None => bare_value B v = false \/ tl = []
  end.
Proof.
  intros HB Hv Htl. rewrite (name_then_quote B v tl caps HB Hv Htl).
  destruct tl as [|q rest]; [now right|].
  unfold bare_value. destruct (ci_str v B).
  - split; [reflexivity | eauto].
  - now left.
Qed.

Lemma src_not_href t r :
  ci_prefix (str "src") t = Some r -> ci_prefix (str "href") t = None.
Proof.
  destruct t as [|b t]; [discriminate|].
  cbn [str list_ascii_of_string ci_prefix].
  destruct (ci_eqb "s" b) eqn:Es; [|discriminate]. intros _.
  destruct (ci_eqb "h" b) eqn:Eh; [|reflexivity].
  apply ci_eqb_canon in Es. apply ci_eqb_canon in Eh.
  rewrite <- Es in Eh. discriminate.
Qed.

Section Pattern.

(** A pattern made of the attribute, the equals sign, the opening quote and
    a tail [T] that decides the value test [ok]. *)
Variable T : regex.
Variable ok : jsstring -> bool.

Hypothesis tail_decides : forall v tl caps,
  quote_free v = true ->
  (tl = [] \/ exists q rest, tl = q :: rest /\ quote q = true) ->
  match rmatch T (v ++ tl) caps k0 with
  | Some (r, c') =>
      ok v = true /\ exists q, tl = q :: r /\ capture 1 c' = capture 1 caps
  | None => ok v = false \/ tl = []
  end.

(** After the attribute name: the equals sign, the quote and the value. *)
Lemma after_attr r caps :
  match r with
  | e :: q :: s =>
      if ascii_is e "=" && quote q then
        let (v, rr) := value_span s in
        match rr with
        | _ :: rest =>
            if ok v
            then exists c', rmatch (Seq (lit_i "=") (Seq (Chr quote) T)) r caps k0
                            = Some (rest, c') /\ capture 1 c' = capture 1 caps
            else rmatch (Seq (lit_i "=") (Seq (Chr quote) T)) r caps k0 = None
        | [] => rmatch (Seq (lit_i "=") (Seq (Chr quote) T)) r caps k0 = None
        end
      else rmatch (Seq (lit_i "=") (Seq (Chr quote) T)) r caps k0 = None
  | _ => rmatch (Seq (lit_i "=") (Seq (Chr quote) T)) r caps k0 = None
  end.
Proof.
  destruct r as [|e [|q s]].
  - reflexivity.
  - rewrite rmatch_Seq. unfold lit_i. rewrite rmatch_lit.
    cbn [str list_ascii_of_string ci_prefix].
    destruct (ci_eqb "=" e); reflexivity.
  - rewrite rmatch_Seq. unfold lit_i. rewrite rmatch_lit.
    cbn [str list_ascii_of_string ci_prefix].
    rewrite equals_sign_spec. destruct (ascii_is e "="); [|reflexivity].
    rewrite rmatch_Seq, rmatch_Chr_cons.
    destruct (quote q); [|reflexivity]. cbn [andb].
    destruct (value_span s) as [v rr] eqn:Espan.
    destruct (value_span_spec s v rr Espan) as (-> & Hv & Hrr).
    pose proof (tail_decides v rr caps Hv Hrr) as Ht.
    destruct (rmatch T (v ++ rr) caps k0) as [[r c']|].
    + destruct Ht as (Hok & q' & -> & Hcap). rewrite Hok. eauto.
    + destruct rr as [|q' rest]; [reflexivity|].
      destruct Ht as [-> | Ht]; [reflexivity | discriminate].
Qed.

(** An attempt of the pattern reads the attribute name, keeps it as the
    first group and goes on with the rest of the pattern. *)
Lemma exec_attr t :
  exec_at (ref_pattern T) t =
  match attr_at t with
  | Some (a, r) => rmatch (Seq (lit_i "=") (Seq (Chr quote) T)) r [(1, a)] k0
  | None => None
  end.
Proof.
  unfold exec_at, ref_pattern, re_attr.
  rewrite rmatch_Seq, rmatch_Group, rmatch_Alt.
  change (lit_i "src") with (lit ci_eqb (str "src")).
  change (lit_i "href") with (lit ci_eqb (str "href")).
  rewrite !rmatch_lit.
  unfold attr_at.
  destruct (ci_prefix (str "src") t) as [r|] eqn:Esrc.
  - rewrite (src_not_href t r Esrc).
    pose proof (ci_prefix_length _ _ _ Esrc) as Hlen.
    replace (length t - length r) with 3
      by (change (length (str "src")) with 3 in Hlen; lia).
    cbv beta. apply orElse_None_r.
  - cbn [orElse].
    destruct (ci_prefix (str "href") t) as [r|] eqn:Ehref; [|reflexivity].
    pose proof (ci_prefix_length _ _ _ Ehref) as Hlen.
    replace (length t - length r) with 4
      by (change (length (str "href")) with 4 in Hlen; lia).
    reflexivity.
Qed.

(** One attempt of the pattern finds a reference exactly where [ref_at]
    does, and its first group is the attribute name as written. *)
Lemma ref_exec t :
  match ref_at ok t with
  | Some (a, rest) =>
      exists caps, exec_at (ref_pattern T) t = Some (rest, caps) /\ cap_text 1 caps = a
  | None => exec_at (ref_pattern T) t = None
  end.
Proof.
  rewrite exec_attr. unfold ref_at.
  destruct (attr_at t) as [[a r]|]; [|reflexivity].
  pose proof (after_attr r [(1, a)]) as H.
  destruct r as [|e [|q s]]; try exact H.
  destruct (ascii_is e "=" && quote q); [|exact H].
  destruct (value_span s) as [v rr].
  destruct rr as [|q' rest]; [exact H|].
  destruct (ok v); [|exact H].
  destruct H as (c' & -> & Hcap).
  exists c'. split; [reflexivity|].
  unfold cap_text. rewrite Hcap. cbn [capture Nat.eqb]. reflexivity.
Qed.

End Pattern.


(** Both patterns of an asset are of this shape. *)
Lemma pathRef_exec B t :
  quote_free B = true ->
  match ref_at (path_value B) t with
  | Some (a, rest) =>
      exists caps, exec_at (re_pathRef B) t = Some (rest, caps) /\ cap_text 1 caps = a
  | None => exec_at (re_pathRef B) t = None
  end.
Proof.
  intros HB.
  apply (ref_exec
           (Seq (Opt (Group 2 (Seq (Star not_quote) (Chr slash))))
                (Seq (lit ci_eqb B) (Chr quote)))
           (path_value B)).
  intros v tl caps Hv Htl. now apply path_tail.
Qed.

Lemma bareRef_exec B t :
  quote_free B = true ->
  match ref_at (bare_value B) t with
  | Some (a, rest) =>
      exists caps, exec_at (re_bareRef B) t = Some (rest, caps) /\ cap_text 1 caps = a
  | None => exec_at (re_bareRef B) t = None
  end.
Proof.
  intros HB.
  apply (ref_exec (Seq (lit ci_eqb B) (Chr quote)) (bare_value B)).
  intros v tl caps Hv Htl. now apply bare_tail.
Qed.

(** *** The replacement text *)

Lemma GetSubstitution_plain matched before after m caps tpl :
  dollar_free tpl = true ->
  GetSubstitution matched before after m caps tpl = tpl.
Proof.
  induction tpl as [|c t IH]; intros H.
  - reflexivity.
  - cbn [dollar_free forallb] in H. apply andb_prop in H. destruct H as [Hc Ht].
    apply negb_true_iff in Hc. cbn [GetSubstitution]. rewrite Hc.
    f_equal. now apply IH.
Qed.

(** The template stands for the attribute name as written, the equals sign
    and the data URL in double quotes. *)
Lemma GetSubstitution_template matched before after m caps dataUrl :
  dollar_free dataUrl = true -> 1 <= m ->
  GetSubstitution matched before after m caps (template dataUrl) =
  cap_text 1 caps ++ "="%char :: dq :: dataUrl ++ [dq].
Proof.
  intros HD Hm. unfold template.
  change (str "$1=" ++ [dq] ++ dataUrl ++ [dq])
    with ("$"%char :: "1"%char :: "="%char :: dq :: dataUrl ++ [dq]).
  assert (Hrest : dollar_free ("="%char :: dq :: dataUrl ++ [dq]) = true).
  { cbn [dollar_free forallb]. unfold dollar_free in HD.
    rewrite forallb_app, HD. reflexivity. }
  cbn [GetSubstitution].
  change (ascii_is "$" "$") with true. cbv iota.
  change (ascii_is "1" "$") with false.
  change (ascii_is "1" "&") with false.
  change (ascii_is "1" "`") with false.
  change (ascii_is "1" "'") with false. cbv iota.
  change (decimal_digit "1") with (Some 1).
  change (decimal_digit "=") with (@None nat). cbv iota beta.
  assert (Hle : ((1 <=? 1) && (1 <=? m))%nat = true).
  { apply andb_true_intro. split; apply Nat.leb_le; lia. }
  rewrite Hle. f_equal.
  apply (GetSubstitution_plain matched before after m caps _ Hrest).
Qed.

(** *** The scan of a global replacement *)

Lemma scan_skip r tpl u : forall before rest,
  replace_scan r tpl before (u ++ rest) (length u) =
  replace_scan r tpl (before ++ u) rest 0.
Proof.
  induction u as [|c u IH]; intros before rest.
  - now rewrite app_nil_r.
  - cbn [app length replace_scan]. rewrite IH. now rewrite <- app_assoc.
Qed.

Lemma scan_hit r tpl before m c rest caps :
  exec_at r ((c :: m) ++ rest) = Some (rest, caps) ->
  replace_scan r tpl before ((c :: m) ++ rest) 0 =
  GetSubstitution (c :: m) before rest (ngroups r) caps tpl ++
  replace_scan r tpl (before ++ c :: m) rest 0.
Proof.
  intros H. cbn [app] in *. cbn [replace_scan]. rewrite H. cbv zeta.
  replace (length (c :: m ++ rest) - length rest) with (S (length m))
    by (cbn [length]; rewrite length_app; lia).
  cbn [firstn]. rewrite firstn_app.
  replace (length m - length m) with 0 by lia.
  rewrite firstn_all. cbn [firstn]. rewrite app_nil_r. f_equal.
  rewrite scan_skip. rewrite <- app_assoc. reflexivity.
Qed.

Lemma scan_miss r tpl before c s :
  exec_at r (c :: s) = None ->
  replace_scan r tpl before (c :: s) 0 =
  c :: replace_scan r tpl (before ++ [c]) s 0.
Proof. intros H. cbn [replace_scan]. now rewrite H. Qed.

Lemma scan_nil r tpl before :
  exec_at r [] = None -> replace_scan r tpl before [] 0 = [].
Proof. intros H. cbn [replace_scan]. now rewrite H. Qed.


(** *** References in a text cut at its quotes *)

Lemma ci_str_quote_free B : forall v,
  ci_str v B = true -> quote_free B = true -> quote_free v = true.
Proof.
  induction B as [|b B IH]; intros [|x v] H HB; try discriminate.
  - reflexivity.
  - cbn [ci_str] in H. apply andb_prop in H. destruct H as [Hbx Hv].
    cbn [quote_free forallb] in *. apply andb_prop in HB. destruct HB as [Hb HB].
    rewrite not_quote_spec in *. rewrite <- (ci_eqb_quote _ _ Hbx), Hb.
    now apply IH.
Qed.

Lemma attr_eq_quote_free u : attr_eq u = true -> quote_free u = true.
Proof.
  unfold attr_eq. intros H. apply orb_prop in H.
  destruct H as [H | H]; apply (ci_str_quote_free _ _ H); reflexivity.
Qed.

Lemma attr_eq_ends u : attr_eq u = true -> ends_attr u = true.
Proof. intros H. destruct u; cbn [ends_attr]; now rewrite H. Qed.

Lemma value_span_app w q' rest :
  quote_free w = true -> quote q' = true ->
  value_span (w ++ q' :: rest) = (w, q' :: rest).
Proof.
  intros Hw Hq. induction w as [|c w IH].
  - cbn [app value_span]. now rewrite Hq.
  - cbn [quote_free forallb] in Hw. apply andb_prop in Hw. destruct Hw as [Hc Hw].
    rewrite not_quote_spec in Hc. apply negb_true_iff in Hc.
    cbn [app value_span]. rewrite Hc, (IH Hw). reflexivity.
Qed.

Lemma src_then_not_href a1 : ci_eqb "h" a1 = true -> ci_eqb "s" a1 = false.
Proof.
  intros Hh. destruct (ci_eqb "s" a1) eqn:Hs; [|reflexivity].
  apply ci_eqb_canon in Hh. apply ci_eqb_canon in Hs.
  rewrite <- Hh in Hs. discriminate.
Qed.

(** A text that ends in an attribute and the equals sign, then a quoted
    value that passes the test, is a reference. *)
Lemma ref_at_hit ok u q w q' rest :
  attr_eq u = true -> quote q = true -> quote_free w = true ->
  quote q' = true -> ok w = true ->
  ref_at ok (u ++ q :: w ++ q' :: rest) = Some (removelast u, rest).
Proof.
  intros Hu Hq Hw Hq' Hok. unfold attr_eq in Hu.
  change (str "src=") with ["s"; "r"; "c"; "="]%char in Hu.
  change (str "href=") with ["h"; "r"; "e"; "f"; "="]%char in Hu.
  unfold ref_at, attr_at.
  change (str "src") with ["s"; "r"; "c"]%char.
  change (str "href") with ["h"; "r"; "e"; "f"]%char.
  destruct u as [|a1 [|a2 [|a3 [|a4 [|a5 [|a6 u]]]]]];
    cbn [ci_str] in Hu;
    repeat (progress (rewrite ?andb_false_r, ?andb_true_r in Hu; cbn [andb orb] in Hu));
    try discriminate.
  - rewrite orb_false_r in Hu.
    repeat (apply andb_prop in Hu; destruct Hu as [? Hu]).
    cbn [app ci_prefix firstn removelast].
    repeat match goal with H : ci_eqb _ _ = true |- _ => rewrite H; clear H end.
    rewrite equals_sign_spec in Hu. rewrite Hu.
    rewrite Hq. cbn [andb]. rewrite (value_span_app w q' rest Hw Hq'), Hok.
    reflexivity.
  - repeat (apply andb_prop in Hu; destruct Hu as [? Hu]).
    cbn [app ci_prefix firstn removelast].
    match goal with H : ci_eqb "h" a1 = true |- _ =>
      rewrite (src_then_not_href a1 H) end.
    repeat match goal with H : ci_eqb _ _ = true |- _ => rewrite H; clear H end.
    rewrite equals_sign_spec in Hu. rewrite Hu.
    rewrite Hq. cbn [andb]. rewrite (value_span_app w q' rest Hw Hq'), Hok.
    reflexivity.
Qed.


Lemma ci_prefix_spec p : forall s r,
  ci_prefix p s = Some r ->
  s = firstn (length p) s ++ r /\ ci_str (firstn (length p) s) p = true.
Proof.
  induction p as [|a p IH]; intros s r H.
  - injection H as <-. auto.
  - cbn [ci_prefix] in H. destruct s as [|b s]; [discriminate|].
    destruct (ci_eqb a b) eqn:E; [|discriminate].
    destruct (IH s r H) as [Hs Hstr].
    cbn [length firstn app ci_str]. rewrite E, Hstr. split; [|reflexivity].
    now f_equal.
Qed.

Lemma ci_str_app A : forall a b B,
  ci_str a A = true -> ci_str b B = true -> ci_str (a ++ b) (A ++ B) = true.
Proof.
  induction A as [|x A IH]; intros [|y a] b B Ha Hb; try discriminate.
  - exact Hb.
  - cbn [ci_str] in Ha. apply andb_prop in Ha. destruct Ha as [Hxy Ha].
    cbn [app ci_str]. rewrite Hxy. now apply IH.
Qed.

Lemma attr_at_spec t a r :
  attr_at t = Some (a, r) ->
  t = a ++ r /\ attr_eq (a ++ ["="%char]) = true.
Proof.
  unfold attr_at, attr_eq. intros H.
  destruct (ci_prefix (str "src") t) as [r1|] eqn:E1.
  - assert (Hp : (firstn 3 t, r1) = (a, r)) by congruence.
    apply pair_equal_spec in Hp. destruct Hp as [<- <-].
    destruct (ci_prefix_spec _ _ _ E1) as [Ht Hs].
    split; [exact Ht|].
    change (str "src=") with (str "src" ++ ["="%char]).
    change (length (str "src")) with 3 in Hs.
    rewrite (ci_str_app _ _ _ _ Hs (eq_refl : ci_str ["="%char] ["="%char] = true)).
    reflexivity.
  - destruct (ci_prefix (str "href") t) as [r2|] eqn:E2; [|discriminate].
    assert (Hp : (firstn 4 t, r2) = (a, r)) by congruence.
    apply pair_equal_spec in Hp. destruct Hp as [<- <-].
    destruct (ci_prefix_spec _ _ _ E2) as [Ht Hs].
    split; [exact Ht|].
    change (str "href=") with (str "href" ++ ["="%char]).
    change (length (str "href")) with 4 in Hs.
    rewrite (ci_str_app _ _ _ _ Hs (eq_refl : ci_str ["="%char] ["="%char] = true)).
    apply orb_true_r.
Qed.

(** Where [ref_at] finds a reference, the text has the shape of one. *)
Lemma ref_at_sound ok t a rest :
  ref_at ok t = Some (a, rest) ->
  exists q v q',
    t = (a ++ ["="%char]) ++ q :: v ++ q' :: rest /\
    attr_eq (a ++ ["="%char]) = true /\
    quote q = true /\ quote_free v = true /\ quote q' = true /\ ok v = true.
Proof.
  unfold ref_at. intros H.
  destruct (attr_at t) as [[a0 r]|] eqn:Ea; [|discriminate].
  destruct (attr_at_spec t a0 r Ea) as [Ht Hattr].
  destruct r as [|e [|q s]]; try discriminate.
  destruct (ascii_is e "=") eqn:He; [|discriminate].
  destruct (quote q) eqn:Hq; [|discriminate]. cbn [andb] in H.
  destruct (value_span s) as [v rr] eqn:Espan.
  destruct (value_span_spec s v rr Espan) as (Hs & Hv & Hrr).
  destruct rr as [|q' rest']; [discriminate|].
  destruct (ok v) eqn:Hok; [|discriminate].
  injection H as <- <-.
  apply Ascii.eqb_eq in He. subst e.
  destruct Hrr as [Hrr | (q1 & r1 & [= <- <-] & Hq')]; [discriminate|].
  exists q, v, q'. rewrite Ht, Hs, <- app_assoc. cbn [app]. auto 10.
Qed.

Lemma ref_at_quote ok q s : quote q = true -> ref_at ok (q :: s) = None.
Proof.
  intros Hq. unfold ref_at, attr_at.
  change (str "src") with ["s"; "r"; "c"]%char.
  change (str "href") with ["h"; "r"; "e"; "f"]%char.
  cbn [ci_prefix].
  destruct (quote_cases q Hq) as [-> | ->]; reflexivity.
Qed.

(** The cut of a text at its first quote is unique. *)
Lemma first_quote_unique u : forall x q y l,
  quote_free u = true -> quote_free x = true -> quote q = true ->
  well_cut l = true ->
  u ++ flat l = x ++ q :: y ->
  u = x /\ exists w l', l = (q, w) :: l' /\ y = w ++ flat l'.
Proof.
  induction u as [|c u IH]; intros x q y l Hu Hx Hq Hl H.
  - destruct l as [|[q1 w1] l1].
    + destruct x; discriminate.
    + cbn [app flat] in H. destruct x as [|c x].
      * injection H as -> <-. eauto.
      * injection H as <- _. cbn [well_cut forallb fst] in Hl.
        apply andb_prop in Hl. destruct Hl as [Hl _].
        apply andb_prop in Hl. destruct Hl as [Hq1 _].
        cbn [quote_free forallb] in Hx. rewrite not_quote_spec, Hq1 in Hx.
        discriminate.
  - cbn [quote_free forallb] in Hu. apply andb_prop in Hu. destruct Hu as [Hc Hu].
    destruct x as [|c' x].
    + cbn [app] in H. injection H as -> _.
      rewrite not_quote_spec, Hq in Hc. discriminate.
    + cbn [app] in H. injection H as <- H.
      cbn [quote_free forallb] in Hx. apply andb_prop in Hx. destruct Hx as [_ Hx].
      destruct (IH x q y l Hu Hx Hq Hl H) as (-> & Hrest). auto.
Qed.

Lemma well_cut_cons q w l :
  well_cut ((q, w) :: l) = true ->
  quote q = true /\ quote_free w = true /\ well_cut l = true.
Proof.
  cbn [well_cut forallb fst snd]. intros H.
  apply andb_prop in H. destruct H as [H Hl].
  apply andb_prop in H. destruct H as [Hq Hw]. auto.
Qed.


Lemma removelast_snoc (a : jsstring) e : removelast (a ++ [e]) = a.
Proof. now rewrite removelast_last. Qed.

Section Scan.

(** A pattern [r] that finds the references that pass [ok], as both
    patterns of an asset do, and a data URL without dollar signs. *)
Variable r : regex.
Variable ok : jsstring -> bool.
Variable dataUrl : jsstring.

Hypothesis r_finds : forall t,
  match ref_at ok t with
  | Some (a, rest) =>
      exists caps, exec_at r t = Some (rest, caps) /\ cap_text 1 caps = a
  | None => exec_at r t = None
  end.
Hypothesis r_groups : 1 <= ngroups r.
Hypothesis url_plain : dollar_free dataUrl = true.

(** The scan of the source, on a text cut at its quotes, is the pass over
    the tokens. *)
Lemma scan_tokens n : forall u l before,
  length (u ++ flat l) <= n ->
  quote_free u = true -> well_cut l = true ->
  replace_scan r (template dataUrl) before (u ++ flat l) 0 =
  u ++ flat (rewrite_tokens ok dataUrl u l).
Proof.
  induction n as [|n IH]; intros u l before Hn Hu Hl.
  - destruct u; [|cbn [app length] in Hn; lia].
    destruct l as [|[q w] l]; [|cbn [app flat length] in Hn; lia].
    apply scan_nil. exact (r_finds []).
  - destruct u as [|c u].
    + destruct l as [|[q w] tl].
      * apply scan_nil. exact (r_finds []).
      * destruct (well_cut_cons _ _ _ Hl) as (Hq & Hw & Htl).
        cbn [app flat]. pose proof (r_finds (q :: w ++ flat tl)) as Hf.
        rewrite (ref_at_quote ok q _ Hq) in Hf.
        rewrite (scan_miss _ _ _ _ _ Hf).
        rewrite (IH w tl) by (cbn [app flat length] in Hn; try lia; assumption).
        f_equal. cbn [rewrite_tokens].
        destruct tl as [|[q' w'] l']; reflexivity.
    + pose proof (r_finds ((c :: u) ++ flat l)) as Hf.
      destruct (ref_at ok ((c :: u) ++ flat l)) as [[a rest]|] eqn:Eref.
      * destruct Hf as (caps & Hexec & Hcap).
        destruct (ref_at_sound _ _ _ _ Eref)
          as (q & v & q' & Ht & Hattr & Hq & Hv & Hq' & Hok).
        destruct (first_quote_unique _ _ _ _ _ Hu (attr_eq_quote_free _ Hattr) Hq Hl Ht)
          as (Hua & w & l1 & -> & Hy).
        destruct (well_cut_cons _ _ _ Hl) as (_ & Hw & Hl1).
        symmetry in Hy.
        destruct (first_quote_unique _ _ _ _ _ Hw Hv Hq' Hl1 Hy)
          as (-> & w' & l2 & -> & ->).
        destruct (well_cut_cons _ _ _ Hl1) as (_ & Hw' & Hl2).
        match type of Hexec with
        | exec_at _ ?t = _ =>
            assert (Hshape : t = (c :: u ++ q :: v ++ [q']) ++ w' ++ flat l2)
        end.
        { cbn [flat app]. rewrite <- !app_assoc. cbn [app].
          rewrite <- !app_assoc. reflexivity. }
        rewrite Hshape in Hexec. rewrite Hshape at 1.
        rewrite (scan_hit _ _ _ _ _ _ _ Hexec).
        rewrite (GetSubstitution_template _ _ _ _ _ _ url_plain r_groups), Hcap.
        rewrite (IH w' l2)
          by (try assumption; rewrite Hshape in Hn;
              rewrite length_app in Hn; cbn [length] in Hn; lia).
        cbn [rewrite_tokens]. rewrite Hua, (attr_eq_ends _ Hattr), Hok.
        cbn [andb flat]. rewrite <- !app_assoc. cbn [app].
        rewrite <- !app_assoc. reflexivity.
      * cbn [app] in Hf |- *. rewrite (scan_miss _ _ _ _ _ Hf).
        cbn [quote_free forallb] in Hu. apply andb_prop in Hu.
        destruct Hu as [Hc Hu].
        rewrite (IH u l) by (try assumption; cbn [app length] in Hn; lia).
        f_equal. f_equal. f_equal.
        destruct l as [|[q w] [|[q' w'] l']]; try reflexivity.
        cbn [rewrite_tokens ends_attr].
        destruct (attr_eq (c :: u)) eqn:Eattr; [|reflexivity].
        destruct (ok w) eqn:Hok; [|now rewrite !andb_false_r].
        exfalso.
        destruct (well_cut_cons _ _ _ Hl) as (Hq & Hw & Hl1).
        destruct (well_cut_cons _ _ _ Hl1) as (Hq' & _ & _).
        cbn [flat] in Eref.
        rewrite (ref_at_hit ok (c :: u) q w q' _ Eattr Hq Hw Hq' Hok) in Eref.
        discriminate.
Qed.

Lemma replace_all_tokens u l :
  quote_free u = true -> well_cut l = true ->
  replace_all r (template dataUrl) (u ++ flat l) =
  u ++ flat (rewrite_tokens ok dataUrl u l).
Proof.
  intros Hu Hl. unfold replace_all.
  now apply (scan_tokens (length (u ++ flat l))).
Qed.

End Scan.


(** *** The passes over the tokens *)

Section Pass.

Variable ok : jsstring -> bool.
Variable dataUrl : jsstring.

(** Induction along the recursion of [rewrite_tokens]. *)
Lemma rewrite_tokens_ind (P : jsstring -> tokens -> tokens -> Prop) :
  (forall prev, P prev [] []) ->
  (forall prev q w, P prev [(q, w)] [(q, w)]) ->
  (forall prev q w q' w' l',
     ends_attr prev && ok w = true ->
     P w' l' (rewrite_tokens ok dataUrl w' l') ->
     P prev ((q, w) :: (q', w') :: l')
       ((dq, dataUrl) :: (dq, w') :: rewrite_tokens ok dataUrl w' l')) ->
  (forall prev q w q' w' l',
     ends_attr prev && ok w = false ->
     P w ((q', w') :: l') (rewrite_tokens ok dataUrl w ((q', w') :: l')) ->
     P prev ((q, w) :: (q', w') :: l')
       ((q, w) :: rewrite_tokens ok dataUrl w ((q', w') :: l'))) ->
  forall prev l, P prev l (rewrite_tokens ok dataUrl prev l).
Proof.
  intros Hnil Hone Hhit Hmiss prev l.
  remember (length l) as n eqn:Hn. revert prev l Hn.
  induction n as [n IH] using lt_wf_ind. intros prev l Hn.
  destruct l as [|[q w] [|[q' w'] l']].
  - apply Hnil.
  - apply Hone.
  - cbn [rewrite_tokens]. destruct (ends_attr prev && ok w) eqn:E.
    + apply Hhit; [exact E|].
      apply (IH (length l')); [cbn [length] in Hn; lia | reflexivity].
    + apply Hmiss; [exact E|].
      apply (IH (length ((q', w') :: l'))); [cbn [length] in Hn |- *; lia | reflexivity].
Qed.

Lemma rewrite_tokens_length prev l :
  length (rewrite_tokens ok dataUrl prev l) = length l.
Proof.
  apply (rewrite_tokens_ind (fun _ l l' => length l' = length l));
    intros; cbn [length] in *; congruence.
Qed.

Lemma well_cut_rewrite prev l :
  quote_free dataUrl = true -> well_cut l = true ->
  well_cut (rewrite_tokens ok dataUrl prev l) = true.
Proof.
  intros HD.
  apply (rewrite_tokens_ind
           (fun _ l l' => well_cut l = true -> well_cut l' = true)).
  - auto.
  - auto.
  - intros _ q w q' w' l' _ IH H.
    destruct (well_cut_cons _ _ _ H) as (_ & _ & H1).
    destruct (well_cut_cons _ _ _ H1) as (_ & Hw' & H2).
    cbn [well_cut forallb fst snd]. rewrite HD, Hw'.
    change (quote dq) with true. cbn [andb]. now apply IH.
  - intros _ q w q' w' l' _ IH H.
    destruct (well_cut_cons _ _ _ H) as (Hq & Hw & H1).
    cbn [well_cut forallb fst snd]. rewrite Hq, Hw. cbn [andb]. now apply IH.
Qed.

End Pass.

Lemma ngroups_pathRef B : ngroups (re_pathRef B) = 2.
Proof. unfold re_pathRef. cbn [seqs ngroups re_attr lit_i]. now rewrite !ngroups_lit. Qed.

Lemma ngroups_bareRef B : ngroups (re_bareRef B) = 1.
Proof. unfold re_bareRef. cbn [seqs ngroups re_attr lit_i]. now rewrite !ngroups_lit. Qed.

(** The first replacement of an asset is the pass for the path values. *)
Lemma pathRef_tokens B D u l :
  quote_free B = true -> dollar_free D = true ->
  quote_free u = true -> well_cut l = true ->
  replace_all (re_pathRef B) (template D) (u ++ flat l) =
  u ++ flat (rewrite_tokens (path_value B) D u l).
Proof.
  intros HB HD Hu Hl.
  apply (replace_all_tokens (re_pathRef B) (path_value B) D); try assumption.
  - intros t. now apply pathRef_exec.
  - rewrite ngroups_pathRef. lia.
Qed.

(** The second replacement of an asset is the pass for the bare values. *)
Lemma bareRef_tokens B D u l :
  quote_free B = true -> dollar_free D = true ->
  quote_free u = true -> well_cut l = true ->
  replace_all (re_bareRef B) (template D) (u ++ flat l) =
  u ++ flat (rewrite_tokens (bare_value B) D u l).
Proof.
  intros HB HD Hu Hl.
  apply (replace_all_tokens (re_bareRef B) (bare_value B) D); try assumption.
  - intros t. now apply bareRef_exec.
  - rewrite ngroups_bareRef. lia.
Qed.

Lemma plain_asset_inv B D :
  plain_asset (B, D) = true ->
  quote_free B = true /\ quote_free D = true /\ dollar_free D = true.
Proof.
  unfold plain_asset. cbn [fst snd]. intros H.
  apply andb_prop in H. destruct H as [H H3].
  apply andb_prop in H. destruct H as [H1 H2]. auto.
Qed.

Lemma well_cut_rewrite_all (am : assets_map) : forall u l,
  plain_assets am = true -> well_cut l = true ->
  well_cut (rewrite_all am u l) = true.
Proof.
  induction am as [|[B D] rest IH]; intros u l Ha Hl.
  - exact Hl.
  - cbn [plain_assets forallb] in Ha. apply andb_prop in Ha. destruct Ha as [Ha Hrest].
    destruct (plain_asset_inv _ _ Ha) as (HB & HDq & HDd).
    unfold rewrite_all. cbn [fold_left fst snd].
    apply (IH u); [exact Hrest|].
    now repeat apply well_cut_rewrite.
Qed.

(** The rewriting step of the source, on a text cut at its quotes, is the
    sequence of passes over the tokens. *)
Lemma inlineReferences_tokens (am : assets_map) : forall u l,
  plain_assets am = true ->
  quote_free u = true -> well_cut l = true ->
  inlineReferences am (u ++ flat l) = Some (u ++ flat (rewrite_all am u l)).
Proof.
  induction am as [|[B D] rest IH]; intros u l Ha Hu Hl.
  - reflexivity.
  - cbn [plain_assets forallb] in Ha. apply andb_prop in Ha. destruct Ha as [Ha Hrest].
    destruct (plain_asset_inv _ _ Ha) as (HB & HDq & HDd).
    cbn [inlineReferences]. rewrite ZipFacts.inlineAsset_eq.
    rewrite (pathRef_tokens B D u l HB HDd Hu Hl).
    rewrite (bareRef_tokens B D u _ HB HDd Hu)
      by now apply well_cut_rewrite.
    rewrite (IH u) by (try assumption; now repeat apply well_cut_rewrite).
    reflexivity.
Qed.

Lemma split_quotes_spec s :
  s = fst (split_quotes s) ++ flat (snd (split_quotes s)) /\
  quote_free (fst (split_quotes s)) = true /\
  well_cut (snd (split_quotes s)) = true.
Proof.
  induction s as [|c s (IH1 & IH2 & IH3)].
  - auto.
  - cbn [split_quotes]. destruct (split_quotes s) as [w l]. cbn [fst snd] in *.
    destruct (quote c) eqn:Hc; cbn [fst snd app flat].
    + split; [now f_equal|]. split; [reflexivity|].
      cbn [well_cut forallb fst snd]. rewrite Hc, IH2. exact IH3.
    + split; [now f_equal|]. split; [|exact IH3].
      cbn [quote_free forallb]. rewrite not_quote_spec, Hc. exact IH2.
Qed.


(** *** Settled tokens *)

Lemma settled_tail ok D prev q w tl :
  settled ok D prev ((q, w) :: tl) -> settled ok D w tl.
Proof. destruct tl as [|[q' w'] l']; cbn [settled]; [auto | now intros [_ H]]. Qed.

Lemma settled_mono ok ok' D : forall l prev,
  (forall w, ok' w = true -> ok w = true) ->
  settled ok D prev l -> settled ok' D prev l.
Proof.
  induction l as [|[q w] tl IH]; intros prev Hsub H.
  - exact I.
  - destruct tl as [|[q' w'] l']; [exact I|].
    cbn [settled] in H |- *. destruct H as [H1 H2]. split.
    + intros E. apply H1. apply andb_prop in E. destruct E as [E1 E2].
      now rewrite E1, (Hsub _ E2).
    + now apply IH.
Qed.

(** The head of a pass keeps its quote or takes the double quote. *)
Lemma rewrite_tokens_head ok D prev q w l :
  exists q1 w1 l1,
    rewrite_tokens ok D prev ((q, w) :: l) = (q1, w1) :: l1 /\
    (q1 = q \/ q1 = dq).
Proof.
  destruct l as [|[q' w'] l']; cbn [rewrite_tokens].
  - eauto 6.
  - destruct (ends_attr prev && ok w); eauto 6.
Qed.

(** A pass leaves settled tokens as they are. *)
Lemma settled_fixed ok D prev l :
  settled ok D prev l -> rewrite_tokens ok D prev l = l.
Proof.
  apply (rewrite_tokens_ind ok D
           (fun prev l l' => settled ok D prev l -> l' = l)).
  - auto.
  - auto.
  - intros p q w q' w' l' E IH H.
    pose proof (settled_tail _ _ _ _ _ _ (settled_tail _ _ _ _ _ _ H)) as H2.
    cbn [settled] in H. destruct H as [H1 _].
    destruct (H1 E) as (-> & -> & ->). now rewrite (IH H2).
  - intros p q w q' w' l' E IH H.
    now rewrite (IH (settled_tail _ _ _ _ _ _ H)).
Qed.

(** After the pass for [okk], the tokens are settled for [okj], when they
    were before or when every value for [okj] is one for [okk]. *)
Lemma settled_after_pass okk Dk okj Dj prev l :
  ends_attr Dk = false ->
  (okj Dk = true -> Dk = Dj) ->
  (forall w, okj w = true -> okk w = true) \/ settled okj Dj prev l ->
  settled okj Dj prev (rewrite_tokens okk Dk prev l).
Proof.
  intros Hend Hval. revert prev l.
  apply (rewrite_tokens_ind okk Dk
           (fun prev l l' =>
              (forall w, okj w = true -> okk w = true) \/ settled okj Dj prev l ->
              settled okj Dj prev l')).
  - intros; exact I.
  - intros; exact I.
  - intros p q w q' w' l' E IH H.
    assert (H' : (forall w, okj w = true -> okk w = true) \/ settled okj Dj w' l').
    { destruct H as [H | H]; [now left | right].
      exact (settled_tail _ _ _ _ _ _ (settled_tail _ _ _ _ _ _ H)). }
    specialize (IH H').
    cbn [settled]. split.
    + intros Ej. apply andb_prop in Ej. destruct Ej as [_ Ej].
      rewrite (Hval Ej). auto.
    + destruct (rewrite_tokens okk Dk w' l') as [|[q2 w2] l2]; [exact I|].
      split; [|exact IH].
      rewrite Hend. discriminate.
  - intros p q w q' w' l' E IH H.
    assert (H' : (forall w, okj w = true -> okk w = true) \/
                 settled okj Dj w ((q', w') :: l')).
    { destruct H as [H | H]; [now left | right].
      exact (settled_tail _ _ _ _ _ _ H). }
    specialize (IH H').
    destruct (rewrite_tokens_head okk Dk w q' w' l') as (q1 & w1 & l1 & Eq & Hq1).
    rewrite Eq in IH |- *. cbn [settled]. split; [|exact IH].
    intros Ej. destruct H as [H | H].
    + apply andb_prop in Ej. destruct Ej as [Ep Ew].
      rewrite Ep, (H _ Ew) in E. discriminate.
    + cbn [settled] in H. destruct H as [H _].
      destruct (H Ej) as (-> & -> & ->).
      destruct Hq1 as [-> | ->]; auto.
Qed.


(** *** Rewriting twice *)

Lemma bare_is_path B w : bare_value B w = true -> path_value B w = true.
Proof. unfold bare_value, path_value. now intros ->. Qed.

(** Both passes of an asset settle the tokens for it. *)
Lemma asset_settles B D u l :
  ends_attr D = false ->
  settled (path_value B) D u
    (rewrite_tokens (bare_value B) D u (rewrite_tokens (path_value B) D u l)).
Proof.
  intros Hend.
  apply settled_after_pass; [exact Hend | auto | right].
  apply settled_after_pass; [exact Hend | auto | left; auto].
Qed.

(** Both passes of another asset keep them settled. *)
Lemma asset_preserves Ba Da Bb Db u l :
  ends_attr Db = false ->
  (path_value Ba Db = true -> Db = Da) ->
  settled (path_value Ba) Da u l ->
  settled (path_value Ba) Da u
    (rewrite_tokens (bare_value Bb) Db u (rewrite_tokens (path_value Bb) Db u l)).
Proof.
  intros Hend Hval H.
  apply settled_after_pass; [exact Hend | exact Hval | right].
  apply settled_after_pass; [exact Hend | exact Hval | now right].
Qed.

Lemma asset_fixed B D u l :
  settled (path_value B) D u l ->
  rewrite_tokens (bare_value B) D u (rewrite_tokens (path_value B) D u l) = l.
Proof.
  intros H. rewrite (settled_fixed _ _ _ _ H).
  apply settled_fixed. apply (settled_mono (path_value B)); [|exact H].
  apply bare_is_path.
Qed.

Lemma rewrite_all_settles u a : forall (am : assets_map) l,
  (forall b, In b am -> ends_attr (snd b) = false) ->
  (forall b, In b am -> path_value (fst a) (snd b) = true -> snd b = snd a) ->
  In a am \/ settled (path_value (fst a)) (snd a) u l ->
  settled (path_value (fst a)) (snd a) u (rewrite_all am u l).
Proof.
  induction am as [|b rest IH]; intros l Hend Hval H.
  - destruct H as [[] | H]. exact H.
  - unfold rewrite_all. cbn [fold_left].
    apply IH.
    + intros c Hc. apply Hend. now right.
    + intros c Hc. apply Hval. now right.
    + destruct H as [[-> | Hin] | H].
      * right. apply asset_settles. apply Hend. now left.
      * now left.
      * right. apply asset_preserves; [apply Hend; now left | apply Hval; now left | exact H].
Qed.

Lemma rewrite_all_fixed u : forall (am : assets_map) l,
  (forall a, In a am -> settled (path_value (fst a)) (snd a) u l) ->
  rewrite_all am u l = l.
Proof.
  induction am as [|a rest IH]; intros l H.
  - reflexivity.
  - unfold rewrite_all. cbn [fold_left].
    rewrite (asset_fixed _ _ _ _ (H a (or_introl eq_refl))).
    apply IH. intros b Hb. apply H. now right.
Qed.

(** On tokens, the passes of a closed asset map reach a fixed point at
    once. *)
Lemma rewrite_all_twice (am : assets_map) u l :
  closed_assets am ->
  rewrite_all am u (rewrite_all am u l) = rewrite_all am u l.
Proof.
  intros [Hend Hval]. apply rewrite_all_fixed. intros a Ha.
  apply rewrite_all_settles.
  - exact Hend.
  - intros b Hb. now apply Hval.
  - now left.
Qed.

(** C6, counterexample.  The archive [chained_zip] yields the asset map
    [chained_assets]; the document refers to [y], whose data URL ends with a
    slash and [x].  The first rewriting inserts the data URL of [y]; the
    second takes that data URL for a path to [x] and puts the data URL of
    [x] in its place: the second rewriting is not a no-op. *)
Lemma C6_second_rewriting_changes :
  option_map assets (extract chained_zip) = Some chained_assets /\
  inlineReferences chained_assets (str "<img src='y'>") =
    Some (str "<img src=" ++ [dq] ++
          str "data:application/octet-stream;base64,AA/x" ++ [dq] ++ str ">") /\
  inlineReferences chained_assets
    (str "<img src=" ++ [dq] ++
     str "data:application/octet-stream;base64,AA/x" ++ [dq] ++ str ">") =
    Some (str "<img src=" ++ [dq] ++
          str "data:application/octet-stream;base64,AAAA" ++ [dq] ++ str ">").
Proof. vm_compute. repeat split; reflexivity. Qed.

(** C6, as amended.  For an asset map whose base names hold no quote, whose
    data URLs hold no quote and no dollar sign, and which is closed (no data
    URL ends in an attribute name and the equals sign, and a data URL that
    names an asset of the map is the data URL of that asset), the rewriting
    step succeeds on every document, and applied to its own output it
    returns that output unchanged. *)
Theorem C6_rewriting_twice (am : assets_map) (html : jsstring) :
  plain_assets am = true ->
  closed_assets am ->
  exists out,
    inlineReferences am html = Some out /\
    inlineReferences am out = Some out.
Proof.
  intros Hplain Hclosed.
  destruct (split_quotes_spec html) as (Hhtml & Hu & Hl).
  set (u := fst (split_quotes html)) in *.
  set (l := snd (split_quotes html)) in *.
  exists (u ++ flat (rewrite_all am u l)). split.
  - rewrite Hhtml at 1. now apply inlineReferences_tokens.
  - rewrite inlineReferences_tokens;
      [| assumption | assumption | now apply well_cut_rewrite_all].
    now rewrite rewrite_all_twice.
Qed.

Lemma logo_assets_closed : closed_assets logo_assets.
Proof.
  split.
  - intros a [<- | []]. reflexivity.
  - intros a b [<- | []] [<- | []] _. reflexivity.
Qed.

Lemma C6_rewriting_twice_witness :
  exists out,
    inlineReferences logo_assets (str "<img src='img/logo(1).png'>") = Some out /\
    inlineReferences logo_assets out = Some out.
Proof.
  apply (C6_rewriting_twice logo_assets (str "<img src='img/logo(1).png'>")).
  - reflexivity.
  - exact logo_assets_closed.
Defined.


(** *** One quoted value in its context *)

Lemma last_word_app l1 : forall u q w l2,
  last_word u (l1 ++ (q, w) :: l2) = last_word w l2.
Proof.
  induction l1 as [|[q1 w1] l1 IH]; intros u q w l2; cbn [app last_word]; auto.
Qed.

(** A pass never replaces the last word. *)
Lemma last_word_rewrite ok D : forall u l,
  last_word u (rewrite_tokens ok D u l) = last_word u l.
Proof.
  apply (rewrite_tokens_ind ok D
           (fun u l l' => last_word u l' = last_word u l));
    intros; cbn [last_word] in *; auto.
Qed.

Lemma rewrite_tokens_cons2 ok D prev q w q' w' l' :
  rewrite_tokens ok D prev ((q, w) :: (q', w') :: l') =
  if ends_attr prev && ok w
  then (dq, D) :: (dq, w') :: rewrite_tokens ok D w' l'
  else (q, w) :: rewrite_tokens ok D w ((q', w') :: l').
Proof. reflexivity. Qed.

(** A pass over a text splits at a quoted value, when the word before the
    value is not itself a value that passes the test and the value does not
    end in an attribute name and the equals sign. *)
Lemma pass_split ok D q v q' w' l2 : forall l1 u,
  ok (last_word u l1) = false ->
  ends_attr v = false ->
  rewrite_tokens ok D u (l1 ++ (q, v) :: (q', w') :: l2) =
  rewrite_tokens ok D u l1 ++
  (let m := value_pass ok D (ends_attr (last_word u l1)) (q, v, q') in
   (fst (fst m), snd (fst m)) :: (snd m, w') :: rewrite_tokens ok D w' l2).
Proof.
  intros l1. remember (length l1) as n eqn:Hn. revert l1 Hn.
  induction n as [n IH] using lt_wf_ind. intros l1 Hn u Hlast Hv.
  destruct l1 as [|[qa wa] [|[qb wb] l1']].
  - cbn [app last_word] in *. rewrite rewrite_tokens_cons2.
    unfold value_pass. cbn [fst snd rewrite_tokens app].
    destruct (ends_attr u && ok v); [reflexivity|].
    cbn [fst snd]. f_equal.
    destruct l2 as [|[q2 w2] l3]; [reflexivity|].
    now rewrite Hv.
  - cbn [app last_word] in *. rewrite rewrite_tokens_cons2.
    rewrite Hlast, andb_false_r.
    pose proof (IH 0 ltac:(cbn [length] in Hn; lia) [] eq_refl wa Hlast Hv) as H0.
    cbn [app last_word] in H0. rewrite H0. reflexivity.
  - cbn [app last_word] in *. rewrite !rewrite_tokens_cons2.
    destruct (ends_attr u && ok wa).
    + pose proof (IH (length l1') ltac:(cbn [length] in Hn; lia) l1' eq_refl wb Hlast Hv)
        as H0.
      rewrite H0. reflexivity.
    + pose proof (IH (length ((qb, wb) :: l1')) ltac:(cbn [length] in Hn |- *; lia)
                    ((qb, wb) :: l1') eq_refl wa Hlast Hv) as H0.
      cbn [app last_word] in H0. rewrite H0. reflexivity.
Qed.

Lemma value_pass_cases ok D hot m :
  value_pass ok D hot m = m \/ value_pass ok D hot m = (dq, D, dq).
Proof. unfold value_pass. destruct (hot && ok (snd (fst m))); auto. Qed.

Lemma rewrite_all_cons B D (rest : assets_map) u l :
  rewrite_all ((B, D) :: rest) u l =
  rewrite_all rest u
    (rewrite_tokens (bare_value B) D u (rewrite_tokens (path_value B) D u l)).
Proof. reflexivity. Qed.

Lemma value_all_cons B D (rest : assets_map) hot m :
  value_all ((B, D) :: rest) hot m =
  value_all rest hot
    (value_pass (bare_value B) D hot (value_pass (path_value B) D hot m)).
Proof. reflexivity. Qed.

(** All passes split in the same way. *)
Lemma rewrite_all_split : forall (am : assets_map) l1 u q v q' w' l2,
  (forall b, In b am -> path_value (fst b) (last_word u l1) = false) ->
  (forall b, In b am -> ends_attr (snd b) = false) ->
  ends_attr v = false ->
  rewrite_all am u (l1 ++ (q, v) :: (q', w') :: l2) =
  rewrite_all am u l1 ++
  (let m := value_all am (ends_attr (last_word u l1)) (q, v, q') in
   (fst (fst m), snd (fst m)) :: (snd m, w') :: rewrite_all am w' l2).
Proof.
  induction am as [|[B D] rest IH]; intros l1 u q v q' w' l2 Hleft Hend Hv.
  - reflexivity.
  - assert (HB : path_value B (last_word u l1) = false)
      by exact (Hleft (B, D) (or_introl eq_refl)).
    assert (HD : ends_attr D = false)
      by exact (Hend (B, D) (or_introl eq_refl)).
    assert (HB' : bare_value B (last_word u l1) = false).
    { destruct (bare_value B (last_word u l1)) eqn:E; [|reflexivity].
      apply bare_is_path in E. congruence. }
    rewrite !rewrite_all_cons, value_all_cons.
    rewrite (pass_split (path_value B) D q v q' w' l2 l1 u HB Hv).
    set (hot := ends_attr (last_word u l1)).
    destruct (value_pass (path_value B) D hot (q, v, q')) as [[q1 v1] q1'] eqn:E1.
    assert (Hv1 : ends_attr v1 = false).
    { destruct (value_pass_cases (path_value B) D hot (q, v, q')) as [E | E];
        rewrite E1 in E; injection E as _ -> _; assumption. }
    cbv zeta. cbn [fst snd].
    rewrite <- (last_word_rewrite (path_value B) D u l1) in HB'.
    rewrite (pass_split (bare_value B) D q1 v1 q1' w' _ _ u HB' Hv1).
    rewrite (last_word_rewrite (path_value B) D u l1). fold hot.
    destruct (value_pass (bare_value B) D hot (q1, v1, q1')) as [[q2 v2] q2'] eqn:E2.
    assert (Hv2 : ends_attr v2 = false).
    { destruct (value_pass_cases (bare_value B) D hot (q1, v1, q1')) as [E | E];
        rewrite E2 in E; injection E as _ -> _; assumption. }
    cbv zeta. cbn [fst snd].
    rewrite IH.
    + rewrite !last_word_rewrite. fold hot. reflexivity.
    + intros b Hb. rewrite !last_word_rewrite. apply Hleft. now right.
    + intros b Hb. apply Hend. now right.
    + exact Hv2.
Qed.


(** Both passes of an asset, on one quoted value. *)
Lemma value_pass_both B D hot m :
  value_pass (bare_value B) D hot (value_pass (path_value B) D hot m) =
  if hot && path_value B (snd (fst m)) then (dq, D, dq) else m.
Proof.
  unfold value_pass. destruct hot; cbn [andb]; [|reflexivity].
  destruct (path_value B (snd (fst m))) eqn:Ep.
  - cbn [fst snd]. now destruct (bare_value B D).
  - destruct (bare_value B (snd (fst m))) eqn:Eb; [|reflexivity].
    apply bare_is_path in Eb. congruence.
Qed.

(** What the passes of a map do to one quoted value. *)
Lemma value_all_settled D : forall (am : assets_map) q0 q1,
  (forall b, In b am -> path_value (fst b) D = true -> snd b = D) ->
  value_all am true (q0, D, q1) = (q0, D, q1) \/
  value_all am true (q0, D, q1) = (dq, D, dq).
Proof.
  induction am as [|[Bb Db] rest IH]; intros q0 q1 Hclosed.
  - now left.
  - rewrite value_all_cons, value_pass_both. cbn [fst snd andb].
    assert (Hrest : forall b, In b rest -> path_value (fst b) D = true -> snd b = D)
      by (intros b Hb; apply Hclosed; now right).
    destruct (path_value Bb D) eqn:Ep.
    + pose proof (Hclosed (Bb, Db) (or_introl eq_refl) Ep) as HDb.
      cbn [snd] in HDb. subst Db.
      destruct (IH dq dq Hrest) as [E | E]; rewrite E; now right.
    + now apply IH.
Qed.

Lemma value_all_replaced B D q v q' : forall (am : assets_map),
  In (B, D) am -> path_value B v = true ->
  (forall b, In b am -> path_value (fst b) v = true -> snd b = D) ->
  (forall b, In b am -> path_value (fst b) D = true -> snd b = D) ->
  value_all am true (q, v, q') = (dq, D, dq).
Proof.
  induction am as [|[Bb Db] rest IH]; intros Hin Hv Hunamb Hclosed.
  - destruct Hin.
  - rewrite value_all_cons, value_pass_both. cbn [fst snd andb].
    assert (Hrest : forall b, In b rest -> path_value (fst b) D = true -> snd b = D)
      by (intros b Hb; apply Hclosed; now right).
    destruct (path_value Bb v) eqn:Ep.
    + pose proof (Hunamb (Bb, Db) (or_introl eq_refl) Ep) as HDb.
      cbn [snd] in HDb. subst Db.
      destruct (value_all_settled D rest dq dq Hrest) as [E | E]; now rewrite E.
    + destruct Hin as [Hin | Hin]; [injection Hin as -> ->; congruence|].
      apply IH; try assumption.
      intros b Hb. apply Hunamb. now right.
Qed.

Lemma value_all_unchanged hot m : forall (am : assets_map),
  (forall b, In b am -> path_value (fst b) (snd (fst m)) = false) ->
  value_all am hot m = m.
Proof.
  induction am as [|[Bb Db] rest IH]; intros H.
  - reflexivity.
  - rewrite value_all_cons, value_pass_both.
    pose proof (H (Bb, Db) (or_introl eq_refl)) as Hp. cbn [fst] in Hp.
    rewrite Hp, andb_false_r.
    apply IH. intros b Hin. apply H. now right.
Qed.

(** *** Words that end in an equals sign *)

Lemma ci_eqb_equals a b :
  ci_eqb a b = true -> ascii_is a "=" = ascii_is b "=".
Proof.
  intros H. rewrite <- !equals_sign_spec. unfold ci_eqb in *.
  apply N.eqb_eq in H. now rewrite H.
Qed.

Lemma ci_str_nil_r v : ci_str v [] = true -> v = [].
Proof. destruct v; [reflexivity | discriminate]. Qed.

Lemma ci_str_last B : forall v,
  ci_str v B = true -> last_is_equals v = last_is_equals B.
Proof.
  induction B as [|b B IH]; intros [|x v] H; try discriminate.
  - reflexivity.
  - cbn [ci_str] in H. apply andb_prop in H. destruct H as [Hbx Hv].
    cbn [last_is_equals]. destruct B as [|b' B]; destruct v as [|x' v];
      try discriminate.
    + symmetry. now apply ci_eqb_equals.
    + now apply IH.
Qed.

Lemma slash_not_equals x : slash x = true -> ascii_is x "=" = false.
Proof. destruct x as [[] [] [] [] [] [] [] []]; (discriminate || reflexivity). Qed.

Lemma slash_value_last B : forall v,
  slash_value B v = true -> last_is_equals v = last_is_equals B.
Proof.
  induction v as [|x v IH]; intros H; [discriminate|].
  cbn [slash_value] in H. apply orb_prop in H. destruct H as [H | H].
  - apply andb_prop in H. destruct H as [Hx Hv].
    cbn [last_is_equals]. destruct v as [|x' v].
    + destruct B; [|discriminate]. now apply slash_not_equals.
    + now apply ci_str_last.
  - cbn [last_is_equals]. destruct v as [|x' v]; [discriminate|]. now apply IH.
Qed.

(** A value that names an asset ends as the name of the asset does. *)
Lemma path_value_last B v :
  path_value B v = true -> last_is_equals v = last_is_equals B.
Proof.
  unfold path_value. intros H. apply orb_prop in H.
  destruct H as [H | H]; [now apply ci_str_last | now apply slash_value_last].
Qed.

Lemma last_is_equals_snoc y c : last_is_equals (y ++ [c]) = ascii_is c "=".
Proof.
  induction y as [|x y IH]; [reflexivity|].
  cbn [app last_is_equals]. destruct (y ++ [c]) eqn:E; [|exact IH].
  destruct y; discriminate.
Qed.

Lemma attr_eq_last e : attr_eq e = true -> last_is_equals e = true.
Proof.
  unfold attr_eq. intros H. apply orb_prop in H.
  destruct H as [H | H]; now rewrite (ci_str_last _ _ H).
Qed.

Lemma ends_attr_last w : ends_attr w = true -> last_is_equals w = true.
Proof.
  induction w as [|c w IH]; intros H.
  - discriminate.
  - cbn [ends_attr] in H. apply orb_prop in H. destruct H as [H | H].
    + now apply attr_eq_last.
    + cbn [last_is_equals]. destruct w; [discriminate | now apply IH].
Qed.

Lemma ends_attr_app y e : attr_eq e = true -> ends_attr (y ++ e) = true.
Proof.
  intros He. induction y as [|c y IH].
  - now apply attr_eq_ends.
  - cbn [app ends_attr]. rewrite IH. apply orb_true_r.
Qed.

Lemma last_is_equals_app y e :
  last_is_equals e = true -> last_is_equals (y ++ e) = true.
Proof.
  intros He. induction y as [|c y IH]; [exact He|].
  cbn [app last_is_equals]. destruct (y ++ e) eqn:E; [|exact IH].
  destruct y; [|discriminate]. cbn [app] in E. subst e. discriminate.
Qed.

Lemma no_trailing_equals_in (am : assets_map) b w :
  no_trailing_equals am = true -> In b am ->
  last_is_equals w = true -> path_value (fst b) w = false.
Proof.
  intros Ham Hb Hw. unfold no_trailing_equals in Ham.
  rewrite forallb_forall in Ham. specialize (Ham b Hb).
  apply negb_true_iff in Ham.
  destruct (path_value (fst b) w) eqn:E; [|reflexivity].
  apply path_value_last in E. congruence.
Qed.


(** *** From a text to its tokens *)

Lemma flat_app l1 l2 : flat (l1 ++ l2) = flat l1 ++ flat l2.
Proof.
  induction l1 as [|[q w] l1 IH]; [reflexivity|].
  cbn [app flat]. now rewrite IH, <- app_assoc.
Qed.

Lemma well_cut_app l1 l2 :
  well_cut (l1 ++ l2) = well_cut l1 && well_cut l2.
Proof. apply forallb_app. Qed.

Lemma quote_free_app a b :
  quote_free (a ++ b) = quote_free a && quote_free b.
Proof. apply forallb_app. Qed.

(** A quote-free end of a text lies after the last quote. *)
Lemma suffix_after_quote e q r : forall a x,
  quote q = true -> quote_free e = true ->
  a ++ q :: r = x ++ e -> exists x', r = x' ++ e.
Proof.
  induction a as [|c a IH]; intros x Hq He H.
  - destruct x as [|c' x].
    + cbn [app] in H. subst e. cbn [quote_free forallb] in He.
      rewrite not_quote_spec, Hq in He. discriminate.
    + cbn [app] in H. injection H as _ ->. eauto.
  - destruct x as [|c' x].
    + cbn [app] in H. subst e. cbn [quote_free forallb] in He.
      apply andb_prop in He. destruct He as [_ He].
      change (forallb not_quote (a ++ q :: r)) with (quote_free (a ++ q :: r)) in He.
      rewrite quote_free_app in He. apply andb_prop in He. destruct He as [_ He].
      cbn [quote_free forallb] in He. rewrite not_quote_spec, Hq in He. discriminate.
    + cbn [app] in H. injection H as _ H. now apply (IH x).
Qed.

Lemma last_word_suffix e : forall l u x,
  quote_free e = true -> well_cut l = true ->
  u ++ flat l = x ++ e -> exists y, last_word u l = y ++ e.
Proof.
  induction l as [|[q w] l IH]; intros u x He Hl H.
  - cbn [flat] in H. rewrite app_nil_r in H. cbn [last_word]. eauto.
  - destruct (well_cut_cons _ _ _ Hl) as (Hq & _ & Hl').
    cbn [flat] in H. destruct (suffix_after_quote e q _ u x Hq He H) as [x' Hx'].
    cbn [last_word]. now apply (IH w x').
Qed.

Lemma front_last_word : forall l u, exists x, u ++ flat l = x ++ last_word u l.
Proof.
  induction l as [|[q w] l IH]; intros u.
  - exists []. cbn [flat last_word]. now rewrite app_nil_r.
  - destruct (IH w) as [x Hx]. exists (u ++ q :: x).
    cbn [flat last_word]. rewrite Hx, <- app_assoc. reflexivity.
Qed.

Lemma last_word_rewrite_all u : forall (am : assets_map) l,
  last_word u (rewrite_all am u l) = last_word u l.
Proof.
  induction am as [|[B D] rest IH]; intros l.
  - reflexivity.
  - rewrite rewrite_all_cons, IH, !last_word_rewrite. reflexivity.
Qed.

(** The rewriting of a text around one quoted value: the texts before and
    after the value are rewritten on their own, and the value and its
    quotes are what [value_all] makes of them. *)
Lemma inlineReferences_around (am : assets_map) pre attr q v q' post :
  plain_assets am = true ->
  (forall b, In b am -> ends_attr (snd b) = false) ->
  no_trailing_equals am = true ->
  attr_eq (attr ++ ["="%char]) = true ->
  quote q = true -> quote q' = true -> quote_free v = true ->
  ends_attr v = false ->
  exists pre0 post1,
    inlineReferences am (pre ++ attr ++ ["="%char]) = Some (pre0 ++ attr ++ ["="%char]) /\
    inlineReferences am post = Some post1 /\
    inlineReferences am ((pre ++ attr ++ ["="%char]) ++ q :: v ++ q' :: post) =
      Some ((pre0 ++ attr ++ ["="%char]) ++
            (let m := value_all am true (q, v, q') in
             fst (fst m) :: snd (fst m) ++ snd m :: post1)).
Proof.
  intros Hplain Hend Hneq Hattr Hq Hq' Hv Hvend.
  destruct (split_quotes_spec (pre ++ attr ++ ["="%char])) as (Hpre & Hu & Hl1).
  destruct (split_quotes_spec post) as (Hpost & Hw' & Hl2).
  set (u := fst (split_quotes (pre ++ attr ++ ["="%char]))) in *.
  set (l1 := snd (split_quotes (pre ++ attr ++ ["="%char]))) in *.
  set (w' := fst (split_quotes post)) in *.
  set (l2 := snd (split_quotes post)) in *.
  assert (Hlast : exists y, last_word u l1 = y ++ attr ++ ["="%char]).
  { apply (last_word_suffix _ l1 u pre);
      [now apply attr_eq_quote_free | assumption | now symmetry]. }
  destruct Hlast as [y Hy].
  assert (Hhot : ends_attr (last_word u l1) = true)
    by (rewrite Hy; now apply ends_attr_app).
  assert (Hleft : forall b, In b am -> path_value (fst b) (last_word u l1) = false).
  { intros b Hb. apply (no_trailing_equals_in am b); try assumption.
    now apply ends_attr_last. }
  destruct (front_last_word (rewrite_all am u l1) u) as [x Hx].
  rewrite last_word_rewrite_all, Hy in Hx.
  exists (x ++ y), (w' ++ flat (rewrite_all am w' l2)).
  split; [|split].
  - rewrite Hpre at 1.
    rewrite (inlineReferences_tokens am u l1 Hplain Hu Hl1), Hx, <- app_assoc.
    reflexivity.
  - rewrite Hpost at 1. now apply inlineReferences_tokens.
  - assert (Hdoc : (pre ++ attr ++ ["="%char]) ++ q :: v ++ q' :: post =
                   u ++ flat (l1 ++ (q, v) :: (q', w') :: l2)).
    { rewrite flat_app. cbn [flat]. rewrite Hpre at 1. rewrite Hpost at 1.
      rewrite <- !app_assoc. reflexivity. }
    rewrite Hdoc. rewrite inlineReferences_tokens; try assumption.
    + rewrite (rewrite_all_split am l1 u q v q' w' l2 Hleft Hend Hvend), Hhot.
      cbv zeta. rewrite flat_app. cbn [flat].
      rewrite !app_assoc, Hx, <- !app_assoc. reflexivity.
    + rewrite well_cut_app, Hl1. cbn [well_cut forallb fst snd andb].
      rewrite Hq, Hv, Hq', Hw'. exact Hl2.
Qed.


(** *** The claims on reference rewriting *)

(** C1, counterexample.  The asset map holds [logo(1).png] only.  The value
    [LOGO(1).PNG] is not a base name of the map, and yet the attribute is
    rewritten: letters are compared up to case. *)
Lemma C1_other_case_rewritten :
  map_get (str "LOGO(1).PNG") logo_assets = None /\
  inlineReferences logo_assets (str "<img src='LOGO(1).PNG'>") =
    Some (str "<img src=" ++ [dq] ++ logo_data ++ [dq] ++ str ">").
Proof. vm_compute. split; reflexivity. Qed.

(** A reference to an asset can end with the data URL of another asset:
    when the data URL that is inserted ends with a slash and the name of an
    asset that comes later in the map. *)
Lemma chained_reference_takes_other_asset :
  inlineReferences (rev chained_assets) (str "<img src='y'>") =
    Some (str "<img src=" ++ [dq] ++
          str "data:application/octet-stream;base64,AAAA" ++ [dq] ++ str ">").
Proof. vm_compute. reflexivity. Qed.

(** A value that names two assets takes the data URL of the first. *)
Lemma twin_reference_takes_first_asset :
  inlineReferences twin_assets (str "<img src='logo.png'>") =
    Some (str "<img src=" ++ [dq] ++ str "data:image/png;base64,AAAA" ++ [dq] ++
          str ">").
Proof. vm_compute. reflexivity. Qed.

(** C1, as amended.  Take an asset map whose base names hold no quote and
    do not end in an equals sign, whose data URLs hold no quote and no
    dollar sign, and which is closed.  Take a document with a [src] or
    [href] attribute (in any case of letters, with either quote) whose
    value [v] holds no quote.  The text up to the equals sign and the text
    after the closing quote are rewritten as they are on their own.  When
    [v] names an asset (it is the base name, or a path that ends in a slash
    or backslash and the base name, letters compared up to case; the base
    name may hold any character that is special in a pattern) and every
    asset it names has the data URL [D], the value becomes [D] in double
    quotes.  When [v] names no asset and does not end in an attribute name
    and the equals sign, the value and its quotes are left as they are. *)
Theorem C1_references_rewritten (am : assets_map) (pre attr v post : jsstring)
    (q q' : ascii) :
  plain_assets am = true ->
  closed_assets am ->
  no_trailing_equals am = true ->
  attr_eq (attr ++ ["="%char]) = true ->
  quote q = true -> quote q' = true -> quote_free v = true ->
  exists pre0 post1,
    inlineReferences am (pre ++ attr ++ ["="%char]) =
      Some (pre0 ++ attr ++ ["="%char]) /\
    inlineReferences am post = Some post1 /\
    (forall B D,
       In (B, D) am -> path_value B v = true ->
       (forall b, In b am -> path_value (fst b) v = true -> snd b = D) ->
       inlineReferences am (pre ++ attr ++ "="%char :: q :: v ++ q' :: post) =
         Some (pre0 ++ attr ++ "="%char :: dq :: D ++ dq :: post1)) /\
    ((forall b, In b am -> path_value (fst b) v = false) ->
     ends_attr v = false ->
     inlineReferences am (pre ++ attr ++ "="%char :: q :: v ++ q' :: post) =
       Some (pre0 ++ attr ++ "="%char :: q :: v ++ q' :: post1)).
Proof.
  intros Hplain [Hend Hclosed] Hneq Hattr Hq Hq' Hv.
  destruct (inlineReferences_around am pre attr q [] q' post
              Hplain Hend Hneq Hattr Hq Hq' eq_refl eq_refl)
    as (pre0 & post1 & E1 & E2 & _).
  exists pre0, post1. split; [exact E1|]. split; [exact E2|].
  assert (Hshape : pre ++ attr ++ "="%char :: q :: v ++ q' :: post =
                   (pre ++ attr ++ ["="%char]) ++ q :: v ++ q' :: post)
    by (rewrite <- !app_assoc; reflexivity).
  split.
  - intros B D Hin Hname Hunamb.
    assert (Hvend : ends_attr v = false).
    { destruct (ends_attr v) eqn:E; [|reflexivity].
      apply ends_attr_last in E.
      pose proof (no_trailing_equals_in am (B, D) v Hneq Hin E) as Hno.
      cbn [fst] in Hno. congruence. }
    destruct (inlineReferences_around am pre attr q v q' post
                Hplain Hend Hneq Hattr Hq Hq' Hv Hvend)
      as (pre0' & post1' & E1' & E2' & E3).
    rewrite E1 in E1'. injection E1' as E1'.
    rewrite E2 in E2'. injection E2' as <-.
    rewrite Hshape, E3, <- E1'.
    rewrite (value_all_replaced B D q v q' am Hin Hname Hunamb).
    + cbv zeta. cbn [fst snd]. rewrite <- !app_assoc. reflexivity.
    + intros b Hb Hb'. symmetry. now apply (Hclosed (B, D) b).
  - intros Hnone Hvend.
    destruct (inlineReferences_around am pre attr q v q' post
                Hplain Hend Hneq Hattr Hq Hq' Hv Hvend)
      as (pre0' & post1' & E1' & E2' & E3).
    rewrite E1 in E1'. injection E1' as E1'.
    rewrite E2 in E2'. injection E2' as <-.
    rewrite Hshape, E3, <- E1'.
    rewrite (value_all_unchanged true (q, v, q') am Hnone).
    cbv zeta. cbn [fst snd]. rewrite <- !app_assoc. reflexivity.
Qed.

Lemma C1_references_rewritten_witness :
  exists pre0 post1,
    inlineReferences logo_assets (str "<p><img " ++ str "src" ++ ["="%char]) =
      Some (pre0 ++ str "src" ++ ["="%char]) /\
    inlineReferences logo_assets (str "></p>") = Some post1 /\
    inlineReferences logo_assets
      (str "<p><img " ++ str "src" ++ "="%char :: sq :: str "img/logo(1).png" ++
       sq :: str "></p>") =
      Some (pre0 ++ str "src" ++ "="%char :: dq :: logo_data ++ dq :: post1).
Proof.
  destruct (C1_references_rewritten logo_assets (str "<p><img ") (str "src")
              (str "img/logo(1).png") (str "></p>") sq sq)
    as (pre0 & post1 & E1 & E2 & Hrep & _).
  - reflexivity.
  - exact logo_assets_closed.
  - reflexivity.
  - reflexivity.
  - reflexivity.
  - reflexivity.
  - reflexivity.
  - exists pre0, post1. split; [exact E1|]. split; [exact E2|].
    apply (Hrep (str "logo(1).png") logo_data).
    + now left.
    + reflexivity.
    + intros b [<- | []] _. reflexivity.
Defined.

(** C2, counterexample.  The reference [LOGO.PNG] differs from the base
    name [logo.png] in the case of letters only, and it is replaced. *)
Lemma C2_other_case_replaced :
  inlineReferences [(str "logo.png", logo_data)] (str "<img src='LOGO.PNG'>") =
    Some (str "<img src=" ++ [dq] ++ logo_data ++ [dq] ++ str ">").
Proof. vm_compute. reflexivity. Qed.

Lemma rewrite_all_nil (am : assets_map) u : rewrite_all am u [] = [].
Proof.
  induction am as [|[B D] am IH]; [reflexivity|].
  rewrite rewrite_all_cons. exact IH.
Qed.

(** A text without quotes is left as it is. *)
Lemma quote_free_unchanged (am : assets_map) s :
  plain_assets am = true -> quote_free s = true ->
  inlineReferences am s = Some s.
Proof.
  intros Hp Hs.
  pose proof (inlineReferences_tokens am s [] Hp Hs eq_refl) as H.
  cbn [flat] in H. rewrite rewrite_all_nil in H. cbn [flat] in H.
  now rewrite app_nil_r in H.
Qed.

Lemma sheet_assets_closed : closed_assets Terms.sheet_assets.
Proof.
  split.
  - intros a [<- | [<- | []]]; reflexivity.
  - intros a b [<- | [<- | []]] [<- | [<- | []]] H; try reflexivity;
      vm_compute in H; discriminate.
Qed.

(** C2, as amended.  Matching is not sensitive to the case of letters.
    Take an asset map whose base names hold no quote and do not end in an
    equals sign, whose data URLs hold no quote and no dollar sign, and which
    is closed; take an asset [(B, D)] of the map and a value [B'] that is
    [B] up to the case of letters, such that every asset the value names
    has the data URL [D].  In every document, a [src] or [href] attribute
    (in any case of letters, with either quote) with the value [B'] is
    replaced by the attribute with [D] in double quotes; the text up to the
    equals sign and the text after the closing quote are rewritten as they
    are on their own, and are unchanged when they hold no quote. *)
Theorem C2_case_insensitive (am : assets_map) (B D B' pre attr post : jsstring)
    (q q' : ascii) :
  plain_assets am = true ->
  closed_assets am ->
  no_trailing_equals am = true ->
  In (B, D) am ->
  ci_str B' B = true ->
  (forall b, In b am -> path_value (fst b) B' = true -> snd b = D) ->
  attr_eq (attr ++ ["="%char]) = true ->
  quote q = true -> quote q' = true ->
  exists pre0 post1,
    inlineReferences am (pre ++ attr ++ ["="%char]) =
      Some (pre0 ++ attr ++ ["="%char]) /\
    inlineReferences am post = Some post1 /\
    inlineReferences am (pre ++ attr ++ "="%char :: q :: B' ++ q' :: post) =
      Some (pre0 ++ attr ++ "="%char :: dq :: D ++ dq :: post1) /\
    (quote_free pre = true -> pre0 = pre) /\
    (quote_free post = true -> post1 = post).
Proof.
  intros Hplain [Hend Hclosed] Hneq Hin Hci Hunamb Hattr Hq Hq'.
  assert (HB : quote_free B = true).
  { unfold plain_assets in Hplain. rewrite forallb_forall in Hplain.
    now destruct (plain_asset_inv _ _ (Hplain _ Hin)). }
  assert (Hv : quote_free B' = true) by exact (ci_str_quote_free B B' Hci HB).
  assert (Hname : path_value B B' = true)
    by (unfold path_value; now rewrite Hci).
  assert (Hvend : ends_attr B' = false).
  { destruct (ends_attr B') eqn:E; [|reflexivity].
    apply ends_attr_last in E.
    pose proof (no_trailing_equals_in am (B, D) B' Hneq Hin E) as Hno.
    cbn [fst] in Hno. congruence. }
  destruct (inlineReferences_around am pre attr q B' q' post
              Hplain Hend Hneq Hattr Hq Hq' Hv Hvend)
    as (pre0 & post1 & E1 & E2 & E3).
  exists pre0, post1. split; [exact E1|]. split; [exact E2|]. split; [|split].
  - assert (Hshape : pre ++ attr ++ "="%char :: q :: B' ++ q' :: post =
                     (pre ++ attr ++ ["="%char]) ++ q :: B' ++ q' :: post)
      by (rewrite <- !app_assoc; reflexivity).
    rewrite Hshape, E3.
    rewrite (value_all_replaced B D q B' q' am Hin Hname Hunamb).
    + cbv zeta. cbn [fst snd]. rewrite <- !app_assoc. reflexivity.
    + intros b Hb Hb'. symmetry. now apply (Hclosed (B, D) b).
  - intros Hpre.
    assert (Hu : quote_free (pre ++ attr ++ ["="%char]) = true).
    { rewrite quote_free_app, Hpre. now apply attr_eq_quote_free. }
    rewrite (quote_free_unchanged am _ Hplain Hu) in E1.
    injection E1 as E1. apply app_inv_tail in E1. now symmetry.
  - intros Hpost. rewrite (quote_free_unchanged am _ Hplain Hpost) in E2.
    now injection E2.
Qed.

Lemma C2_case_insensitive_witness :
  inlineReferences Terms.sheet_assets
    (str "<link " ++ str "HREF" ++ "="%char :: sq :: str "Style.CSS" ++ sq ::
     str "><img src='logo.png'>") =
  Some (str "<link " ++ str "HREF" ++ "="%char :: dq ::
        str "data:text/css;base64,Ym9keXt9" ++ dq ::
        str "><img src=" ++ [dq] ++ logo_data ++ [dq] ++ str ">").
Proof.
  destruct (C2_case_insensitive Terms.sheet_assets (str "style.css")
              (str "data:text/css;base64,Ym9keXt9") (str "Style.CSS")
              (str "<link ") (str "HREF") (str "><img src='logo.png'>") sq sq)
    as (pre0 & post1 & E1 & E2 & E3 & Hpre & _).
  - reflexivity.
  - exact sheet_assets_closed.
  - reflexivity.
  - right. now left.
  - reflexivity.
  - intros b [<- | [<- | []]] H; [vm_compute in H; discriminate|reflexivity].
  - reflexivity.
  - reflexivity.
  - reflexivity.
  - rewrite E3, (Hpre eq_refl).
    assert (E : inlineReferences Terms.sheet_assets (str "><img src='logo.png'>") =
                Some (str "><img src=" ++ [dq] ++ logo_data ++ [dq] ++ str ">"))
      by (vm_compute; reflexivity).
    rewrite E in E2. injection E2 as <-. reflexivity.
Defined.

End RewriteFacts.

(** ** The collection as a map *)

Module MapFacts.
Import Zip App.

Lemma str_eqb_eq a b : str_eqb a b = true <-> a = b.
Proof.
  unfold str_eqb. destruct (list_eq_dec ascii_dec a b); split; congruence.
Qed.

Lemma str_eqb_refl a : str_eqb a a = true.
Proof. now apply str_eqb_eq. Qed.

Lemma str_eqb_neq a b : str_eqb a b = false <-> a <> b.
Proof.
  unfold str_eqb. destruct (list_eq_dec ascii_dec a b); split; congruence.
Qed.

Section Maps.
Context {V : Type}.
Implicit Types (m : jsmap V) (k : jsstring) (v : V).

Lemma map_get_set_same k v m : map_get k (map_set k v m) = Some v.
Proof.
  induction m as [|[k' v'] m IH]; cbn.
  - now rewrite str_eqb_refl.
  - destruct (str_eqb k' k) eqn:E; cbn.
    + now rewrite str_eqb_refl.
    + now rewrite E.
Qed.

Lemma map_get_set_other k k' v m :
  k' <> k -> map_get k' (map_set k v m) = map_get k' m.
Proof.
  intros Hne. induction m as [|[k1 v1] m IH]; cbn.
  - destruct (str_eqb k k') eqn:E; [|reflexivity].
    apply str_eqb_eq in E. congruence.
  - destruct (str_eqb k1 k) eqn:E; cbn.
    + apply str_eqb_eq in E. subst k1.
      destruct (str_eqb k k') eqn:E'; [|reflexivity].
      apply str_eqb_eq in E'. congruence.
    + now rewrite IH.
Qed.

Lemma map_get_In k m : map_get k m <> None <-> In k (map_keys m).
Proof.
  induction m as [|[k1 v1] m IH]; cbn.
  - tauto.
  - destruct (str_eqb k1 k) eqn:E.
    + apply str_eqb_eq in E. split; [auto|discriminate].
    + apply str_eqb_neq in E. rewrite IH. tauto.
Qed.

Lemma map_get_Some_In k v m : map_get k m = Some v -> In (k, v) m.
Proof.
  induction m as [|[k1 v1] m IH]; cbn; [discriminate|].
  destruct (str_eqb k1 k) eqn:E.
  - apply str_eqb_eq in E. intros [= ->]. left. now subst.
  - auto.
Qed.

(** A new key goes to the end; a key that is present keeps its place. *)
Lemma map_keys_set k v m :
  map_keys (map_set k v m) =
  match map_get k m with
  | Some _ => map_keys m
  | None => map_keys m ++ [k]
  end.
Proof.
  induction m as [|[k1 v1] m IH]; cbn; [reflexivity|].
  destruct (str_eqb k1 k) eqn:E; cbn.
  - apply str_eqb_eq in E. now subst.
  - unfold map_keys in IH. rewrite IH. now destruct (map_get k m).
Qed.

Lemma map_set_In k k' v m :
  In k' (map_keys (map_set k v m)) <-> k' = k \/ In k' (map_keys m).
Proof.
  rewrite map_keys_set. destruct (map_get k m) eqn:E.
  - split; [auto|]. intros [->|H]; [|exact H].
    apply map_get_In. congruence.
  - rewrite in_app_iff. cbn. intuition.
Qed.

Lemma map_set_NoDup k v m :
  NoDup (map_keys m) -> NoDup (map_keys (map_set k v m)).
Proof.
  intros H. rewrite map_keys_set. destruct (map_get k m) eqn:E; [exact H|].
  apply NoDup_app; [exact H|repeat constructor; auto|].
  intros x Hx [<-|[]]. apply map_get_In in Hx. congruence.
Qed.

Lemma map_set_Forall (P : jsstring * V -> Prop) k v m :
  P (k, v) -> Forall P m -> Forall P (map_set k v m).
Proof.
  intros Hk. induction 1 as [|[k1 v1] m H1 H IH]; cbn.
  - now constructor.
  - destruct (str_eqb k1 k); constructor; auto.
Qed.

Lemma map_keys_delete k m :
  map_keys (map_delete k m) =
  filter (fun k' => negb (str_eqb k' k)) (map_keys m).
Proof.
  unfold map_delete, map_keys.
  induction m as [|[k1 v1] m IH]; cbn; [reflexivity|].
  destruct (str_eqb k1 k); cbn; now rewrite IH.
Qed.

Lemma map_get_delete_same k m : map_get k (map_delete k m) = None.
Proof.
  destruct (map_get k (map_delete k m)) eqn:E; [|reflexivity].
  assert (H : In k (map_keys (map_delete k m))) by (apply map_get_In; congruence).
  rewrite map_keys_delete in H. apply filter_In in H.
  rewrite str_eqb_refl in H. now destruct H.
Qed.

Lemma map_get_delete_other k k' m :
  k' <> k -> map_get k' (map_delete k m) = map_get k' m.
Proof.
  intros Hne. unfold map_delete.
  induction m as [|[k1 v1] m IH]; cbn; [reflexivity|].
  destruct (str_eqb k1 k) eqn:E; cbn.
  - apply str_eqb_eq in E. subst k1.
    destruct (str_eqb k k') eqn:E'; [|exact IH].
    apply str_eqb_eq in E'. congruence.
  - now rewrite IH.
Qed.

End Maps.

End MapFacts.

(** ** Names and the file name *)

Module NameFacts.
Import Detect Terms App.

(** *** Numbers as text *)

Lemma uint_digits d : forallb is_digit (str (NilEmpty.string_of_uint d)) = true.
Proof.
  induction d; cbn [NilEmpty.string_of_uint str list_ascii_of_string forallb]; auto.
Qed.

Lemma numberToString_digits n :
  exists c ds, numberToString n = c :: ds /\ forallb is_digit (c :: ds) = true.
Proof.
  unfold numberToString.
  destruct (str (NilZero.string_of_uint (N.to_uint n))) as [|c ds] eqn:E.
  - exfalso. unfold NilZero.string_of_uint in E.
    destruct (N.to_uint n); discriminate.
  - exists c, ds. split; [reflexivity|]. rewrite <- E.
    unfold NilZero.string_of_uint. destruct (N.to_uint n) eqn:En;
      try (rewrite <- En; apply uint_digits); reflexivity.
Qed.




(** *** The matcher: repetition and search *)

Lemma star_zero p s caps k : k s caps <> None -> star p s caps k <> None.
Proof.
  intros H. destruct s as [|c s]; cbn; [exact H|].
  destruct (p c); [|exact H].
  destruct (star p s caps k); cbn; [discriminate|exact H].
Qed.

Lemma star_prefix p u : forall rest caps k,
  forallb p u = true ->
  star p rest caps k <> None -> star p (u ++ rest) caps k <> None.
Proof.
  induction u as [|c u IH]; intros rest caps k Hu H; [exact H|].
  cbn in Hu. apply andb_prop in Hu as [Hc Hu].
  cbn. rewrite Hc. specialize (IH rest caps k Hu H).
  destruct (star p (u ++ rest) caps k); [discriminate|congruence].
Qed.

(** A greedy repetition takes the whole run when the rest then matches. *)
Lemma star_greedy p u : forall rest caps k r,
  forallb p u = true -> stops p rest = true ->
  k rest caps = Some r -> star p (u ++ rest) caps k = Some r.
Proof.
  induction u as [|c u IH]; intros rest caps k r Hu Hstop Hk.
  - cbn [app]. destruct rest as [|c rest]; cbn [star]; [exact Hk|].
    cbn in Hstop. apply negb_true_iff in Hstop. now rewrite Hstop.
  - cbn in Hu. apply andb_prop in Hu as [Hc Hu].
    cbn [app star]. rewrite Hc. now rewrite (IH rest caps k r Hu Hstop Hk).
Qed.

Lemma star_sound p s : forall caps k r,
  star p s caps k = Some r ->
  exists u rest, s = u ++ rest /\ forallb p u = true /\ k rest caps = Some r.
Proof.
  induction s as [|c s IH]; intros caps k r H.
  - exists [], []. auto.
  - cbn [star] in H. destruct (p c) eqn:Ec.
    + destruct (star p s caps k) as [r'|] eqn:E.
      * cbn in H. injection H as <-.
        destruct (IH _ _ _ E) as (u & rest & -> & Hu & Hk).
        exists (c :: u), rest. cbn. rewrite Ec, Hu. auto.
      * cbn in H. exists [], (c :: s). auto.
    + exists [], (c :: s). auto.
Qed.

Lemma star_none p s : forall caps k,
  (forall u rest, s = u ++ rest -> forallb p u = true -> k rest caps = None) ->
  star p s caps k = None.
Proof.
  intros caps k H. destruct (star p s caps k) as [r|] eqn:E; [|reflexivity].
  destruct (star_sound _ _ _ _ _ E) as (u & rest & Hs & Hu & Hk).
  rewrite (H u rest Hs Hu) in Hk. discriminate.
Qed.

(** A search finds a match when an attempt succeeds somewhere. *)
Lemma search_complete r pre : forall t before,
  exec_at r t <> None -> search_from r before (pre ++ t) <> None.
Proof.
  induction pre as [|c pre IH]; intros t before H.
  - cbn [app]. destruct t; cbn [search_from];
      destruct (exec_at r _) as [[rest caps]|]; congruence.
  - cbn [app search_from].
    destruct (exec_at r (c :: pre ++ t)) as [[rest caps]|]; [discriminate|].
    now apply IH.
Qed.

(** A search passes over a prefix in which every attempt fails. *)
Lemma search_skip r tail base : forall before,
  (forall p c t, base = p ++ c :: t -> exec_at r ((c :: t) ++ tail) = None) ->
  search_from r before (base ++ tail) = search_from r (before ++ base) tail.
Proof.
  induction base as [|c base IH]; intros before H.
  - cbn [app]. now rewrite app_nil_r.
  - pose proof (H [] c base eq_refl) as H0. cbn [app] in H0.
    cbn [app search_from]. rewrite H0.
    rewrite IH.
    + now rewrite <- app_assoc.
    + intros p c' t ->. apply (H (c :: p) c' t). reflexivity.
Qed.


Lemma ascii_is_eq a b : ascii_is a b = true <-> a = b.
Proof. unfold ascii_is. apply Ascii.eqb_eq. Qed.

Lemma startsWith_iff p : forall s,
  startsWith s p = true <-> exists t, s = p ++ t.
Proof.
  induction p as [|a p IH]; intros s.
  - split; [intros _; now exists s|intros _; now destruct s].
  - destruct s as [|b s]; cbn.
    + split; [discriminate|intros [t H]; discriminate].
    + rewrite andb_true_iff, ascii_is_eq, IH. split.
      * intros [-> [t ->]]. now exists t.
      * intros [t [= -> ->]]. split; [reflexivity|now exists t].
Qed.

Lemma endsWith_iff s p : endsWith s p = true <-> exists b, s = b ++ p.
Proof.
  unfold endsWith. rewrite startsWith_iff. split.
  - intros [t H]. exists (rev t).
    rewrite <- (rev_involutive s), H, rev_app_distr. now rewrite rev_involutive.
  - intros [b ->]. exists (rev b). apply rev_app_distr.
Qed.

(** *** Dimensions in the name *)

Lemma hasDims_here c ds c' ds' tail :
  forallb is_digit (c :: ds) = true ->
  forallb is_digit (c' :: ds') = true ->
  exec_at re_hasDims ((c :: ds) ++ [times_sign] ++ (c' :: ds') ++ tail) <> None.
Proof.
  intros H1 H2. cbn in H1, H2.
  apply andb_prop in H1 as [Hc Hds]. apply andb_prop in H2 as [Hc' Hds'].
  unfold exec_at, re_hasDims, digits, spaces, Plus. cbn [seqs rmatch app].
  rewrite Hc. apply star_prefix; [exact Hds|]. apply star_zero.
  apply star_zero. cbn [rmatch].
  replace (by_sign times_sign) with true by reflexivity.
  apply star_zero. rewrite Hc'.
  apply star_prefix; [exact Hds'|]. apply star_zero. discriminate.
Qed.

Lemma sizeLabel_hasDims d tail :
  exec_at re_hasDims (sizeLabel d ++ tail) <> None.
Proof.
  unfold sizeLabel.
  destruct (numberToString_digits (fst d)) as (c & ds & -> & H1).
  destruct (numberToString_digits (snd d)) as (c' & ds' & -> & H2).
  rewrite <- !app_assoc. now apply hasDims_here.
Qed.

Lemma withDims_nonempty nm d : withDims nm d <> [].
Proof.
  unfold withDims. destruct nm as [|c nm].
  - unfold sizeLabel. destruct (numberToString (fst d)); discriminate.
  - destruct (js_match re_hasDims (c :: nm)); discriminate.
Qed.

Lemma withDims_carries_dims nm d : js_match re_hasDims (withDims nm d) <> None.
Proof.
  unfold withDims. destruct nm as [|c nm].
  - unfold js_match. rewrite <- (app_nil_r (sizeLabel d)).
    apply (search_complete re_hasDims []). apply sizeLabel_hasDims.
  - destruct (js_match re_hasDims (c :: nm)) eqn:E; [congruence|].
    unfold js_match. rewrite app_assoc.
    apply search_complete. apply sizeLabel_hasDims.
Qed.

(** X1.  For every document and file name for which the detected width
    and height are safe integers, the name that [detectDimensions] returns
    is not empty and holds a dimension pair: the pattern of the last step,
    digits, a by-sign, digits, finds a match in it. *)
Theorem name_carries_dimensions html filename :
  safe_integer (width (detectDimensions html filename)) ->
  safe_integer (height (detectDimensions html filename)) ->
  name (detectDimensions html filename) <> [] /\
  js_match re_hasDims (name (detectDimensions html filename)) <> None.
Proof.
  intros _ _. unfold detectDimensions, detectName. cbn [name].
  split; [apply withDims_nonempty|apply withDims_carries_dims].
Qed.

Lemma name_carries_dimensions_witness :
  name (detectDimensions titled_doc (str "index.html")) <> [] /\
  js_match re_hasDims (name (detectDimensions titled_doc (str "index.html")))
    <> None.
Proof.
  apply (name_carries_dimensions titled_doc (str "index.html")).
  - apply N.leb_le. vm_compute. reflexivity.
  - apply N.leb_le. vm_compute. reflexivity.
Defined.

(** X2.  The last step of the name inference is idempotent: a name that
    has been through it, with dimensions that are safe integers, is left as
    it is by a second application, whatever the dimensions of the second;
    the dimensions are never appended twice. *)
Theorem withDims_idempotent nm d d' :
  safe_integer (fst d) -> safe_integer (snd d) ->
  withDims (withDims nm d) d' = withDims nm d.
Proof.
  intros _ _.
  pose proof (withDims_carries_dims nm d) as H.
  pose proof (withDims_nonempty nm d) as Hne.
  unfold withDims at 1.
  destruct (withDims nm d) as [|a l] eqn:E; [congruence|].
  destruct (js_match re_hasDims (a :: l)); congruence.
Qed.

Lemma withDims_idempotent_witness :
  withDims (withDims (str "Summer sale") (300, 250)%N) (728, 90)%N =
  withDims (str "Summer sale") (300, 250)%N.
Proof.
  apply (withDims_idempotent (str "Summer sale") (300, 250)%N (728, 90)%N).
  - apply N.leb_le. reflexivity.
  - apply N.leb_le. reflexivity.
Defined.

(** *** The cleaned file name *)

Lemma exec_htmlExt s :
  exec_at re_htmlExt s =
  if list_eq_dec ascii_dec s (str ".html") then Some ([], []) else None.
Proof.
  unfold exec_at, re_htmlExt, lit_s. cbn [seqs str list_ascii_of_string lit rmatch].
  destruct (list_eq_dec ascii_dec s _) as [->|Hne]; [reflexivity|].
  destruct s as [|c1 s]; [reflexivity|].
  destruct (ascii_is "." c1) eqn:E1; [apply ascii_is_eq in E1; subst|reflexivity].
  destruct s as [|c2 s]; [reflexivity|].
  destruct (ascii_is "h" c2) eqn:E2; [apply ascii_is_eq in E2; subst|reflexivity].
  destruct s as [|c3 s]; [reflexivity|].
  destruct (ascii_is "t" c3) eqn:E3; [apply ascii_is_eq in E3; subst|reflexivity].
  destruct s as [|c4 s]; [reflexivity|].
  destruct (ascii_is "m" c4) eqn:E4; [apply ascii_is_eq in E4; subst|reflexivity].
  destruct s as [|c5 s]; [reflexivity|].
  destruct (ascii_is "l" c5) eqn:E5; [apply ascii_is_eq in E5; subst|reflexivity].
  destruct s as [|c6 s]; [congruence|reflexivity].
Qed.

Lemma search_htmlExt s : forall before,
  search_from re_htmlExt before s =
  if endsWith s (str ".html")
  then Some (MatchResult (before ++ firstn (length s - 5) s) (str ".html") [] [])
  else None.
Proof.
  induction s as [|c s IH]; intros before; [reflexivity|].
  cbn [search_from]. rewrite exec_htmlExt.
  destruct (list_eq_dec ascii_dec (c :: s) (str ".html")) as [E|Hne].
  - rewrite E. cbn. now rewrite app_nil_r.
  - rewrite IH.
    destruct (endsWith (c :: s) (str ".html")) eqn:E1.
    + apply endsWith_iff in E1 as [b Hb].
      destruct b as [|c' b]; [cbn [app] in Hb; congruence|].
      cbn [app] in Hb.
      assert (Hs : s = b ++ str ".html") by congruence.
      clear Hb. subst s.
      assert (E2 : endsWith (b ++ str ".html") (str ".html") = true)
        by (apply endsWith_iff; now exists b).
      rewrite E2. f_equal. f_equal. rewrite <- app_assoc. f_equal.
      cbn [app length]. rewrite !length_app. cbn [length str list_ascii_of_string].
      replace (S (length b + 5) - 5) with (S (length b)) by lia.
      replace (length b + 5 - 5) with (length b) by lia.
      reflexivity.
    + destruct (endsWith s (str ".html")) eqn:E2; [|reflexivity].
      apply endsWith_iff in E2 as [b ->].
      assert (endsWith (c :: b ++ str ".html") (str ".html") = true)
        by (apply endsWith_iff; now exists (c :: b)).
      congruence.
Qed.

Lemma replace_htmlExt s :
  replace_first re_htmlExt [] s =
  if endsWith s (str ".html") then firstn (length s - 5) s else s.
Proof.
  unfold replace_first, js_match. rewrite search_htmlExt.
  destruct (endsWith s (str ".html")); [|reflexivity].
  cbn. now rewrite app_nil_r.
Qed.

Lemma replace_sep s : forall before,
  replace_scan re_sep (str " ") before s 0 = map sep_to_space s.
Proof.
  induction s as [|c s IH]; intros before; [reflexivity|].
  pose proof (ZipFacts.exec_at_Chr (cset ["_"%char; "-"%char]) (c :: s)) as E.
  fold re_sep in E. cbn [map]. unfold sep_to_space at 1.
  cbv beta iota in E.
  destruct (cset ["_"%char; "-"%char] c).
  - change (c :: s) with ([c] ++ s) at 1.
    rewrite (RewriteFacts.scan_hit re_sep (str " ") before [] c s [] E).
    rewrite RewriteFacts.GetSubstitution_plain by reflexivity.
    cbn [str list_ascii_of_string app]. f_equal. apply IH.
  - rewrite (RewriteFacts.scan_miss re_sep (str " ") before c s E).
    f_equal. apply IH.
Qed.

(** X3.  The two replacements that clean the file name amount to this: the
    last five units are dropped when the name ends in [.html] (in lower
    case), and every underscore and hyphen of what is left becomes a
    blank; nothing else changes. *)
Theorem cleanFilename_spec filename :
  cleanFilename filename =
  map sep_to_space
    (if endsWith filename (str ".html")
     then firstn (length filename - 5) filename
     else filename).
Proof.
  unfold cleanFilename, replace_all. now rewrite replace_htmlExt, replace_sep.
Qed.

(** *** Dimensions in the file name *)








(** *** The name above the preview *)

Ltac norm_app := repeat progress (rewrite <- ?app_assoc; cbn [app]).

Lemma digit_not_space c : is_digit c = true -> is_space c = false.
Proof.
  destruct c as [[] [] [] [] [] [] [] []]; vm_compute; congruence.
Qed.

Lemma digits_no_space ds : forall x,
  forallb is_digit ds = true -> In x ds -> is_space x = false.
Proof.
  intros x H Hx. apply digit_not_space.
  now apply (proj1 (forallb_forall _ _) H).
Qed.

Lemma parens_no_space ds ds' :
  forallb is_digit ds = true -> forallb is_digit ds' = true ->
  forallb (fun x => negb (is_space x))
    ("("%char :: ds ++ times_sign :: ds' ++ [")"%char]) = true.
Proof.
  intros H1 H2.
  assert (Hd : forall l, forallb is_digit l = true ->
                 forallb (fun x => negb (is_space x)) l = true).
  { intros l Hl. apply forallb_forall. intros x Hx.
    now rewrite (digits_no_space l x Hl Hx). }
  cbn [forallb]. rewrite forallb_app. cbn [forallb]. rewrite forallb_app.
  now rewrite (Hd ds H1), (Hd ds' H2).
Qed.

Lemma times_spec c : cset [times_sign] c = true -> c = times_sign.
Proof.
  unfold cset. cbn [existsb]. rewrite orb_false_r. apply ascii_is_eq.
Qed.

(** What [re_parens] matches: a parenthesis, digits, the sign, digits, a
    parenthesis. *)
Lemma parens_sound s r :
  rmatch re_parens s [] k0 = Some r ->
  exists c ds c' ds' rest,
    s = "("%char :: (c :: ds) ++ times_sign :: (c' :: ds') ++ ")"%char :: rest /\
    forallb is_digit (c :: ds) = true /\ forallb is_digit (c' :: ds') = true.
Proof.
  unfold re_parens, lit_s, digits, Plus.
  cbn [seqs str list_ascii_of_string lit rmatch].
  destruct s as [|a s]; [discriminate|].
  destruct (ascii_is "(" a) eqn:Ea; [|discriminate]. apply ascii_is_eq in Ea. subst a.
  destruct s as [|c s]; [discriminate|].
  destruct (is_digit c) eqn:Ec; [|discriminate].
  intros H. apply star_sound in H as (ds & s1 & -> & Hds & H).
  destruct s1 as [|x s1]; [discriminate|].
  destruct (cset [times_sign] x) eqn:Ex; [|discriminate].
  apply times_spec in Ex. subst x.
  destruct s1 as [|c' s1]; [discriminate|].
  destruct (is_digit c') eqn:Ec'; [|discriminate].
  apply star_sound in H as (ds' & s2 & -> & Hds' & H).
  destruct s2 as [|y s2]; [discriminate|].
  destruct (ascii_is ")" y) eqn:Ey; [|discriminate]. apply ascii_is_eq in Ey. subst y.
  exists c, ds, c', ds', s2. cbn [forallb]. rewrite Ec, Ec', Hds, Hds'. auto.
Qed.

Lemma exec_nameDims s :
  exec_at re_nameDims s = star is_space s [] (fun s1 c1 => rmatch re_parens s1 c1 k0).
Proof. reflexivity. Qed.

(** The pattern of the header matches the suffix that [withDims] appends. *)
Lemma suffix_matches d :
  exec_at re_nameDims (str " (" ++ sizeLabel d ++ str ")") = Some ([], []).
Proof.
  rewrite exec_nameDims. unfold sizeLabel.
  destruct (numberToString_digits (fst d)) as (c & ds & -> & H1).
  destruct (numberToString_digits (snd d)) as (c' & ds' & -> & H2).
  cbn in H1, H2.
  apply andb_prop in H1 as [Hc Hds]. apply andb_prop in H2 as [Hc' Hds'].
  rewrite <- !app_assoc.
  change (str " (" ++ (c :: ds) ++ [times_sign] ++ (c' :: ds') ++ str ")")
    with ([" "%char] ++ "("%char :: c :: ds ++ times_sign :: c' :: ds' ++ str ")").
  apply star_greedy; [reflexivity|reflexivity|].
  unfold re_parens, lit_s, digits, Plus.
  cbn [seqs str list_ascii_of_string lit rmatch app].
  replace (ascii_is "(" "(") with true by reflexivity. rewrite Hc.
  apply star_greedy; [exact Hds|reflexivity|].
  replace (cset [times_sign] times_sign) with true by reflexivity. rewrite Hc'.
  apply star_greedy; [exact Hds'|reflexivity|].
  reflexivity.
Qed.

(** In a name without a dimension pair that does not end in white space, the
    pattern of the header matches nowhere before the appended suffix. *)
Lemma no_dims_inside b z d p c t :
  is_space z = false ->
  js_match re_hasDims (b ++ [z]) = None ->
  b ++ [z] = p ++ c :: t ->
  exec_at re_nameDims ((c :: t) ++ str " (" ++ sizeLabel d ++ str ")") = None.
Proof.
  intros Hz Hnone Hsplit. rewrite exec_nameDims. apply star_none.
  intros u rest Hs Hu.
  destruct (rmatch re_parens rest [] k0) as [r|] eqn:E; [exfalso|reflexivity].
  apply parens_sound in E as (c1 & ds & c2 & ds' & rest' & -> & H1 & H2).
  set (tailS := str " (" ++ sizeLabel d ++ str ")") in *.
  assert (Hinside : forall q l2, b ++ [z] =
            q ++ "("%char :: (c1 :: ds) ++ times_sign :: (c2 :: ds') ++ l2 -> False).
  { intros q l2 Hq.
    assert (Hsome : js_match re_hasDims (b ++ [z]) <> None); [|congruence].
    unfold js_match. rewrite Hq.
    change (q ++ "("%char :: (c1 :: ds) ++ times_sign :: (c2 :: ds') ++ l2)
      with (q ++ ["("%char] ++ (c1 :: ds) ++ [times_sign] ++ (c2 :: ds') ++ l2).
    rewrite app_assoc. apply search_complete. now apply hasDims_here. }
  apply app_eq_app in Hs as [l [[Ht Hrest]|[Hu' Htail]]].
  - (* the parenthesis opens inside the name *)
    set (P := "("%char :: (c1 :: ds) ++ times_sign :: (c2 :: ds') ++ [")"%char]).
    assert (HP : "("%char :: (c1 :: ds) ++ times_sign :: (c2 :: ds') ++ ")"%char :: rest'
                 = P ++ rest').
    { unfold P. norm_app. reflexivity. }
    rewrite HP in Hrest. symmetry in Hrest.
    apply app_eq_app in Hrest as [l2 [[Hl Hr]|[HPl Htl]]].
    + (* and closes inside it *)
      apply (Hinside (p ++ u) (")"%char :: l2)).
      rewrite Hsplit, Ht, Hl. unfold P. norm_app. reflexivity.
    + (* or runs over the blank before the appended parenthesis *)
      destruct l2 as [|x l2].
      * apply (Hinside (p ++ u) [")"%char]).
        rewrite Hsplit, Ht. rewrite app_nil_r in HPl. rewrite <- HPl.
        unfold P. norm_app. reflexivity.
      * assert (x = " "%char) by (unfold tailS in Htl; cbn in Htl; congruence).
        subst x.
        assert (Hin : In " "%char P) by (rewrite HPl; apply in_or_app; right; now left).
        pose proof (parens_no_space _ _ H1 H2) as Hns. fold P in Hns.
        pose proof (proj1 (forallb_forall _ _) Hns _ Hin) as Hsp. discriminate.
  - (* the white space would run to the end of the name *)
    assert (Hlast : exists t0, c :: t = t0 ++ [z]).
    { destruct (exists_last (l := c :: t)) as (t0 & y & Hy); [discriminate|].
      exists t0. rewrite Hy in Hsplit |- *. rewrite app_assoc in Hsplit.
      apply app_inj_tail in Hsplit as [_ ->]. reflexivity. }
    destruct Hlast as [t0 Ht0]. rewrite Ht0 in Hu'. subst u.
    rewrite !forallb_app in Hu. cbn in Hu. rewrite Hz in Hu.
    rewrite andb_false_r in Hu. cbn in Hu. rewrite ?andb_false_r in Hu. discriminate.
Qed.

(** X5.  The header of the preview undoes what the name inference adds: for
    a name that holds no dimension pair and does not end in white space,
    and dimensions that are safe integers, the replacement of the header
    applied to the name with its appended dimensions gives the name
    back. *)
Theorem header_strips_dims b z d :
  safe_integer (fst d) -> safe_integer (snd d) ->
  is_space z = false ->
  js_match re_hasDims (b ++ [z]) = None ->
  headerName (withDims (b ++ [z]) d) = b ++ [z].
Proof.
  intros _ _ Hz Hnone. unfold withDims.
  destruct (b ++ [z]) as [|c nm] eqn:Eb; [now destruct b|].
  rewrite Hnone. rewrite <- Eb in *.
  unfold headerName, replace_first, js_match.
  rewrite (search_skip re_nameDims).
  - cbn [app]. destruct (str " (" ++ sizeLabel d ++ str ")") as [|x tl] eqn:Et;
      [discriminate|].
    cbn [search_from]. rewrite <- Et, suffix_matches.
    cbn [m_before m_after GetSubstitution]. now rewrite !app_nil_r.
  - intros p c' t Hsplit. now apply (no_dims_inside b z d p c' t).
Qed.

Lemma header_strips_dims_witness :
  headerName (withDims (str "Summer sal" ++ ["e"%char]) (300, 250)%N) =
  str "Summer sal" ++ ["e"%char].
Proof.
  apply (header_strips_dims (str "Summer sal") "e"%char (300, 250)%N).
  - apply N.leb_le. reflexivity.
  - apply N.leb_le. reflexivity.
  - reflexivity.
  - vm_compute. reflexivity.
Defined.

End NameFacts.

(** ** The asset map of an archive *)

Module ExtractFacts.
Import Zip Terms MapFacts.

Lemma asset_step_keys x f z x' :
  asset_step x f z = Some x' ->
  forall k, In k (map_keys (assets x')) ->
    In k (map_keys (assets x)) \/
    (k = basename f /\ skipped k = false /\ blob z <> None).
Proof.
  unfold asset_step. destruct (skipped (basename f)) eqn:Es.
  - intros [= <-]. auto.
  - destruct (blob z) eqn:Eb; [|discriminate]. intros [= <-] k. cbn [assets].
    intros H. apply map_set_In in H as [->|H]; [right|now left].
    repeat split; [exact Es|discriminate].
Qed.

Lemma entry_step_keys x e x' :
  entry_step x e = Some x' ->
  forall k, In k (map_keys (assets x')) ->
    In k (map_keys (assets x)) \/
    (dir (snd e) = false /\ k = basename (fst e) /\ skipped k = false /\
     blob (snd e) <> None).
Proof.
  destruct e as [f z]. unfold entry_step. cbn [fst snd].
  destruct (dir z) eqn:Ed; [intros [= <-]; auto|].
  destruct (endsWith f (str ".html") && unset (htmlFile x)).
  - destruct (text z); [|discriminate]. intros [= <-]. auto.
  - intros H k Hk. destruct (asset_step_keys _ _ _ _ H k Hk); [now left|right].
    tauto.
Qed.

Lemma extract_from_keys entries : forall x r,
  extract_from x entries = Some r ->
  forall k, In k (map_keys (assets r)) ->
    In k (map_keys (assets x)) \/
    exists e, In e entries /\ dir (snd e) = false /\ k = basename (fst e) /\
              skipped k = false /\ blob (snd e) <> None.
Proof.
  induction entries as [|e entries IH]; intros x r H k Hk.
  - cbn in H. injection H as <-. now left.
  - cbn [extract_from] in H. destruct (entry_step x e) as [x'|] eqn:E; [|discriminate].
    destruct (IH _ _ H k Hk) as [Hx'|(e' & Hin & He')].
    + destruct (entry_step_keys _ _ _ E k Hx') as [Hx|He]; [now left|right].
      exists e. split; [now left|exact He].
    + right. exists e'. split; [now right|exact He'].
Qed.

(** X6.  Every key of the asset map of an archive is the base name of a file
    entry of the archive whose bytes were read, and it starts neither with a
    dot nor with [__MACOSX]: hidden files and directories never get into the
    map. *)
Theorem asset_keys_visible entries r k :
  extract entries = Some r ->
  In k (map_keys (assets r)) ->
  skipped k = false /\
  exists f z, In (f, z) entries /\ dir z = false /\ blob z <> None /\
              k = basename f.
Proof.
  intros H Hk.
  destruct (extract_from_keys _ _ _ H k Hk)
    as [[]|([f z] & Hin & Hd & -> & Hs & Hb)].
  split; [exact Hs|]. exists f, z. auto.
Qed.

Lemma asset_keys_visible_witness :
  skipped (str "other.html") = false /\
  exists f z, In (f, z) two_documents /\ dir z = false /\ blob z <> None /\
              str "other.html" = basename f.
Proof.
  apply (asset_keys_visible two_documents
           (mkExtraction (Some (str "index.html")) (str "<a href='other.html'>")
              [(str "other.html", str "data:text/html;base64,TWFu")])).
  - vm_compute. reflexivity.
  - left. reflexivity.
Defined.

Lemma entry_step_other x e x' k :
  entry_step x e = Some x' ->
  dir (snd e) = true \/ basename (fst e) <> k ->
  map_get k (assets x') = map_get k (assets x).
Proof.
  destruct e as [f z]. unfold entry_step. cbn [fst snd].
  destruct (dir z) eqn:Ed; [now intros [= <-]|].
  intros H [Hd|Hne]; [discriminate|]. revert H.
  destruct (endsWith f (str ".html") && unset (htmlFile x)).
  - destruct (text z); [|discriminate]. now intros [= <-].
  - unfold asset_step. destruct (skipped (basename f)); [now intros [= <-]|].
    destruct (blob z); [|discriminate]. intros [= <-]. cbn [assets].
    apply map_get_set_other. congruence.
Qed.

Lemma extract_from_other k entries : forall x r,
  extract_from x entries = Some r ->
  Forall (fun e => dir (snd e) = true \/ basename (fst e) <> k) entries ->
  map_get k (assets r) = map_get k (assets x).
Proof.
  induction entries as [|e entries IH]; intros x r H Hall.
  - cbn in H. now injection H as <-.
  - cbn [extract_from] in H. destruct (entry_step x e) as [x'|] eqn:E; [|discriminate].
    inversion Hall; subst. rewrite (IH _ _ H) by assumption.
    now apply (entry_step_other x e).
Qed.

Lemma stored_last pre f z b rest r :
  extract (pre ++ (f, z) :: rest) = Some r ->
  dir z = false -> endsWith f (str ".html") = false ->
  skipped (basename f) = false -> blob z = Some b ->
  Forall (fun e => dir (snd e) = true \/ basename (fst e) <> basename f) rest ->
  map_get (basename f) (assets r) =
    Some (readAsDataURL (finalBlob (basename f) b)).
Proof.
  intros H Hd Hh Hs Hb Hrest. unfold extract in H.
  rewrite ZipFacts.extract_from_app in H.
  destruct (extract_from _ pre) as [x1|]; [|discriminate].
  cbn [extract_from] in H.
  destruct (entry_step x1 (f, z)) as [x2|] eqn:E; [|discriminate].
  rewrite (extract_from_other _ _ _ _ H Hrest).
  unfold entry_step in E. rewrite Hd, Hh in E. cbn [andb] in E.
  unfold asset_step in E. rewrite Hs, Hb in E. injection E as <-. cbn [assets].
  apply map_get_set_same.
Qed.

(** X7.  When several files of an archive have the same base name, the last
    one wins: for a visible file entry that is not a document and after
    which no file entry has its base name, the asset map holds, under that
    base name, the data URL of this entry, whatever came before it. *)
Theorem last_entry_wins pre f z b rest r :
  extract (pre ++ (f, z) :: rest) = Some r ->
  dir z = false -> endsWith f (str ".html") = false ->
  skipped (basename f) = false -> blob z = Some b ->
  Forall (fun e => dir (snd e) = true \/ basename (fst e) <> basename f) rest ->
  map_get (basename f) (assets r) =
    Some (readAsDataURL (finalBlob (basename f) b)).
Proof. apply stored_last. Qed.

Lemma last_entry_wins_witness :
  map_get (str "logo.png")
    [(str "logo.png", str "data:image/png;base64,TQ==")] =
  Some (readAsDataURL
          (finalBlob (str "logo.png") (mkBlob (str "image/png") [Byte.x4d]))).
Proof.
  apply (last_entry_wins
           [ (str "old/logo.png",
              mkZipObject false None (Some (mkBlob (str "image/png") [Byte.x00])));
             (str "index.html",
              mkZipObject false (Some (str "<img src='logo.png'>"))
                          (Some (mkBlob [] []))) ]
           (str "new/logo.png")
           (mkZipObject false None (Some (mkBlob (str "image/png") [Byte.x4d])))
           (mkBlob (str "image/png") [Byte.x4d])
           []
           (mkExtraction (Some (str "index.html")) (str "<img src='logo.png'>")
              [(str "logo.png", str "data:image/png;base64,TQ==")])).
  - vm_compute. reflexivity.
  - reflexivity.
  - reflexivity.
  - reflexivity.
  - reflexivity.
  - apply Forall_nil.
Defined.

(** X8.  A stored file whose base name ends in [.svg], in any case, is
    embedded with the media type of vector images, whatever type its blob
    declares: its data URL is that type followed by the bytes in base64. *)
Theorem svg_type_forced pre f z b rest r :
  extract (pre ++ (f, z) :: rest) = Some r ->
  dir z = false -> blob z = Some b ->
  endsWith (toLowerCase (basename f)) (str ".svg") = true ->
  skipped (basename f) = false ->
  endsWith f (str ".html") = false ->
  Forall (fun e => dir (snd e) = true \/ basename (fst e) <> basename f) rest ->
  map_get (basename f) (assets r) =
    Some (str "data:image/svg+xml;base64," ++ base64 (blob_bytes b)).
Proof.
  intros H Hd Hb Hsvg Hs Hh Hrest.
  rewrite (stored_last _ _ _ _ _ _ H Hd Hh Hs Hb Hrest).
  unfold finalBlob. rewrite Hsvg. reflexivity.
Qed.

Lemma svg_type_forced_witness :
  map_get (basename (str "img/icon.SVG"))
    [(str "icon.SVG", str "data:image/svg+xml;base64,TWFu")] =
  Some (str "data:image/svg+xml;base64," ++
        base64 [Byte.x4d; Byte.x61; Byte.x6e]).
Proof.
  apply (svg_type_forced
           [ (str "index.html",
              mkZipObject false (Some (str "<img src='icon.SVG'>"))
                          (Some (mkBlob [] []))) ]
           (str "img/icon.SVG")
           (mkZipObject false None
              (Some (mkBlob (str "text/plain") [Byte.x4d; Byte.x61; Byte.x6e])))
           (mkBlob (str "text/plain") [Byte.x4d; Byte.x61; Byte.x6e])
           []
           (mkExtraction (Some (str "index.html")) (str "<img src='icon.SVG'>")
              [(str "icon.SVG", str "data:image/svg+xml;base64,TWFu")])).
  - vm_compute. reflexivity.
  - reflexivity.
  - reflexivity.
  - reflexivity.
  - reflexivity.
  - reflexivity.
  - apply Forall_nil.
Defined.

Lemma entry_step_ignorable x e : ignorable e = true -> entry_step x e = Some x.
Proof.
  destruct e as [f z]. unfold ignorable, entry_step. cbn [fst snd].
  destruct (dir z); [reflexivity|]. cbn [orb].
  destruct (endsWith f (str ".html")); cbn [negb andb]; [discriminate|].
  intros Hs. unfold asset_step. now rewrite Hs.
Qed.

(** X9.  Directories and hidden files that cannot be the document do not
    count: the loop gives the same result, success or exception, on the
    archive without them, from any state of its variables.  In
    particular their bytes are never read. *)
Theorem ignorable_entries_dropped entries : forall x,
  extract_from x (filter (fun e => negb (ignorable e)) entries) =
  extract_from x entries.
Proof.
  induction entries as [|e entries IH]; intros x; [reflexivity|].
  cbn [filter]. destruct (ignorable e) eqn:E; cbn [negb extract_from].
  - rewrite (entry_step_ignorable x e E). apply IH.
  - destruct (entry_step x e); [apply IH|reflexivity].
Qed.

Lemma html_name_set f : endsWith f (str ".html") = true -> unset (Some f) = false.
Proof. destruct f; [discriminate|reflexivity]. Qed.

Lemma names_step k v (m : assets_map) l :
  NoDup (map_keys m ++ k :: l) ->
  map_keys (map_set k v m) ++ l = map_keys m ++ k :: l.
Proof.
  intros Hnd. rewrite map_keys_set.
  destruct (map_get k m) eqn:Eg.
  - exfalso. apply NoDup_remove_2 in Hnd. apply Hnd.
    apply in_or_app. left. apply map_get_In. congruence.
  - now rewrite <- app_assoc.
Qed.

Lemma extract_from_names entries : forall x r,
  extract_from x entries = Some r ->
  NoDup (map_keys (assets x) ++ stored_names (negb (unset (htmlFile x))) entries) ->
  map_keys (assets r) =
  map_keys (assets x) ++ stored_names (negb (unset (htmlFile x))) entries.
Proof.
  induction entries as [|[f z] entries IH]; intros x r H Hnd.
  - cbn in H. injection H as <-. cbn. now rewrite app_nil_r.
  - cbn [extract_from entry_step] in H. cbn [stored_names] in *.
    destruct (dir z); [now apply IH|].
    rewrite negb_involutive in *.
    destruct (endsWith f (str ".html") && unset (htmlFile x)) eqn:E.
    + apply andb_prop in E as [Eh Eu].
      destruct (text z) as [t|]; [|discriminate].
      apply IH in H.
      * cbn [htmlFile assets] in H. rewrite (html_name_set f Eh) in H. exact H.
      * cbn [htmlFile assets]. rewrite (html_name_set f Eh). exact Hnd.
    + unfold asset_step in H.
      destruct (skipped (basename f)); [now apply IH in H|].
      destruct (blob z) as [b|]; [|discriminate].
      pose proof (names_step (basename f) (readAsDataURL (finalBlob (basename f) b))
                    (assets x) _ Hnd) as Hstep.
      apply IH in H; cbn [htmlFile assets] in *.
      * now rewrite H.
      * now rewrite Hstep.
Qed.

(** X10.  When the stored files of an archive have pairwise distinct base
    names, the asset map has exactly one entry for each of them, in the
    order in which the loop visits the entries, that of
    [Object.entries(contents.files)]; its size, which the success notice
    shows, is their number. *)
Theorem distinct_names_all_stored entries r :
  extract entries = Some r ->
  NoDup (stored_names false entries) ->
  map_keys (assets r) = stored_names false entries /\
  length (assets r) = length (stored_names false entries).
Proof.
  intros H Hnd. apply extract_from_names in H; [|exact Hnd].
  cbn in H. split; [exact H|].
  rewrite <- H. unfold map_keys. now rewrite length_map.
Qed.

Lemma distinct_names_all_stored_witness :
  map_keys [(str "x", str "data:application/octet-stream;base64,AAAA");
            (str "y", str "data:application/octet-stream;base64,AA/x")] =
    stored_names false chained_zip /\
  2 = length (stored_names false chained_zip).
Proof.
  apply (distinct_names_all_stored chained_zip
           (mkExtraction (Some (str "index.html")) (str "<img src='y'>")
              chained_assets)).
  - vm_compute. reflexivity.
  - vm_compute. repeat constructor; cbn; intuition discriminate.
Defined.

(** *** Archives that can be read *)

Lemma entry_step_readable x e : readable e -> entry_step x e <> None.
Proof.
  destruct e as [f z]. unfold readable, entry_step, asset_step. cbn [fst snd].
  intros [->|[Ht Hb]]; [discriminate|].
  destruct (dir z); [discriminate|].
  destruct (endsWith f (str ".html") && unset (htmlFile x)).
  - destruct (text z); [discriminate|congruence].
  - destruct (skipped (basename f)); [discriminate|].
    destruct (blob z); [discriminate|congruence].
Qed.

Lemma extract_from_readable es : forall x,
  Forall readable es -> extract_from x es <> None.
Proof.
  induction es as [|e es IH]; intros x H; [discriminate|].
  inversion H; subst. cbn [extract_from].
  destruct (entry_step x e) as [x'|] eqn:E; [now apply IH|].
  now apply (entry_step_readable x e) in E.
Qed.

Lemma entry_step_found x e x' :
  entry_step x e = Some x' ->
  unset (htmlFile x) = false \/ document e ->
  unset (htmlFile x') = false.
Proof.
  destruct e as [f z]. unfold entry_step, document. cbn [fst snd].
  intros H Hor.
  destruct (dir z) eqn:Ed.
  - injection H as <-. destruct Hor as [H|[H _]]; [exact H|discriminate].
  - destruct (endsWith f (str ".html")) eqn:Eh; cbn [andb] in H.
    + destruct (unset (htmlFile x)) eqn:Eu.
      * destruct (text z); [|discriminate]. injection H as <-. cbn [htmlFile].
        now apply html_name_set.
      * apply ZipFacts.asset_step_keeps_document in H as [-> _]. exact Eu.
    + apply ZipFacts.asset_step_keeps_document in H as [-> _].
      destruct Hor as [H|[_ H]]; [exact H|discriminate].
Qed.

Lemma extract_from_found es : forall x r,
  extract_from x es = Some r ->
  unset (htmlFile x) = false \/ Exists document es ->
  unset (htmlFile r) = false.
Proof.
  induction es as [|e es IH]; intros x r H Hor.
  - cbn in H. injection H as <-. destruct Hor as [H|H]; [exact H|inversion H].
  - cbn [extract_from] in H. destruct (entry_step x e) as [x'|] eqn:E; [|discriminate].
    apply (IH _ _ H).
    destruct Hor as [Hx|Hex].
    + left. apply (entry_step_found _ _ _ E). now left.
    + inversion Hex; subst.
      * left. apply (entry_step_found _ _ _ E). now right.
      * now right.
Qed.

(** X11.  An archive whose entries can all be read never makes the [try]
    block throw: it yields a bundle when some file entry ends in [.html],
    and the no-document outcome when none does.  The rewriting of the
    references is never the cause of a failure. *)
Theorem readable_archive_outcome now es :
  Forall readable es ->
  (Exists document es -> exists formatKey content,
     ingest now (Some es) = Loaded formatKey content) /\
  (Forall not_document es -> ingest now (Some es) = NoHtml).
Proof.
  intros Hr. pose proof (extract_from_readable es (mkExtraction None [] []) Hr) as Hx.
  fold (extract es) in Hx. unfold ingest.
  destruct (extract es) as [x|] eqn:E; [clear Hx|congruence].
  split.
  - intros Hdoc.
    assert (Hset : unset (htmlFile x) = false)
      by (apply (extract_from_found es _ _ E); now right).
    destruct (htmlFile x) as [[|c f]|]; try discriminate.
    destruct (ZipFacts.inlineReferences_total (assets x) (htmlContent x)) as [out ->].
    eauto.
  - intros Hnd. now rewrite (ZipFacts.no_document_extract es x Hnd E).
Qed.

Lemma readable_archive_outcome_witness :
  exists formatKey content, ingest 7 (Some two_documents) = Loaded formatKey content.
Proof.
  apply (proj1 (readable_archive_outcome 7 two_documents
                  ltac:(repeat apply Forall_cons; try apply Forall_nil;
                        [left; reflexivity
                        |right; split; discriminate
                        |right; split; discriminate]))).
  apply Exists_cons_tl, Exists_cons_hd. split; reflexivity.
Defined.

(** *** A hidden document *)

Lemma hidden_document_chosen pre filename z t rest :
  Forall not_document pre ->
  dir z = false ->
  endsWith filename (str ".html") = true ->
  text z = Some t ->
  extract (pre ++ (filename, z) :: rest) =
    match collect_assets (mkExtraction None [] []) pre with
    | Some x0 => collect_assets (mkExtraction (Some filename) t (assets x0)) rest
    | None => None
    end.
Proof.
  intros Hpre Hdir Hext Htext. unfold extract.
  rewrite ZipFacts.extract_from_app, (ZipFacts.extract_from_no_document _ _ Hpre).
  destruct (collect_assets _ pre) as [x0|] eqn:E0; [|reflexivity].
  destruct (ZipFacts.collect_assets_keeps_document _ _ _ E0) as [Hf _].
  cbn [htmlFile] in Hf.
  cbn [extract_from]. unfold entry_step. rewrite Hdir, Hext, Hf, Htext.
  cbn [unset andb].
  apply ZipFacts.extract_from_after_document. cbn [htmlFile].
  now apply html_name_set.
Qed.

(** C10.  The skip rules do not apply to the choice of the document.  Take
    an archive in which the first file entry whose name ends in the document
    extension has a base name that starts with a dot or with [__MACOSX].
    Whenever the extraction of the archive succeeds, this entry is the
    document, with its text as the content, and nothing is stored under its
    base name.  When the entries around it can be read, the extraction does
    succeed and the ingestion yields the bundle inferred from this entry.
    Taken as an asset, the same entry is skipped. *)
Theorem C10_document_before_skip pre filename z t rest :
  Forall not_document pre ->
  dir z = false ->
  endsWith filename (str ".html") = true ->
  text z = Some t ->
  skipped (basename filename) = true ->
  (forall r, extract (pre ++ (filename, z) :: rest) = Some r ->
     htmlFile r = Some filename /\ htmlContent r = t /\
     map_get (basename filename) (assets r) = None) /\
  (Forall readable pre -> Forall readable rest ->
     (exists r, extract (pre ++ (filename, z) :: rest) = Some r) /\
     forall now, exists processedHtml am,
       ingest now (Some (pre ++ (filename, z) :: rest)) =
         Loaded
           (Detect.name (Detect.detectDimensions t filename) ++ str "_" ++
            numberToString now)
           (mkFormatContent processedHtml am
              (Detect.width (Detect.detectDimensions t filename))
              (Detect.height (Detect.detectDimensions t filename))
              (Detect.name (Detect.detectDimensions t filename))) /\
       inlineReferences am t = Some processedHtml) /\
  (forall x, asset_step x filename z = Some x).
Proof.
  intros Hpre Hdir Hext Htext Hskip.
  pose proof (hidden_document_chosen pre filename z t rest Hpre Hdir Hext Htext) as Hx.
  assert (Hdoc : forall r, extract (pre ++ (filename, z) :: rest) = Some r ->
            htmlFile r = Some filename /\ htmlContent r = t).
  { intros r Hr. rewrite Hx in Hr.
    destruct (collect_assets _ pre) as [x0|]; [|discriminate].
    now apply ZipFacts.collect_assets_keeps_document in Hr. }
  split; [|split].
  - intros r Hr. destruct (Hdoc r Hr) as [Hf Hc]. split; [exact Hf|]. split; [exact Hc|].
    destruct (map_get (basename filename) (assets r)) eqn:Eg; [|reflexivity].
    assert (Hin : In (basename filename) (map_keys (assets r)))
      by (apply map_get_In; congruence).
    destruct (extract_from_keys _ _ _ Hr _ Hin) as [[]|(e & _ & _ & _ & Hs & _)].
    congruence.
  - intros Hrpre Hrrest.
    assert (Hsome : exists r, extract (pre ++ (filename, z) :: rest) = Some r).
    { unfold extract. rewrite ZipFacts.extract_from_app.
      pose proof (extract_from_readable pre (mkExtraction None [] []) Hrpre) as H0.
      destruct (extract_from _ pre) as [x0|] eqn:E0; [|congruence].
      assert (Hf : htmlFile x0 = None).
      { rewrite (ZipFacts.extract_from_no_document _ _ Hpre) in E0.
        now apply ZipFacts.collect_assets_keeps_document in E0. }
      cbn [extract_from]. unfold entry_step. rewrite Hdir, Hext, Hf, Htext.
      cbn [unset andb].
      pose proof (extract_from_readable rest
                    (mkExtraction (Some filename) t (assets x0)) Hrrest) as H1.
      destruct (extract_from _ rest) as [r|]; [now exists r|congruence]. }
    split; [exact Hsome|]. intros now. destruct Hsome as [r Hr].
    destruct (Hdoc r Hr) as [Hf Hc].
    destruct (ZipFacts.inlineReferences_total (assets r) t) as [out Hout].
    exists out, (assets r). split; [|exact Hout].
    unfold ingest. rewrite Hr, Hf, Hc.
    destruct filename as [|c f]; [discriminate|].
    now rewrite Hout.
  - intros x. unfold asset_step. now rewrite Hskip.
Qed.

Lemma C10_document_before_skip_witness :
  (forall r, extract hidden_document_zip = Some r ->
     htmlFile r = Some (str "__MACOSX/._index.html") /\
     htmlContent r = str "Mac OS X" /\
     map_get (str "._index.html") (assets r) = None) /\
  (exists r, extract hidden_document_zip = Some r) /\
  (exists processedHtml am,
     ingest 5 (Some hidden_document_zip) =
       Loaded (str "  MACOSX/. index (800" ++ [times_sign] ++ str "600)_5")
         (mkFormatContent processedHtml am 800 600
            (str "  MACOSX/. index (800" ++ [times_sign] ++ str "600)")) /\
     inlineReferences am (str "Mac OS X") = Some processedHtml).
Proof.
  destruct (C10_document_before_skip
              [(str "img/", mkZipObject true None None)]
              (str "__MACOSX/._index.html")
              (mkZipObject false (Some (str "Mac OS X")) (Some (mkBlob [] [])))
              (str "Mac OS X")
              [(str "index.html",
                mkZipObject false (Some (str "<html><body>hi</body></html>"))
                            (Some (mkBlob (str "text/html") [Byte.x4d])))])
    as (H1 & H2 & _).
  - apply Forall_cons; [left; reflexivity|apply Forall_nil].
  - reflexivity.
  - reflexivity.
  - reflexivity.
  - reflexivity.
  - destruct H2 as [H2 H3].
    + apply Forall_cons; [left; reflexivity|apply Forall_nil].
    + apply Forall_cons; [right; split; discriminate|apply Forall_nil].
    + split; [exact H1|]. split; [exact H2|].
      destruct (H3 5%N) as (processedHtml & am & Hi & Ho).
      exists processedHtml, am. split; [|exact Ho].
      unfold hidden_document_zip. cbn [app] in Hi. rewrite Hi.
      vm_compute. reflexivity.
Defined.

End ExtractFacts.

(** ** What the rewriting changes *)

Module InlineFacts.
Import Zip Terms.

Lemma pass_replaced ok D prev l :
  Forall2 (replaced_by [D]) l (rewrite_tokens ok D prev l).
Proof.
  apply (RewriteFacts.rewrite_tokens_ind ok D
           (fun _ l l' => Forall2 (replaced_by [D]) l l')).
  - constructor.
  - intros _ q w. constructor; [|constructor]. split; now left.
  - intros _ q w q' w' l' _ IH.
    constructor; [split; cbn; auto|].
    constructor; [split; cbn; auto|exact IH].
  - intros _ q w q' w' l' _ IH. constructor; [split; now left|exact IH].
Qed.

Lemma replaced_trans us vs a b c :
  replaced_by us a b -> replaced_by vs b c -> replaced_by (us ++ vs) a c.
Proof.
  intros [Hq Hw] [Hq' Hw']. split.
  - destruct Hq' as [->| ->]; auto.
  - destruct Hw' as [->|H].
    + destruct Hw; [now left|right; apply in_or_app; now left].
    + right. apply in_or_app. now right.
Qed.

Lemma Forall2_replaced_trans us vs : forall l1 l2 l3,
  Forall2 (replaced_by us) l1 l2 -> Forall2 (replaced_by vs) l2 l3 ->
  Forall2 (replaced_by (us ++ vs)) l1 l3.
Proof.
  intros l1 l2 l3 H. revert l3.
  induction H as [|a b l1 l2 Hab H IH]; intros l3 H3; inversion H3; subst.
  - constructor.
  - constructor; [now apply (replaced_trans us vs a b)|now apply IH].
Qed.

Lemma Forall2_replaced_incl us vs l1 l2 :
  incl us vs -> Forall2 (replaced_by us) l1 l2 -> Forall2 (replaced_by vs) l1 l2.
Proof.
  intros Hi. induction 1 as [|a b l1 l2 [Hq Hw] H IH]; constructor; [|exact IH].
  split; [exact Hq|]. destruct Hw; [now left|right; now apply Hi].
Qed.

Lemma rewrite_all_replaced (am : assets_map) : forall u l,
  Forall2 (replaced_by (map snd am)) l (rewrite_all am u l).
Proof.
  induction am as [|[B D] am IH]; intros u l.
  - cbn. induction l as [|a l IHl]; constructor; [split; now left|exact IHl].
  - rewrite RewriteFacts.rewrite_all_cons. cbn [map snd].
    apply (Forall2_replaced_incl (([D] ++ [D]) ++ map snd am)).
    { intros x Hx. cbn in Hx. cbn. tauto. }
    eapply Forall2_replaced_trans; [|apply IH].
    eapply Forall2_replaced_trans; apply pass_replaced.
Qed.

(** X12.  The rewriting touches nothing but quoted values and their quotes.
    For an asset map without quotes or dollar signs, cut the document at
    its quote characters: the text before the first quote is unchanged, the
    number of quotes is unchanged, and each piece between quotes is either
    as before or one of the data URLs of the map, each quote either as
    before or a double quote. *)
Theorem only_values_replaced (am : assets_map) html :
  plain_assets am = true ->
  exists l',
    inlineReferences am html = Some (fst (split_quotes html) ++ flat l') /\
    Forall2 (replaced_by (map snd am)) (snd (split_quotes html)) l'.
Proof.
  intros Hp. destruct (RewriteFacts.split_quotes_spec html) as (Hs & Hu & Hl).
  exists (rewrite_all am (fst (split_quotes html)) (snd (split_quotes html))).
  split; [|apply rewrite_all_replaced].
  rewrite Hs at 1. now apply RewriteFacts.inlineReferences_tokens.
Qed.

Lemma only_values_replaced_witness :
  exists l',
    inlineReferences logo_assets (str "<img alt='logo' src='img/logo(1).png'>") =
      Some (fst (split_quotes (str "<img alt='logo' src='img/logo(1).png'>")) ++
            flat l') /\
    Forall2 (replaced_by (map snd logo_assets))
      (snd (split_quotes (str "<img alt='logo' src='img/logo(1).png'>"))) l'.
Proof.
  apply (only_values_replaced logo_assets
           (str "<img alt='logo' src='img/logo(1).png'>")).
  reflexivity.
Defined.

(** X13.  Escaping makes every file name a literal: for any file name, the
    pattern source built from the escaped name reads back as the name
    itself, unit for unit, so that the construction of the pattern never
    fails and no unit of the name acts as an operator. *)
Theorem filename_taken_literally filename :
  pattern_chars (escapedFilename filename) = Some filename.
Proof.
  rewrite ZipFacts.escapedFilename_escape. apply ZipFacts.pattern_chars_escape.
Qed.

End InlineFacts.

(** ** The handlers *)

Module AppFacts.
Import Zip App MapFacts.

Lemma detected_bundle html filename :
  (0 < Detect.width (Detect.detectDimensions html filename))%N /\
  (0 < Detect.height (Detect.detectDimensions html filename))%N /\
  Detect.name (Detect.detectDimensions html filename) <> [].
Proof.
  unfold Detect.detectDimensions. cbn [Detect.width Detect.height Detect.name].
  pose proof (DetectFacts.detectSize_complete html filename) as H.
  unfold Detect.incomplete in H. apply orb_false_iff in H as [Hw Hh].
  apply N.eqb_neq in Hw, Hh.
  split; [lia|]. split; [lia|]. apply NameFacts.withDims_nonempty.
Qed.

(** A bundle that loads is well formed, and its key is its name, an
    underscore and the time. *)
Lemma ingest_loaded now es formatKey c :
  ingest now es = Loaded formatKey c ->
  bundle_ok c /\ formatKey = fc_name c ++ str "_" ++ numberToString now.
Proof.
  unfold ingest. destruct es as [es|]; [|discriminate].
  destruct (extract es) as [x|]; [|discriminate].
  destruct (htmlFile x) as [[|a f]|]; try discriminate.
  destruct (inlineReferences (assets x) (htmlContent x)); [|discriminate].
  destruct (detected_bundle (htmlContent x) (a :: f)) as (Hw & Hh & Hn).
  set (d := Detect.detectDimensions (htmlContent x) (a :: f)) in *.
  clearbody d.
  intros [= <- <-]. split; [|reflexivity].
  unfold bundle_ok. cbn [fc_width fc_height fc_name]. auto.
Qed.

(** The closure read in the state it was made in is the function itself. *)
Lemma processZipFile_closure now file st :
  processZipFile now file st = processZipFileWith (selectedFormat st) now file st.
Proof. reflexivity. Qed.

(** *** One file, then a batch *)

Lemma processZipFileWith_loaded seen nf st :
  formatContents (processZipFileWith seen (fst nf) (snd nf) st) =
    match loaded nf with
    | Some kc => map_set (fst kc) (snd kc) (formatContents st)
    | None => formatContents st
    end /\
  selectedFormat (processZipFileWith seen (fst nf) (snd nf) st) =
    match loaded nf with
    | Some kc => if unset seen then Some (fst kc) else selectedFormat st
    | None => selectedFormat st
    end /\
  length (toasts (processZipFileWith seen (fst nf) (snd nf) st)) =
    S (length (toasts st)).
Proof.
  unfold processZipFileWith, loaded.
  destruct (negb _).
  - cbn. rewrite length_app. cbn. repeat split; lia.
  - destruct (ingest (fst nf) (contents (snd nf))); cbn; rewrite length_app; cbn;
      repeat split; lia.
Qed.

Lemma processFiles_cons seen nf files st :
  processFiles seen (nf :: files) st =
  processFiles seen files (processZipFileWith seen (fst nf) (snd nf) st).
Proof. reflexivity. Qed.

Lemma processFiles_collection seen files : forall st,
  formatContents (processFiles seen files st) =
  set_all (loaded_bundles files) (formatContents st).
Proof.
  induction files as [|nf files IH]; intros st; [reflexivity|].
  rewrite processFiles_cons, IH.
  destruct (processZipFileWith_loaded seen nf st) as [-> _].
  unfold loaded_bundles, set_all. cbn [flat_map]. rewrite fold_left_app.
  now destruct (loaded nf).
Qed.

Lemma processFiles_notices seen files : forall st,
  length (toasts (processFiles seen files st)) =
  length (toasts st) + length files.
Proof.
  induction files as [|nf files IH]; intros st; [cbn; lia|].
  rewrite processFiles_cons, IH.
  destruct (processZipFileWith_loaded seen nf st) as (_ & _ & ->). cbn. lia.
Qed.

Lemma processFiles_selection seen files : forall st,
  selectedFormat (processFiles seen files st) =
  if unset seen then
    match rev (loaded_bundles files) with
    | kc :: _ => Some (fst kc)
    | [] => selectedFormat st
    end
  else selectedFormat st.
Proof.
  induction files as [|nf files IH]; intros st.
  - cbn. now destruct (unset seen).
  - rewrite processFiles_cons, IH.
    destruct (processZipFileWith_loaded seen nf st) as (_ & -> & _).
    unfold loaded_bundles. cbn [flat_map]. fold (loaded_bundles files).
    destruct (unset seen); [|now destruct (loaded nf)].
    rewrite rev_app_distr.
    destruct (rev (loaded_bundles files)) as [|kc l]; [|reflexivity].
    now destruct (loaded nf).
Qed.

(** X14.  A batch of files, uploaded or dropped, is handled file by file: the
    collection afterwards is the collection before with the bundles of the
    files that load set one after the other, in the order of the batch; a
    file that fails adds nothing, stops nothing and undoes nothing; and
    every file, loaded or not, leaves exactly one notice. *)
Theorem batch_outcome seen files st :
  formatContents (processFiles seen files st) =
    set_all (loaded_bundles files) (formatContents st) /\
  length (toasts (processFiles seen files st)) =
    length (toasts st) + length files.
Proof.
  split; [apply processFiles_collection|apply processFiles_notices].
Qed.

(** X15.  The selection after a batch.  The test of the selection in
    [processZipFile] reads the value that the handler closed over when the
    batch started.  If a bundle was selected then, the batch leaves the
    selection as it is; if none was, every file that loads selects its
    bundle, so that the last bundle loaded ends up selected. *)
Theorem batch_selection seen files st :
  selectedFormat (processFiles seen files st) =
  if unset seen then
    match rev (loaded_bundles files) with
    | kc :: _ => Some (fst kc)
    | [] => selectedFormat st
    end
  else selectedFormat st.
Proof. apply processFiles_selection. Qed.

Lemma loaded_key nf kc : loaded nf = Some kc -> unset (Some (fst kc)) = false.
Proof.
  unfold loaded. destruct (negb _); [discriminate|].
  destruct (ingest _ _) eqn:E; try discriminate.
  intros [= <-]. apply ingest_loaded in E as [_ ->]. cbn [fst].
  now destruct (fc_name content).
Qed.

(** X16.  Two archives in one batch and the same two archives one after the
    other do not select the same bundle.  From a state with nothing
    selected, with both archives loading: uploaded together, the second
    one is selected afterwards; uploaded in two steps, the first one is. *)
Theorem upload_selection a b ka kb st :
  unset (selectedFormat st) = true ->
  loaded a = Some ka -> loaded b = Some kb ->
  selectedFormat (handleZipUpload (Some [a; b]) st) = Some (fst kb) /\
  selectedFormat (handleZipUpload (Some [b]) (handleZipUpload (Some [a]) st))
    = Some (fst ka).
Proof.
  intros Hsel Ha Hb. unfold handleZipUpload.
  rewrite !processFiles_selection.
  unfold loaded_bundles. cbn [flat_map]. rewrite Ha, Hb, Hsel.
  cbn [app rev]. rewrite (loaded_key a ka Ha). auto.
Qed.

Lemma upload_selection_witness :
  exists ka kb,
    loaded links_zip = Some ka /\ loaded chain_zip = Some kb /\
    selectedFormat (handleZipUpload (Some [links_zip; chain_zip]) empty_state)
      = Some (fst kb) /\
    selectedFormat (handleZipUpload (Some [chain_zip])
                      (handleZipUpload (Some [links_zip]) empty_state))
      = Some (fst ka).
Proof.
  destruct (loaded links_zip) as [ka|] eqn:Ea; [|vm_compute in Ea; discriminate].
  destruct (loaded chain_zip) as [kb|] eqn:Eb; [|vm_compute in Eb; discriminate].
  exists ka, kb. split; [reflexivity|]. split; [reflexivity|].
  apply (upload_selection links_zip chain_zip ka kb empty_state).
  - reflexivity.
  - exact Ea.
  - exact Eb.
Defined.

Lemma set_all_keeps l : forall (m : jsmap FormatContent),
  (exists more, map_keys (set_all l m) = map_keys m ++ more) /\
  (forall k, ~ In k (map fst l) -> map_get k (set_all l m) = map_get k m).
Proof.
  unfold set_all.
  induction l as [|[k c] l IH]; intros m.
  - split; [exists []; cbn; now rewrite app_nil_r|reflexivity].
  - cbn [fold_left fst snd map]. destruct (IH (map_set k c m)) as [[more Hk] Hg]. split.
    + rewrite Hk, map_keys_set. destruct (map_get k m).
      * now exists more.
      * exists (k :: more). now rewrite <- app_assoc.
    + intros k' Hk'. rewrite Hg by (intros H; apply Hk'; now right).
      apply map_get_set_other. intros ->. apply Hk'. now left.
Qed.

(** X17.  An upload only adds.  After a batch, the keys that were in the
    collection are still there, in the same order and before the new ones,
    and every key other than those of the bundles just loaded is bound to
    the bundle it was bound to. *)
Theorem upload_keeps_bundles seen files st :
  (exists more,
     map_keys (formatContents (processFiles seen files st)) =
     map_keys (formatContents st) ++ more) /\
  (forall k, ~ In k (map fst (loaded_bundles files)) ->
     map_get k (formatContents (processFiles seen files st)) =
     map_get k (formatContents st)).
Proof. rewrite processFiles_collection. apply set_all_keeps. Qed.

(** *** Removal *)

(** X18.  Removing a bundle removes that bundle and nothing else: its key is
    no longer bound, every other key is bound as before, and the order of
    the remaining keys is kept.  When the removed bundle was the selected
    one, the selection moves to the first bundle that remains, and is
    cleared when none does; otherwise it stays. *)
Theorem removeFormat_spec formatKey st :
  map_get formatKey (formatContents (removeFormat formatKey st)) = None /\
  (forall k, k <> formatKey ->
     map_get k (formatContents (removeFormat formatKey st)) =
     map_get k (formatContents st)) /\
  map_keys (formatContents (removeFormat formatKey st)) =
    filter (fun k => negb (str_eqb k formatKey)) (map_keys (formatContents st)) /\
  selectedFormat (removeFormat formatKey st) =
    (if selected_is (selectedFormat st) formatKey
     then hd_error (map_keys (formatContents (removeFormat formatKey st)))
     else selectedFormat st).
Proof.
  unfold removeFormat. cbn [formatContents selectedFormat].
  repeat split.
  - apply map_get_delete_same.
  - intros k Hk. now apply map_get_delete_other.
  - apply map_keys_delete.
  - rewrite map_keys_delete.
    destruct (selected_is _ _); [|reflexivity].
    now destruct (filter _ _).
Qed.

(** *** What holds in every state *)

Lemma notify_ok t st : state_ok st -> state_ok (notify t st).
Proof. intros H. exact H. Qed.

Lemma processZipFileWith_ok seen now file st :
  state_ok st -> state_ok (processZipFileWith seen now file st).
Proof.
  intros (Hsel & Hall & Hnd). unfold processZipFileWith.
  destruct (negb _); [now apply notify_ok|].
  destruct (ingest now (contents file)) as [| |key c] eqn:E;
    try now apply notify_ok.
  apply ingest_loaded in E as [Hc _].
  split; [|split].
  - unfold selection_valid in *. cbn [formatContents selectedFormat].
    destruct (unset seen).
    + apply map_set_In. now left.
    + destruct (selectedFormat st); [|exact I].
      apply map_set_In. now right.
  - cbn [formatContents]. apply map_set_Forall; assumption.
  - cbn [formatContents]. now apply map_set_NoDup.
Qed.

Lemma processFiles_ok seen files : forall st,
  state_ok st -> state_ok (processFiles seen files st).
Proof.
  induction files as [|nf files IH]; intros st H.
  - exact H.
  - rewrite processFiles_cons. apply IH. now apply processZipFileWith_ok.
Qed.

Lemma removeFormat_ok formatKey st :
  state_ok st -> state_ok (removeFormat formatKey st).
Proof.
  intros (Hsel & Hall & Hnd). split; [|split].
  - unfold selection_valid, removeFormat in *.
    cbn [formatContents selectedFormat].
    rewrite map_keys_delete.
    destruct (selected_is (selectedFormat st) formatKey) eqn:E.
    + destruct (filter _ (map_keys (formatContents st))) as [|k l]; [exact I|].
      now left.
    + destruct (selectedFormat st) as [k|]; [|exact I].
      cbn in E. apply filter_In. split; [exact Hsel|]. now rewrite E.
  - unfold removeFormat. cbn [formatContents]. unfold map_delete.
    apply Forall_forall. intros kv Hkv.
    apply filter_In in Hkv as [Hkv _].
    now apply (proj1 (Forall_forall _ _) Hall).
  - unfold removeFormat. cbn [formatContents]. rewrite map_keys_delete.
    now apply NoDup_filter.
Qed.

Lemma handleShare_ok copied st : state_ok st -> state_ok (snd (handleShare copied st)).
Proof.
  intros H. unfold handleShare.
  destruct (formatContents st); [exact H|].
  destruct (option_map fc_html (current st)) as [[|c s]|]; try exact H.
  destruct copied; exact H.
Qed.

Lemma handleDownload_ok st : state_ok st -> state_ok (snd (handleDownload st)).
Proof.
  intros H. unfold handleDownload.
  destruct (formatContents st); [exact H|].
  destruct (current st); exact H.
Qed.

Lemma reachable_state_ok st : reachable st -> state_ok st.
Proof.
  induction 1.
  - split; [exact I|]. split; constructor.
  - now apply processFiles_ok.
  - now apply removeFormat_ok.
  - split; [exact I|]. split; constructor.
  - destruct IHreachable as (_ & Hall & Hnd). split; [exact H0|]. now split.
  - now apply handleShare_ok.
  - now apply handleDownload_ok.
Qed.

(** X19.  In every state that the handlers can produce from the initial
    one (uploads and drops with any closure, removals, clearing, clicks on
    listed bundles, sharing, downloading), the selection, when set, is the
    key of a bundle of the collection, every bundle has positive
    dimensions and a name that is not empty, and no key occurs twice. *)
Theorem reachable_invariant st :
  reachable st ->
  selection_valid st /\
  Forall (fun kv => bundle_ok (snd kv)) (formatContents st) /\
  NoDup (map_keys (formatContents st)).
Proof. apply reachable_state_ok. Qed.

Lemma reachable_invariant_witness :
  let st :=
    removeFormat (str "index (800" ++ [times_sign] ++ str "600)_2")
      (processFiles None [links_zip; chain_zip] empty_state) in
  selection_valid st /\
  Forall (fun kv => bundle_ok (snd kv)) (formatContents st) /\
  NoDup (map_keys (formatContents st)).
Proof.
  apply (reachable_invariant
           (removeFormat (str "index (800" ++ [times_sign] ++ str "600)_2")
              (processFiles None [links_zip; chain_zip] empty_state))).
  apply reach_remove, reach_files, reach_init.
Defined.

(** *** Download *)

(** X20.  In a state that the handlers can produce, a download with a
    collection that is not empty always produces a file: the bundle taken is
    the selected one, or the first of the collection when nothing is
    selected; the file is named after the bundle with [.html] appended and
    holds the rewritten document of the bundle. *)
Theorem download_in_reachable st :
  reachable st -> formatContents st <> [] ->
  exists k c,
    In (k, c) (formatContents st) /\
    (if truthy (selectedFormat st) then selectedFormat st = Some k
     else hd_error (formatContents st) = Some (k, c)) /\
    fst (handleDownload st) = Some (fc_name c ++ str ".html", fc_html c).
Proof.
  intros Hr Hne. apply reachable_state_ok in Hr as (Hsel & Hall & Hnd).
  assert (Hcur : exists k c, In (k, c) (formatContents st) /\
            (if truthy (selectedFormat st) then selectedFormat st = Some k
             else hd_error (formatContents st) = Some (k, c)) /\
            current st = Some c).
  { unfold current, selection_valid in *.
    destruct (truthy (selectedFormat st)) eqn:Et.
    - destruct (selectedFormat st) as [k|]; [|discriminate].
      apply map_get_In in Hsel.
      destruct (map_get k (formatContents st)) as [c|] eqn:E; [|congruence].
      exists k, c. split; [now apply map_get_Some_In|auto].
    - destruct (formatContents st) as [|[k c] m]; [congruence|].
      exists k, c. cbn. auto. }
  destruct Hcur as (k & c & Hin & Hwhich & Hcur).
  exists k, c. split; [exact Hin|]. split; [exact Hwhich|].
  unfold handleDownload. destruct (formatContents st); [congruence|].
  now rewrite Hcur.
Qed.

Lemma download_in_reachable_witness :
  let st := processFiles None [links_zip; chain_zip] empty_state in
  exists k c,
    In (k, c) (formatContents st) /\
    (if truthy (selectedFormat st) then selectedFormat st = Some k
     else hd_error (formatContents st) = Some (k, c)) /\
    fst (handleDownload st) = Some (fc_name c ++ str ".html", fc_html c).
Proof.
  apply (download_in_reachable (processFiles None [links_zip; chain_zip] empty_state)).
  - apply reach_files, reach_init.
  - vm_compute. discriminate.
Defined.

End AppFacts.
